(** * Retrieval core of the chatbot: embedding client, vector store,
      chunker and source list

    A shallow embedding of
    - [GeminiService.getEmbedding]              (services/gemini),
    - [VectorStore]                             (services/vectorStore.ts),
    - [chunkText]                               (services/documentProcessor),
    - the source list of [ChatInterface.handleSend],
    - [processFile]                             (services/documentProcessor),
    - [App.handleGlobalUpload]                  (App),
    - [GeminiService.generateRagResponse]       (services/gemini),
    - [ChatInterface.handleSend]                (components/ChatInterface),
    followed by the properties the specification states about them, and
    by further properties of the same code.

    JavaScript numbers are IEEE 754 binary64 values: they are modelled by
    Rocq's primitive floats, whose operations the Standard Library
    specifies by [SpecFloat].  Asynchronous code is modelled by a state and
    exception monad over a [World].  An async function whose calls run
    side by side is a process ([Proc]) that stops where it waits for the
    outside world; the promises of one [Promise.all] are started in input
    order and then resumed in the order in which the event loop, which is
    part of the world, completes what they wait for. *)

From Stdlib Require Import ZArith List String Ascii Bool Lia Floats.
From Stdlib Require Import Sorted Permutation DecimalString.
Import ListNotations.

Local Open Scope string_scope.
Local Open Scope list_scope.
Local Open Scope nat_scope.

(* ================================================================== *)
(** * Part I: the program *)
(* ================================================================== *)

(** ** JavaScript built-ins used by the sources *)

Module JS.

(** A thrown [Error] object; [message], a string when present, is read
    with [error.message?.includes]. *)
Record Error := mkError { message : option string }.

(** How the evaluation of a statement list ends. *)
Inductive Completion (A : Type) :=
| Normal (a : A)
| Throw (e : Error).
Arguments Normal {A} a.
Arguments Throw {A} e.

(** [String.prototype.includes]. *)
Fixpoint includes (s needle : string) : bool :=
  String.prefix needle s ||
  match s with
  | EmptyString => false
  | String _ s' => includes s' needle
  end.

(** Relative index of [slice]: negative counts from the end, then the
    index is clamped to [0, len]. *)
Definition relIndex (len rel : Z) : Z :=
  if (rel <? 0)%Z then Z.max (len + rel) 0 else Z.min rel len.

(** [Array.prototype.slice(start, end)] for integer arguments. *)
Definition slice {A} (l : list A) (start end_ : Z) : list A :=
  let len := Z.of_nat (List.length l) in
  let k := relIndex len start in
  let final := relIndex len end_ in
  firstn (Z.to_nat (final - k)) (skipn (Z.to_nat k) l).

(** [String.prototype.slice(start, end)]; a string is its sequence of
    code units. *)
Definition sliceString (s : string) (start end_ : Z) : string :=
  string_of_list_ascii (slice (list_ascii_of_string s) start end_).

(** [Array.prototype.sort(comparefn)].  The sort is stable; [comparefn]
    returns a number, and a positive value means that its first argument
    sorts after the second.  The language leaves the algorithm to the
    engine; for a consistent comparator the result is determined (see
    [sort_unique] for the comparator of [search]), and it is computed here
    by insertion from the right, an element moving past those it sorts
    after. *)
Fixpoint sortInsert {A} (comparefn : A -> A -> float) (x : A) (l : list A)
  : list A :=
  match l with
  | [] => [x]
  | y :: l' =>
      if (0 <? comparefn x y)%float then y :: sortInsert comparefn x l'
      else x :: l
  end.

Definition sort {A} (comparefn : A -> A -> float) (l : list A) : list A :=
  fold_right (sortInsert comparefn) [] l.

(** [Array.prototype.map] with a callback that may throw: the elements
    are visited in order, and the first throw ends the call. *)
Fixpoint mapArray {A B} (f : A -> Completion B) (l : list A)
  : Completion (list B) :=
  match l with
  | [] => Normal []
  | x :: rest =>
      match f x with
      | Throw e => Throw e
      | Normal y =>
          match mapArray f rest with
          | Throw e => Throw e
          | Normal ys => Normal (y :: ys)
          end
      end
  end.

(** [undefined * x] and the like: reading past the end of an array of
    numbers yields [undefined], which arithmetic turns into NaN. *)
Definition numAt (v : list float) (i : nat) : float := nth i v nan.

(** The global [isNaN] on a number. *)
Definition isNaN (x : float) : bool := is_nan x.

(** [Set] of strings: insertion ordered, [add] ignores a member, and
    [Array.from] lists the members in insertion order. *)
Module StringSet.
Definition t := list string.
Definition has (s : t) (x : string) : bool := existsb (String.eqb x) s.
Definition add (s : t) (x : string) : t := if has s x then s else s ++ [x].
Definition ofArray (l : list string) : t := fold_left add l [].
Definition toArray (s : t) : list string := s.
End StringSet.

End JS.

(** ** Data model ([types]) *)

(** [DocumentChunk]; [embedding] is optional. *)
Record DocumentChunk := mkDocumentChunk {
  id : string;
  documentId : string;
  documentName : string;
  text : string;
  embedding : option (list float)
}.

(** [Omit<DocumentChunk, 'id'>]: what the callers of [addChunks] build. *)
Record NewChunk := mkNewChunk {
  newDocumentId : string;
  newDocumentName : string;
  newText : string;
  newEmbedding : option (list float)
}.

(** The provider's answer to [ai.models.embedContent]: [embeddings] may be
    absent, and so may the [values] of an embedding, which [getEmbedding]
    returns as they are: [None] is [undefined]. *)
Record ContentEmbedding := mkContentEmbedding {
  values : option (list float)
}.
Record EmbedContentResponse := mkResponse {
  embeddings : option (list ContentEmbedding)
}.
Inductive Reply :=
| Resolved (response : EmbedContentResponse)
| Rejected (error : JS.Error).

(** ** The world outside the program *)

(** What the program does that can be observed from outside. *)
Inductive Event :=
| EvEmbedContent (text : string)            (* ai.models.embedContent *)
| EvTimeout (ms : Z)                        (* setTimeout(resolve, ms) *)
| EvConsoleError (label : string) (err : JS.Error)
| EvProgress (current total : nat).         (* onProgress(current, total) *)

(** The collaborators: the embedding provider, the UUID source, the clock
    and the event loop, as a deterministic machine with state [E].
    [embedContent] gives the reply that a request gets, whenever it comes;
    [elapse ms] is the world after a timer of [ms] milliseconds;
    [settles n] tells which of [n] pending operations (requests without
    their reply yet and running timers, numbered from [0] in the order of
    the promises that wait for them) completes next, the number being
    taken modulo [n]. *)
Class Runtime (E : Type) := {
  embedContent : string -> E -> Reply * E;
  randomUUID : E -> string * E;
  elapse : Z -> E -> E;
  settles : nat -> E -> nat * E
}.

(** [env] is the state of the collaborators, [chunks] the field
    [this.chunks] of the [vectorStore] singleton, [trace] the events so
    far. *)
Record World (E : Type) := mkWorld {
  env : E;
  chunks : list DocumentChunk;
  trace : list Event
}.
Arguments mkWorld {E} env chunks trace.
Arguments env {E} w.
Arguments chunks {E} w.
Arguments trace {E} w.

(** State and exception monad of the asynchronous code. *)
Definition M (E A : Type) := World E -> JS.Completion A * World E.

Definition ret {E A} (a : A) : M E A := fun w => (JS.Normal a, w).

Definition bind {E A B} (m : M E A) (f : A -> M E B) : M E B :=
  fun w =>
    match m w with
    | (JS.Normal a, w') => f a w'
    | (JS.Throw e, w') => (JS.Throw e, w')
    end.

Definition throw {E A} (e : JS.Error) : M E A := fun w => (JS.Throw e, w).

Definition tryCatch {E A} (body : M E A) (handler : JS.Error -> M E A)
  : M E A :=
  fun w =>
    match body w with
    | (JS.Normal a, w') => (JS.Normal a, w')
    | (JS.Throw e, w') => handler e w'
    end.

Declare Scope js_scope.
Delimit Scope js_scope with js.
Notation "x <- m ;; k" := (bind m (fun x => k))
  (at level 61, m at next level, right associativity) : js_scope.
Notation "m ;; k" := (bind m (fun _ => k))
  (at level 61, right associativity) : js_scope.

Definition emit {E} (ev : Event) : M E unit :=
  fun w => (JS.Normal tt, mkWorld (env w) (chunks w) (trace w ++ [ev])).

(** A computation that touches nothing outside, by how it ends. *)
Definition complete {E A} (c : JS.Completion A) : M E A := fun w => (c, w).

(** [this.ai.models.embedContent(...)], awaited at once: the request and
    its reply. *)
Definition requestEmbedContent {E} `{Runtime E} (t : string) : M E Reply :=
  fun w =>
    let '(reply, e') := embedContent t (env w) in
    (JS.Normal reply, mkWorld e' (chunks w) (trace w ++ [EvEmbedContent t])).

(** [await new Promise(r => setTimeout(r, ms))] *)
Definition sleep {E} `{Runtime E} (ms : Z) : M E unit :=
  fun w =>
    (JS.Normal tt, mkWorld (elapse ms (env w)) (chunks w) (trace w ++ [EvTimeout ms])).

(** [crypto.randomUUID()] *)
Definition cryptoRandomUUID {E} `{Runtime E} : M E string :=
  fun w =>
    let '(u, e') := randomUUID (env w) in
    (JS.Normal u, mkWorld e' (chunks w) (trace w)).

Definition consoleError {E} (label : string) (err : JS.Error) : M E unit :=
  emit (EvConsoleError label err).

Definition getChunks {E} : M E (list DocumentChunk) :=
  fun w => (JS.Normal (chunks w), w).

Definition setChunks {E} (cs : list DocumentChunk) : M E unit :=
  fun w => (JS.Normal tt, mkWorld (env w) cs (trace w)).

(** [for (let i = 0; i < n; i += step)] with a constant positive [step]:
    the values [i] takes. *)
Definition forIndices (n step : nat) : list nat :=
  map (fun j => j * step) (seq 0 ((n + (step - 1)) / step)).

Fixpoint forEachM {E St} (body : nat -> St -> M E St) (idxs : list nat)
    (s : St) : M E St :=
  match idxs with
  | [] => ret s
  | i :: rest => (s' <- body i s ;; forEachM body rest s')%js
  end.

(** ** Async functions and promises *)

(** An async function whose calls may run side by side, as a process: it
    returns or throws; or it asks the provider and waits for the reply; or
    it sets a timer and waits for it; writing to the console and drawing a
    UUID do not wait. *)
Inductive Proc (A : Type) : Type :=
| Return (a : A)
| Raise (error : JS.Error)
| EmbedContent (t : string) (k : Reply -> Proc A)
| SetTimeout (ms : Z) (k : Proc A)
| ConsoleError (label : string) (error : JS.Error) (k : Proc A)
| RandomUUID (k : string -> Proc A).
Arguments Return {A} a.
Arguments Raise {A} error.
Arguments EmbedContent {A} t k.
Arguments SetTimeout {A} ms k.
Arguments ConsoleError {A} label error k.
Arguments RandomUUID {A} k.

Fixpoint bindP {A B} (p : Proc A) (f : A -> Proc B) : Proc B :=
  match p with
  | Return a => f a
  | Raise error => Raise error
  | EmbedContent t k => EmbedContent t (fun reply => bindP (k reply) f)
  | SetTimeout ms k => SetTimeout ms (bindP k f)
  | ConsoleError label error k => ConsoleError label error (bindP k f)
  | RandomUUID k => RandomUUID (fun u => bindP (k u) f)
  end.

(** [try { body } catch (error) { handler }] *)
Fixpoint tryCatchP {A} (body : Proc A) (handler : JS.Error -> Proc A)
  : Proc A :=
  match body with
  | Return a => Return a
  | Raise error => handler error
  | EmbedContent t k => EmbedContent t (fun reply => tryCatchP (k reply) handler)
  | SetTimeout ms k => SetTimeout ms (tryCatchP k handler)
  | ConsoleError label error k => ConsoleError label error (tryCatchP k handler)
  | RandomUUID k => RandomUUID (fun u => tryCatchP (k u) handler)
  end.

Declare Scope proc_scope.
Delimit Scope proc_scope with proc.
Notation "x <- m ;; k" := (bindP m (fun x => k))
  (at level 61, m at next level, right associativity) : proc_scope.
Notation "m ;; k" := (bindP m (fun _ => k))
  (at level 61, right associativity) : proc_scope.

(** [await this.ai.models.embedContent(...)]: a rejection is thrown. *)
Definition awaitEmbedContent (t : string) : Proc EmbedContentResponse :=
  EmbedContent t (fun reply =>
    match reply with
    | Resolved response => Return response
    | Rejected error => Raise error
    end).

(** [await new Promise(resolve => setTimeout(resolve, ms))] *)
Definition awaitTimeout (ms : Z) : Proc unit := SetTimeout ms (Return tt).

(** [console.error(label, error)] *)
Definition logError (label : string) (error : JS.Error) : Proc unit :=
  ConsoleError label error (Return tt).

(** [crypto.randomUUID()] *)
Definition newUUID : Proc string := RandomUUID (fun u => Return u).

(** A call that is awaited on its own: nothing else happens while it
    waits, so every reply comes and every timer ends as soon as it is
    waited for. *)
Fixpoint runP {E} `{Runtime E} {A} (p : Proc A) : M E A :=
  match p with
  | Return a => ret a
  | Raise error => throw error
  | EmbedContent t k => (reply <- requestEmbedContent t ;; runP (k reply))%js
  | SetTimeout ms k => (sleep ms ;; runP k)%js
  | ConsoleError label error k => (consoleError label error ;; runP k)%js
  | RandomUUID k => (u <- cryptoRandomUUID ;; runP (k u))%js
  end.

(** A promise of an async function: settled, or pending, the function
    waiting for a reply ([timer] is [None]; the reply is in [next]
    already) or for a timer, and going on as [next] then. *)
Inductive Task (A : Type) : Type :=
| Settled (c : JS.Completion A)
| Pending (timer : option Z) (next : Proc A).
Arguments Settled {A} c.
Arguments Pending {A} timer next.

(** The function runs up to the point where it waits: a request is sent,
    a timer is set. *)
Fixpoint startP {E} `{Runtime E} {A} (p : Proc A) (w : World E)
  : Task A * World E :=
  match p with
  | Return a => (Settled (JS.Normal a), w)
  | Raise error => (Settled (JS.Throw error), w)
  | EmbedContent t k =>
      let '(reply, e') := embedContent t (env w) in
      (Pending None (k reply),
       mkWorld e' (chunks w) (trace w ++ [EvEmbedContent t]))
  | SetTimeout ms k =>
      (Pending (Some ms) k,
       mkWorld (env w) (chunks w) (trace w ++ [EvTimeout ms]))
  | ConsoleError label error k => startP k (snd (consoleError label error w))
  | RandomUUID k =>
      let '(u, e') := randomUUID (env w) in
      startP (k u) (mkWorld e' (chunks w) (trace w))
  end.

(** What a pending promise waited for has come. *)
Definition wake {E} `{Runtime E} (timer : option Z) (w : World E) : World E :=
  match timer with
  | Some ms => mkWorld (elapse ms (env w)) (chunks w) (trace w)
  | None => w
  end.

Fixpoint pendingCount {A} (tasks : list (Task A)) : nat :=
  match tasks with
  | [] => 0
  | Pending _ _ :: rest => S (pendingCount rest)
  | Settled _ :: rest => pendingCount rest
  end.

(** The function of the pending promise number [j] goes on. *)
Fixpoint resumeNth {E} `{Runtime E} {A} (j : nat) (tasks : list (Task A))
    (w : World E) : list (Task A) * World E :=
  match tasks with
  | [] => ([], w)
  | Settled c :: rest =>
      let '(rest', w') := resumeNth j rest w in (Settled c :: rest', w')
  | Pending timer next :: rest =>
      match j with
      | O => let '(task, w') := startP next (wake timer w) in (task :: rest, w')
      | S j' =>
          let '(rest', w') := resumeNth j' rest w in
          (Pending timer next :: rest', w')
      end
  end.

(** The first promise that is rejected, and the values when all are
    fulfilled. *)
Fixpoint rejection {A} (tasks : list (Task A)) : option JS.Error :=
  match tasks with
  | [] => None
  | Settled (JS.Throw error) :: _ => Some error
  | _ :: rest => rejection rest
  end.

Fixpoint fulfilled {A} (tasks : list (Task A)) : option (list A) :=
  match tasks with
  | [] => Some []
  | Settled (JS.Normal a) :: rest =>
      match fulfilled rest with
      | Some values => Some (a :: values)
      | None => None
      end
  | _ :: _ => None
  end.

(** The event loop while [Promise.all] is awaited: as long as no promise
    is rejected and one is pending, what a pending one waits for comes,
    and its function goes on.  [fuel] bounds the number of rounds. *)
Fixpoint settleLoop {E} `{Runtime E} {A} (fuel : nat) (tasks : list (Task A))
    (w : World E) : list (Task A) * World E :=
  match fuel with
  | O => (tasks, w)
  | S fuel' =>
      match rejection tasks, pendingCount tasks with
      | Some _, _ => (tasks, w)
      | None, O => (tasks, w)
      | None, S others =>
          let '(j, e') := settles (S others) (env w) in
          let '(tasks', w') :=
            resumeNth (j mod S others) tasks (mkWorld e' (chunks w) (trace w)) in
          settleLoop fuel' tasks' w'
      end
  end.

(** [items.map(async ...)]: the calls are started one after the other,
    each up to the point where it waits. *)
Fixpoint startAll {E} `{Runtime E} {A} (calls : list (Proc A))
  : M E (list (Task A)) :=
  match calls with
  | [] => ret []
  | p :: rest =>
      fun w =>
        let '(task, w1) := startP p w in
        match startAll rest w1 with
        | (JS.Normal tasks, w2) => (JS.Normal (task :: tasks), w2)
        | (JS.Throw error, w2) => (JS.Throw error, w2)
        end
  end.

(** The model's answer when [awaits] was too small a bound (see
    [promiseAll]); no error of the program. *)
Definition unsettled : JS.Error := JS.mkError None.

(** [await Promise.all(promises)]: the values in the order of the
    promises when all are fulfilled, the error of the first one that is
    rejected otherwise.  [awaits] bounds the number of times that the
    function of a promise waits; it is [embedChunkAwaits] for the promises
    of [addChunks], which all settle (lemma [promiseAll_settles]). *)
Definition promiseAll {E} `{Runtime E} {A} (awaits : nat)
    (promises : list (Task A)) : M E (list A) :=
  fun w =>
    let '(tasks, w') := settleLoop (awaits * List.length promises) promises w in
    match rejection tasks, fulfilled tasks with
    | Some error, _ => (JS.Throw error, w')
    | None, Some values => (JS.Normal values, w')
    | None, None => (JS.Throw unsettled, w')
    end.

(** ** services/gemini: [GeminiService] *)

Module GeminiService.

Definition noValuesMessage := "No embedding values returned from API".

(** [error.message?.includes('429') || error.message?.includes('rate limit')] *)
Definition rateLimited (error : JS.Error) : bool :=
  match JS.message error with
  | Some m => JS.includes m "429" || JS.includes m "rate limit"
  | None => false
  end.

(** The body of the [try] block of [getEmbedding]; what it returns is
    [undefined] when the first embedding has no [values]. *)
Definition tryEmbedP (t : string) : Proc (option (list float)) :=
  (response <- awaitEmbedContent t ;;
   match embeddings response with
   | None | Some [] => Raise (JS.mkError (Some noValuesMessage))
   | Some (first :: _) => Return (values first)
   end)%proc.

(** [getEmbedding(text, retries = 2)]; the recursion is on [retries],
    and [retries > 0] is the case [S r]. *)
Fixpoint getEmbeddingP (t : string) (retries : nat)
  : Proc (option (list float)) :=
  tryCatchP (tryEmbedP t)
    (fun error =>
       match retries with
       | S r =>
           if rateLimited error
           then (awaitTimeout 1000 ;; getEmbeddingP t r)%proc
           else (logError "Error generating embedding:" error ;;
                 Raise error)%proc
       | O =>
           (logError "Error generating embedding:" error ;;
            Raise error)%proc
       end).

Definition defaultRetries : nat := 2.

(** The [try] block and the function in a call that is awaited on its
    own, as [search] does. *)
Definition tryEmbed {E} `{Runtime E} (t : string)
  : M E (option (list float)) :=
  runP (tryEmbedP t).

Definition getEmbedding {E} `{Runtime E} (t : string) (retries : nat)
  : M E (option (list float)) :=
  runP (getEmbeddingP t retries).

End GeminiService.

(** ** services/vectorStore.ts: [VectorStore] *)

Module VectorStore.

Definition BATCH_SIZE : nat := 5.

Definition failedMessage :=
  "Failed to generate embeddings. Please check your network and try again.".

(** The async arrow function mapped over a batch: a stored chunk, with
    whatever [getEmbedding] returned as its embedding, or [null] when the
    embedding call throws. *)
Definition embedChunk (chunk : NewChunk) : Proc (option DocumentChunk) :=
  tryCatchP
    (embedding <- GeminiService.getEmbeddingP (newText chunk)
                    GeminiService.defaultRetries ;;
     uuid <- newUUID ;;
     Return (Some (mkDocumentChunk uuid (newDocumentId chunk)
                     (newDocumentName chunk) (newText chunk) embedding)))%proc
    (fun err =>
       (logError (String.append "Failed to embed chunk of " (newDocumentName chunk)) err ;;
        Return None)%proc).

(** The arrow function waits five times at most: for three replies and
    for the two timers between them. *)
Definition embedChunkAwaits : nat := 5.

(** [results.filter((r): r is DocumentChunk => r !== null)] *)
Fixpoint validResults (results : list (option DocumentChunk))
  : list DocumentChunk :=
  match results with
  | [] => []
  | Some r :: rest => r :: validResults rest
  | None :: rest => validResults rest
  end.

(** [chunks.slice(i, i + BATCH_SIZE)] *)
Definition batchAt (input : list NewChunk) (i : nat) : list NewChunk :=
  JS.slice input (Z.of_nat i) (Z.of_nat (i + BATCH_SIZE)).

(** One iteration of the [for] loop of [addChunks]. *)
Definition addChunksBody {E} `{Runtime E} (input : list NewChunk)
    (onProgress : bool) (i : nat) (newChunksWithIds : list DocumentChunk)
  : M E (list DocumentChunk) :=
  (batchPromises <- startAll (map embedChunk (batchAt input i)) ;;
   results <- promiseAll embedChunkAwaits batchPromises ;;
   let newChunksWithIds' := newChunksWithIds ++ validResults results in
   (if onProgress
    then emit (EvProgress (Nat.min (i + BATCH_SIZE) (List.length input)) (List.length input))
    else ret tt) ;;
   sleep 150 ;;
   ret newChunksWithIds')%js.

(** [addChunks(chunks, onProgress?)]; [onProgress] tells whether the
    caller passed the callback, whose calls are [EvProgress] events. *)
Definition addChunks {E} `{Runtime E} (input : list NewChunk)
    (onProgress : bool) : M E unit :=
  (newChunksWithIds <-
     forEachM (addChunksBody input onProgress)
       (forIndices (List.length input) BATCH_SIZE) [] ;;
   if (List.length newChunksWithIds =? 0) && (0 <? List.length input)
   then throw (JS.mkError (Some failedMessage))
   else
     old <- getChunks ;;
     setChunks (old ++ newChunksWithIds))%js.

(** The [results] arrays of all iterations of a run of [addChunks], one
    entry per input chunk: the outcome of that chunk's embedding call. *)
Definition embedOutcomesBody {E} `{Runtime E} (input : list NewChunk)
    (onProgress : bool) (i : nat) (acc : list (option DocumentChunk))
  : M E (list (option DocumentChunk)) :=
  (batchPromises <- startAll (map embedChunk (batchAt input i)) ;;
   results <- promiseAll embedChunkAwaits batchPromises ;;
   (if onProgress
    then emit (EvProgress (Nat.min (i + BATCH_SIZE) (List.length input)) (List.length input))
    else ret tt) ;;
   sleep 150 ;;
   ret (acc ++ results))%js.

Definition embedOutcomes {E} `{Runtime E} (input : list NewChunk)
    (onProgress : bool) (w : World E) : list (option DocumentChunk) :=
  match forEachM (embedOutcomesBody input onProgress)
          (forIndices (List.length input) BATCH_SIZE) [] w with
  | (JS.Normal rs, _) => rs
  | (JS.Throw _, _) => []
  end.

(** [removeDocument(documentId)] *)
Definition removeDocument {E} (docId : string) : M E unit :=
  (old <- getChunks ;;
   setChunks (filter (fun c => negb (String.eqb (documentId c) docId)) old))%js.

(** [cosineSimilarity(vecA, vecB)]: the loop runs [i] over
    [0 .. vecA.length - 1]; [Math.sqrt] is the correctly rounded square
    root of IEEE 754. *)
Fixpoint cosineLoop (vecA vecB : list float) (i n : nat)
    (acc : float * float * float) : float * float * float :=
  match n with
  | O => acc
  | S n' =>
      let '(dotProduct, normA, normB) := acc in
      cosineLoop vecA vecB (S i) n'
        ((dotProduct + JS.numAt vecA i * JS.numAt vecB i)%float,
         (normA + JS.numAt vecA i * JS.numAt vecA i)%float,
         (normB + JS.numAt vecB i * JS.numAt vecB i)%float)
  end.

Definition cosineSimilarity (vecA vecB : list float) : float :=
  let '(dotProduct, normA, normB) :=
    cosineLoop vecA vecB 0 (List.length vecA) (0, 0, 0)%float in
  let similarity := (dotProduct / (sqrt normA * sqrt normB))%float in
  if JS.isNaN similarity then 0%float else similarity.

(** The TypeError of [vecA.length] when [vecA] is [undefined]; the
    message is the engine's. *)
Definition undefinedLength : JS.Error :=
  JS.mkError (Some "Cannot read properties of undefined (reading 'length')").

(** [this.cosineSimilarity(queryEmbedding, chunk.embedding)], with what
    [getEmbedding] returned as [queryEmbedding]: the test of the loop reads
    [vecA.length]. *)
Definition similarity (queryEmbedding : option (list float))
    (vecB : list float) : JS.Completion float :=
  match queryEmbedding with
  | Some vecA => JS.Normal (cosineSimilarity vecA vecB)
  | None => JS.Throw undefinedLength
  end.

(** The [{ chunk, score }] object built for a stored chunk. *)
Definition scored (queryEmbedding : option (list float))
    (chunk : DocumentChunk) : JS.Completion (DocumentChunk * float) :=
  match embedding chunk with
  | None => JS.Normal (chunk, 0%float)
  | Some e =>
      match similarity queryEmbedding e with
      | JS.Normal score => JS.Normal (chunk, score)
      | JS.Throw error => JS.Throw error
      end
  end.

(** [(a, b) => b.score - a.score] *)
Definition byScoreDesc (a b : DocumentChunk * float) : float :=
  (snd b - snd a)%float.

(** [search(query, k = 3)] *)
Definition search {E} `{Runtime E} (query : string) (k : Z)
  : M E (list DocumentChunk) :=
  (stored <- getChunks ;;
   if List.length stored =? 0 then ret []
   else
     queryEmbedding <- GeminiService.getEmbedding query
                         GeminiService.defaultRetries ;;
     stored' <- getChunks ;;
     scores <- complete (JS.mapArray (scored queryEmbedding) stored') ;;
     ret (map fst (JS.slice (JS.sort byScoreDesc scores) 0 k)))%js.

(** [getChunkCount()] *)
Definition getChunkCount {E} (w : World E) : nat := List.length (chunks w).

(** [clear()] *)
Definition clear {E} : M E unit := setChunks [].

End VectorStore.

(** ** services/documentProcessor: [chunkText] *)

Module DocumentProcessor.

(** The [for] loop of [chunkText] as long as [chunks.push] succeeds.  The
    step [chunkSize - overlap] is whatever the caller passes, so the loop
    is run on fuel: [None] means that [fuel] iterations did not end it.
    With [chunkSize > overlap] the loop ends within [text.length]
    iterations; [chunkLoopWithin] below tells how it ends when it does not
    advance. *)
Fixpoint chunkLoop (fuel : nat) (t : string) (chunkSize overlap i : Z)
    (acc : list string) : option (list string) :=
  match fuel with
  | O => None
  | S fuel' =>
      if (i <? Z.of_nat (String.length t))%Z then
        let acc' := acc ++ [JS.sliceString t i (i + chunkSize)] in
        if (i + chunkSize >=? Z.of_nat (String.length t))%Z then Some acc'
        else chunkLoop fuel' t chunkSize overlap (i + (chunkSize - overlap)) acc'
      else Some acc
  end.

(** [chunkText(text, chunkSize, overlap)] *)
Definition chunkText (fuel : nat) (t : string) (chunkSize overlap : Z)
  : option (list string) :=
  if (String.length t =? 0) then Some []
  else chunkLoop fuel t chunkSize overlap 0 [].

(** The RangeError of [chunks.push] on an array that is full; the message
    is the engine's. *)
Definition invalidArrayLength : JS.Error :=
  JS.mkError (Some "Invalid array length").

(** The loop and the function on an engine whose arrays hold [maxLength]
    elements at most: [chunks.push] throws on a full array.  They agree
    with [chunkLoop] and [chunkText] as long as the chunks fit (lemma
    [chunkTextWithin_fits]); the bound matters when the loop does not
    advance. *)
Fixpoint chunkLoopWithin (maxLength fuel : nat) (t : string)
    (chunkSize overlap i : Z) (acc : list string)
  : option (JS.Completion (list string)) :=
  match fuel with
  | O => None
  | S fuel' =>
      if (i <? Z.of_nat (String.length t))%Z then
        if maxLength <=? List.length acc then Some (JS.Throw invalidArrayLength)
        else
          let acc' := acc ++ [JS.sliceString t i (i + chunkSize)] in
          if (i + chunkSize >=? Z.of_nat (String.length t))%Z
          then Some (JS.Normal acc')
          else chunkLoopWithin maxLength fuel' t chunkSize overlap
                 (i + (chunkSize - overlap)) acc'
      else Some (JS.Normal acc)
  end.

Definition chunkTextWithin (maxLength fuel : nat) (t : string)
    (chunkSize overlap : Z) : option (JS.Completion (list string)) :=
  if (String.length t =? 0) then Some (JS.Normal [])
  else chunkLoopWithin maxLength fuel t chunkSize overlap 0 [].

End DocumentProcessor.

(** ** components/ChatInterface: the source list of [handleSend] *)

Module ChatInterface.

(** [Array.from(new Set(relevantChunks.map(c => c.documentName)))] *)
Definition sources (relevantChunks : list DocumentChunk) : list string :=
  JS.StringSet.toArray (JS.StringSet.ofArray (map documentName relevantChunks)).

End ChatInterface.

(** ** A scripted runtime, for concrete runs *)

(** The provider answers its calls from a list of replies, and rejects with
    a network error once the list is used up; UUIDs are numbered; of the
    pending operations, that of the first promise completes first. *)
Module Scripted.

Record State := mkState { replies : list Reply; issued : nat }.

Definition networkError := JS.mkError (Some "fetch failed").

Definition uuidOf (n : nat) : string :=
  String.append "uuid-" (String (ascii_of_nat (48 + n mod 10)) EmptyString).

#[global] Instance runtime : Runtime State := {
  embedContent _ s :=
    match replies s with
    | [] => (Rejected networkError, s)
    | r :: rest => (r, mkState rest (issued s))
    end;
  randomUUID s := (uuidOf (issued s), mkState (replies s) (S (issued s)));
  elapse _ s := s;
  settles _ s := (0, s)
}.

Definition world (rs : list Reply) (stored : list DocumentChunk)
  : World State := mkWorld (mkState rs 0) stored [].

Definition ok (v : list float) : Reply :=
  Resolved (mkResponse (Some [mkContentEmbedding (Some v)])).
Definition rateLimit : Reply :=
  Rejected (JS.mkError (Some "429 Too Many Requests")).
Definition failure : Reply := Rejected networkError.

(** Five chunks of a document [a.txt]. *)
Definition chunkOf (t : string) : NewChunk := mkNewChunk "doc-a" "a.txt" t None.
Definition fiveChunks : list NewChunk :=
  map chunkOf ["one"; "two"; "three"; "four"; "five"].

(** A chunk already in the store. *)
Definition storedChunk : DocumentChunk :=
  mkDocumentChunk "uuid-s" "doc-s" "s.txt" "stored" (Some [1; 0]%float).

End Scripted.

(** The scripted runtime with an event loop that completes the pending
    operations in a given order: the numbers in [picks] one after the
    other, then the first pending one. *)
Module Shuffled.

Record State := mkState { provider : Scripted.State; picks : list nat }.

#[global] Instance runtime : Runtime State := {
  embedContent t s :=
    let '(reply, p) := embedContent t (provider s) in
    (reply, mkState p (picks s));
  randomUUID s :=
    let '(u, p) := randomUUID (provider s) in (u, mkState p (picks s));
  elapse ms s := mkState (elapse ms (provider s)) (picks s);
  settles _ s :=
    match picks s with
    | [] => (0, s)
    | j :: rest => (j, mkState (provider s) rest)
    end
}.

Definition world (rs : list Reply) (order : list nat)
    (stored : list DocumentChunk) : World State :=
  mkWorld (mkState (Scripted.mkState rs 0) order) stored [].

End Shuffled.

(** ** Vocabulary of the statements *)

(** The world after [console.error("Error generating embedding:", e)]. *)
Definition logged {E} (e : JS.Error) (w : World E) : World E :=
  snd (consoleError "Error generating embedding:" e w).

(** The world after the one second pause of [getEmbedding]. *)
Definition paused {E} `{Runtime E} (w : World E) : World E :=
  snd (sleep 1000 w).

(** The events of a first attempt followed by [k] retries. *)
Definition attemptsTrace (t : string) (k : nat) : list Event :=
  EvEmbedContent t :: List.concat (repeat [EvTimeout 1000; EvEmbedContent t] k).

(** A stored chunk carries the fields of the input chunk it was made of. *)
Definition sameChunk (c : NewChunk) (d : DocumentChunk) : Prop :=
  documentId d = newDocumentId c /\
  documentName d = newDocumentName c /\
  text d = newText c.

(** What the value of the arrow function can be for a chunk: [null], or
    the chunk with an identifier. *)
Definition outcomeOf (c : NewChunk) (o : option DocumentChunk) : Prop :=
  match o with
  | None => True
  | Some d => sameChunk c d
  end.

Definition isSome {A} (o : option A) : bool :=
  match o with Some _ => true | None => false end.

(** The call returned, it did not throw. *)
Definition returned {A} (c : JS.Completion A) : bool :=
  match c with JS.Normal _ => true | JS.Throw _ => false end.

(** The arrow function of [addChunks] once more, giving with its value
    how [await geminiService.getEmbedding(chunk.text)] ended in it: what
    it returned, or what it threw. *)
Definition embedCall (chunk : NewChunk)
  : Proc (JS.Completion (option (list float)) * option DocumentChunk) :=
  tryCatchP
    (embedding <- GeminiService.getEmbeddingP (newText chunk)
                    GeminiService.defaultRetries ;;
     uuid <- newUUID ;;
     Return (JS.Normal embedding,
             Some (mkDocumentChunk uuid (newDocumentId chunk)
                     (newDocumentName chunk) (newText chunk) embedding)))%proc
    (fun err =>
       (logError (String.append "Failed to embed chunk of " (newDocumentName chunk)) err ;;
        Return (JS.Throw err, None))%proc).

(** How the embedding calls of a run of [addChunks] ended, one entry per
    input chunk, in input order: the loop of [addChunks] with [embedCall]
    for the arrow function. *)
Definition embedCallsBody {E} `{Runtime E} (input : list NewChunk)
    (onProgress : bool) (i : nat)
    (acc : list (JS.Completion (option (list float))))
  : M E (list (JS.Completion (option (list float)))) :=
  (batchPromises <- startAll (map embedCall (VectorStore.batchAt input i)) ;;
   results <- promiseAll VectorStore.embedChunkAwaits batchPromises ;;
   (if onProgress
    then emit (EvProgress (Nat.min (i + VectorStore.BATCH_SIZE) (List.length input))
                 (List.length input))
    else ret tt) ;;
   sleep 150 ;;
   ret (acc ++ map fst results))%js.

Definition embedCalls {E} `{Runtime E} (input : list NewChunk)
    (onProgress : bool) (w : World E)
  : list (JS.Completion (option (list float))) :=
  match forEachM (embedCallsBody input onProgress)
          (forIndices (List.length input) VectorStore.BATCH_SIZE) [] w with
  | (JS.Normal cs, _) => cs
  | (JS.Throw _, _) => []
  end.

(** The input chunks whose embedding call returned, each with what the
    call returned, in input order. *)
Definition survivors (input : list NewChunk)
    (calls : list (JS.Completion (option (list float))))
  : list (NewChunk * option (list float)) :=
  flat_map (fun cc => match snd cc with
                      | JS.Normal v => [(fst cc, v)]
                      | JS.Throw _ => []
                      end) (combine input calls).

(** The chunk stored for a survivor: its fields, and for embedding what
    the call returned. *)
Definition storedFor (s : NewChunk * option (list float))
    (d : DocumentChunk) : Prop :=
  sameChunk (fst s) d /\ embedding d = snd s.

(** [needle] occurs in [s]. *)
Definition occursIn (needle s : string) : Prop :=
  exists before after,
    s = String.append before (String.append needle after).

(** The error is a rate limit as the claim has it: its message contains
    [429] or [rate limit]. *)
Definition rateLimitSignal (error : JS.Error) : Prop :=
  exists m, JS.message error = Some m /\
            (occursIn "429" m \/ occursIn "rate limit" m).

(** The position of the first occurrence of [x] in [l] (the length of [l]
    when there is none). *)
Fixpoint firstIndex (x : string) (l : list string) : nat :=
  match l with
  | [] => 0
  | y :: r => if String.eqb x y then 0 else S (firstIndex x r)
  end.

(** Duplicates removed, first occurrences kept: the head, then the rest
    without the head. *)
Fixpoint keepFirst (l : list string) : list string :=
  match l with
  | [] => []
  | x :: r => x :: filter (fun y => negb (String.eqb y x)) (keepFirst r)
  end.

(** The sums that [cosineSimilarity] accumulates, and its quotient before
    the [isNaN] test. *)
Definition dotProduct (a b : list float) : float :=
  fold_left (fun acc xy => (acc + fst xy * snd xy)%float) (combine a b) 0%float.

Definition squaredNorm (v : list float) : float :=
  fold_left (fun acc x => (acc + x * x)%float) v 0%float.

Definition quotient (a b : list float) : float :=
  (dotProduct a b / (sqrt (squaredNorm a) * sqrt (squaredNorm b)))%float.

(** Every component is [0] or [-0]. *)
Definition isZeroVector (v : list float) : bool := forallb is_zero v.

Definition finiteNonZero (x : float) : bool := is_finite x && negb (is_zero x).

(** [zeroOrNaN x]: the number is [0], [-0] or NaN. *)
Definition zeroOrNaN (x : spec_float) : Prop :=
  match x with
  | S754_zero _ | S754_nan => True
  | _ => False
  end.

(** A finite number or an infinity of sign [s]. *)
Definition signed (s : bool) (x : spec_float) : Prop :=
  match x with
  | S754_finite s' _ _ | S754_infinity s' => s' = s
  | _ => False
  end.

(** Aligned to the exponent [ez], the value of a bounded number. *)
Definition aligned (s : bool) (m : positive) (e ez : Z) : Z :=
  cond_Zopp s (Z.pos (fst (shl_align m e ez))).

(** Any number but NaN. *)
Definition notNaN (x : spec_float) : Prop :=
  match x with S754_nan => False | _ => True end.

(** Numbers other than NaN are ordered as their keys are, the keys being
    triples of integers in lexicographic order. *)
Definition fkey (x : spec_float) : Z * Z * Z :=
  match x with
  | S754_zero _ => (0, 0, 0)
  | S754_nan => (0, 0, 0)
  | S754_infinity false => (2, 0, 0)
  | S754_infinity true => (-2, 0, 0)
  | S754_finite false m e => (1, e, Z.pos m)
  | S754_finite true m e => (-1, - e, Z.neg m)
  end%Z.

(** The lexicographic order of the keys. *)
Definition lexLt (k1 k2 : Z * Z * Z) : Prop :=
  let '(a1, b1, c1) := k1 in
  let '(a2, b2, c2) := k2 in
  (a1 < a2 \/ (a1 = a2 /\ (b1 < b2 \/ (b1 = b2 /\ c1 < c2))))%Z.

(** The key of a JavaScript number. *)
Definition key (x : float) : Z * Z * Z := fkey (Prim2SF x).

(** The score that [search] gives a stored chunk, and the stored chunks
    as [search] ranks them. *)
Definition scoreOf (queryEmbedding : list float) (c : DocumentChunk) : float :=
  match embedding c with
  | Some e => VectorStore.cosineSimilarity queryEmbedding e
  | None => 0%float
  end.

Definition withScore (queryEmbedding : list float) (c : DocumentChunk)
  : DocumentChunk * float :=
  (c, scoreOf queryEmbedding c).

Definition ranked (queryEmbedding : list float) (cs : list DocumentChunk)
  : list DocumentChunk :=
  JS.sort (fun a b => (scoreOf queryEmbedding b - scoreOf queryEmbedding a)%float) cs.

(** Three stored chunks with the embeddings [[1, 0]], [[0, 1]], [[1, 1]]. *)
Definition threeStored : list DocumentChunk :=
  [mkDocumentChunk "id-1" "A" "a.txt" "east" (Some [1; 0]%float);
   mkDocumentChunk "id-2" "A" "a.txt" "north" (Some [0; 1]%float);
   mkDocumentChunk "id-3" "A" "a.txt" "north-east" (Some [1; 1]%float)].

(** A stored chunk that has its embedding. *)
Definition hasEmbedding (c : DocumentChunk) : bool := isSome (embedding c).

(** *** Processes: their paths, their waits, their promises *)

(** [follows p evs c]: the process [p] has a path on which it leaves the
    events [evs], in this order, and ends as [c]. *)
Fixpoint follows {A} (p : Proc A) (evs : list Event) (c : JS.Completion A)
  : Prop :=
  match p with
  | Return a => evs = [] /\ c = JS.Normal a
  | Raise error => evs = [] /\ c = JS.Throw error
  | EmbedContent t k =>
      exists reply rest, evs = EvEmbedContent t :: rest /\ follows (k reply) rest c
  | SetTimeout ms k => exists rest, evs = EvTimeout ms :: rest /\ follows k rest c
  | ConsoleError label error k =>
      exists rest, evs = EvConsoleError label error :: rest /\ follows k rest c
  | RandomUUID k => exists u, follows (k u) evs c
  end.

(** The process waits [n] times at most. *)
Fixpoint awaitsWithin {A} (n : nat) (p : Proc A) : Prop :=
  match p with
  | Return _ | Raise _ => True
  | EmbedContent _ k =>
      match n with
      | O => False
      | S m => forall reply, awaitsWithin m (k reply)
      end
  | SetTimeout _ k =>
      match n with
      | O => False
      | S m => awaitsWithin m k
      end
  | ConsoleError _ _ k => awaitsWithin n k
  | RandomUUID k => forall u, awaitsWithin n (k u)
  end.

(** A promise of the process [p] that has left the events [pre] so far. *)
Definition tracks {A} (p : Proc A) (task : Task A) (pre : list Event) : Prop :=
  match task with
  | Settled c => follows p pre c
  | Pending _ next =>
      forall evs c, follows next evs c -> follows p (pre ++ evs) c
  end.

Inductive Tracked {A} : list (Proc A) -> list (Task A) -> list (list Event) -> Prop :=
| Tracked_nil : Tracked [] [] []
| Tracked_cons p task pre ps tasks pres :
    tracks p task pre -> Tracked ps tasks pres ->
    Tracked (p :: ps) (task :: tasks) (pre :: pres).

(** The promises wait [n] more times at most, all together. *)
Fixpoint fits {A} (n : nat) (tasks : list (Task A)) : Prop :=
  match tasks with
  | [] => True
  | Settled _ :: rest => fits n rest
  | Pending _ next :: rest =>
      exists a b, S a + b <= n /\ awaitsWithin a next /\ fits b rest
  end.

(** Two processes that do the same and end alike, the value of the second
    being [g] of the value of the first; and two promises of such. *)
Inductive simP {A B} (g : A -> B) : Proc A -> Proc B -> Prop :=
| simP_return a : simP g (Return a) (Return (g a))
| simP_raise error : simP g (Raise error) (Raise error)
| simP_embed t k k' :
    (forall reply, simP g (k reply) (k' reply)) ->
    simP g (EmbedContent t k) (EmbedContent t k')
| simP_timeout ms k k' :
    simP g k k' -> simP g (SetTimeout ms k) (SetTimeout ms k')
| simP_console label error k k' :
    simP g k k' ->
    simP g (ConsoleError label error k) (ConsoleError label error k')
| simP_uuid k k' :
    (forall u, simP g (k u) (k' u)) -> simP g (RandomUUID k) (RandomUUID k').

Definition simTask {A B} (g : A -> B) (a : Task A) (b : Task B) : Prop :=
  match a, b with
  | Settled (JS.Normal x), Settled (JS.Normal y) => y = g x
  | Settled (JS.Throw e), Settled (JS.Throw e') => e' = e
  | Pending timer next, Pending timer' next' =>
      timer' = timer /\ simP g next next'
  | _, _ => False
  end.

(** ** Vocabulary of the further properties *)

(** The texts the provider was asked to embed, the progress reports and
    the number of pauses of [ms] milliseconds in a list of events. *)
Fixpoint embedTexts (tr : list Event) : list string :=
  match tr with
  | [] => []
  | EvEmbedContent t :: r => t :: embedTexts r
  | _ :: r => embedTexts r
  end.

Fixpoint progressReports (tr : list Event) : list (nat * nat) :=
  match tr with
  | [] => []
  | EvProgress c t :: r => (c, t) :: progressReports r
  | _ :: r => progressReports r
  end.

Fixpoint pauseCount (ms : Z) (tr : list Event) : nat :=
  match tr with
  | [] => 0
  | EvTimeout d :: r => (if (d =? ms)%Z then 1 else 0) + pauseCount ms r
  | _ :: r => pauseCount ms r
  end.

(** The provider calls of a run in which chunk [c] takes [k] retries, for
    the chunks and numbers of retries paired in [cks]. *)
Definition callsOf (cks : list (NewChunk * nat)) : list string :=
  List.concat (map (fun ck => repeat (newText (fst ck)) (S (snd ck))) cks).

(** [s.slice(n)]: the string without its first [n] characters. *)
Definition dropChars (n : nat) (s : string) : string :=
  substring n (String.length s - n) s.

(** The text put together again from its chunks: the first chunk, then
    each other chunk without the [ov] characters it shares with the one
    before. *)
Definition rebuild (ov : nat) (cs : list string) : string :=
  match cs with
  | [] => ""
  | c :: r => String.append c (String.concat "" (map (dropChars ov) r))
  end.

(** ** services/documentProcessor: [processFile] *)

(** Awaiting a promise that is settled already. *)
Definition await {E A} (c : JS.Completion A) : M E A := fun w => (c, w).

(** A [File] of the browser: [file.name], [file.type], [file.size], and
    what reading it gives, which is the text, or the rejection of the
    read.  [readFileContent] and [readPdfContent] are the browser's
    [FileReader] and the PDF library; [fileText] is the settled promise
    of the one [processFile] picks by the type of the file. *)
Record File := mkFile {
  fileName : string;
  fileType : string;
  fileSize : N;
  fileText : JS.Completion string
}.

(** [DocumentSource], without [uploadDate], a reading of the clock that
    no code modelled here looks at. *)
Record DocumentSource := mkDocumentSource {
  sourceId : string;
  sourceName : string;
  sourceType : string;
  sourceSize : N;
  sourceContent : string
}.

(** [chunkText(content, 1000, 100)]: with these arguments the loop ends
    within [content.length] iterations (lemma [chunkTexts_run]), so the
    second branch is not taken. *)
Definition chunkTexts (content : string) : list string :=
  match DocumentProcessor.chunkText (String.length content) content 1000 100 with
  | Some texts => texts
  | None => []
  end.

(** [processFile(file, onProgress?)] *)
Definition processFile {E} `{Runtime E} (file : File) (onProgress : bool)
  : M E DocumentSource :=
  (content <- await (fileText file) ;;
   docId <- cryptoRandomUUID ;;
   let doc :=
     mkDocumentSource docId (fileName file)
       (if String.eqb (fileType file) "" then "text/plain" else fileType file)
       (fileSize file) content in
   let chunks :=
     map (fun t => mkNewChunk docId (fileName file) t None)
         (chunkTexts content) in
   VectorStore.addChunks chunks onProgress ;;
   ret doc)%js.

(** ** App: [handleGlobalUpload] *)

(** The state variables of [App] that the handler writes.  Between two
    awaits [processingProgress] is what the last [EvProgress] event says;
    the record holds the values the handler's own statements set. *)
Record AppState := mkAppState {
  documents : list DocumentSource;
  isProcessing : bool;
  processingProgress : option (nat * nat);
  uploadError : option string;
  lastSuccess : option string
}.

Definition setDocuments (v : list DocumentSource) (st : AppState) : AppState :=
  mkAppState v (isProcessing st) (processingProgress st) (uploadError st)
    (lastSuccess st).
Definition setIsProcessing (v : bool) (st : AppState) : AppState :=
  mkAppState (documents st) v (processingProgress st) (uploadError st)
    (lastSuccess st).
Definition setProcessingProgress (v : option (nat * nat)) (st : AppState)
  : AppState :=
  mkAppState (documents st) (isProcessing st) v (uploadError st) (lastSuccess st).
Definition setUploadError (v : option string) (st : AppState) : AppState :=
  mkAppState (documents st) (isProcessing st) (processingProgress st) v
    (lastSuccess st).
Definition setLastSuccess (v : option string) (st : AppState) : AppState :=
  mkAppState (documents st) (isProcessing st) (processingProgress st)
    (uploadError st) v.

(** [10 * 1024 * 1024] *)
Definition sizeLimit : N := 10 * 1024 * 1024.

(** [`File ${file.name} exceeds 10MB limit.`] *)
Definition tooLargeMessage (name : string) : string :=
  String.append "File " (String.append name " exceeds 10MB limit.").

(** [`Successfully indexed ${newDocs.length} document(s).`] *)
Definition indexedMessage (n : nat) : string :=
  String.append "Successfully indexed "
    (String.append (NilEmpty.string_of_uint (Nat.to_uint n)) " document(s).").

Definition uploadFailedMessage :=
  "Failed to process documents. This might be due to API rate limits.".

(** [err.message || "Failed to process documents. ..."] *)
Definition uploadErrorText (err : JS.Error) : string :=
  match JS.message err with
  | Some m => if String.eqb m "" then uploadFailedMessage else m
  | None => uploadFailedMessage
  end.

(** The [for ... of] loop over the files: [newDocs] so far, the state
    variables, and the completion of the loop. *)
Fixpoint uploadLoop {E} `{Runtime E} (files : list File)
    (newDocs : list DocumentSource) (st : AppState) (w : World E)
  : JS.Completion (list DocumentSource) * AppState * World E :=
  match files with
  | [] => (JS.Normal newDocs, st, w)
  | file :: rest =>
      if (sizeLimit <? fileSize file)%N then
        uploadLoop rest newDocs
          (setUploadError (Some (tooLargeMessage (fileName file))) st) w
      else
        match processFile file true w with
        | (JS.Normal doc, w') =>
            uploadLoop rest (newDocs ++ [doc]) (setProcessingProgress None st) w'
        | (JS.Throw err, w') => (JS.Throw err, st, w')
        end
  end.

(** [handleGlobalUpload(files)], up to the end of its [finally] block;
    the timer that clears [lastSuccess] five seconds later is a later
    event. *)
Definition handleGlobalUpload {E} `{Runtime E} (files : option (list File))
    (st : AppState) (w : World E) : AppState * World E :=
  match files with
  | None | Some [] => (st, w)
  | Some files =>
      let st0 := setLastSuccess None (setUploadError None (setIsProcessing true st)) in
      let '(r, st1, w1) := uploadLoop files [] st0 w in
      let '(st2, w2) :=
        match r with
        | JS.Normal newDocs =>
            let st' := setDocuments (documents st1 ++ newDocs) st1 in
            (if 0 <? List.length newDocs
             then setLastSuccess (Some (indexedMessage (List.length newDocs))) st'
             else st',
             w1)
        | JS.Throw err =>
            (setUploadError (Some (uploadErrorText err)) st1,
             snd (consoleError "Global upload error:" err w1))
        end in
      (setProcessingProgress None (setIsProcessing false st2), w2)
  end.

(** The files the loop does not skip. *)
Definition accepted (files : list File) : list File :=
  filter (fun f => negb (sizeLimit <? fileSize f)%N) files.

(** What a chunk made by [processFile] of [file] looks like. *)
Definition chunkOfFile (file : File) (c : DocumentChunk) : Prop :=
  documentName c = fileName file /\
  exists content q,
    fileText file = JS.Normal content /\
    text c = substring (q * 900) 1000 content.

(** The number of chunks [chunkText(content, 1000, 100)] makes of a text
    of [len] characters. *)
Definition chunkCount (len : nat) : nat :=
  if len =? 0 then 0
  else if len <=? 1000 then 1
  else 1 + (len - 101) / 900.

(** Two short text files, for concrete runs. *)
Definition notesFile : File :=
  mkFile "notes.txt" "text/plain" 11 (JS.Normal "hello world").
Definition memoFile : File :=
  mkFile "memo.txt" "" 5 (JS.Normal "hello").
Definition emptyFile : File :=
  mkFile "empty.txt" "text/plain" 0 (JS.Normal "").
Definition initialState : AppState := mkAppState [] false None None None.

(** ** services/gemini: [generateRagResponse] *)

(** The stream that [generateContentStream] resolves to: the [text] of
    its chunks ([undefined] is [None]) and the error that ends the
    iteration, if one does. *)
Record ResponseStream := mkResponseStream {
  streamTexts : list (option string);
  streamError : option JS.Error
}.

Inductive StreamReply :=
| StreamResolved (s : ResponseStream)
| StreamRejected (e : JS.Error).

(** The model behind [this.ai.models.generateContentStream]: the prompt
    and the configuration are made of the query and the context alone,
    which are what it is given here. *)
Class Generation (E : Type) := {
  generateContentStream : string -> string -> E -> StreamReply * E
}.

(** [if (chunk.text) yield chunk.text], over the chunks of the stream. *)
Definition yielded (texts : list (option string)) : list string :=
  flat_map (fun t => match t with
                     | Some s => if String.eqb s "" then [] else [s]
                     | None => []
                     end) texts.

(** [generateRagResponse(query, context)], run to its end: the values it
    yields, and the error it throws after them, if any. *)
Definition generateRagResponse {E} `{Generation E} (query context : string)
    (w : World E) : list string * option JS.Error * World E :=
  let '(reply, e') := generateContentStream query context (env w) in
  let w1 := mkWorld e' (chunks w) (trace w) in
  match reply with
  | StreamRejected error =>
      ([], Some error, snd (consoleError "Error generating text:" error w1))
  | StreamResolved s =>
      match streamError s with
      | None => (yielded (streamTexts s), None, w1)
      | Some error =>
          (yielded (streamTexts s), Some error,
           snd (consoleError "Error generating text:" error w1))
      end
  end.

(** ** components/ChatInterface: [handleSend] *)

Inductive Role := user | assistant.

(** [ChatMessage], without [timestamp], a reading of the clock. *)
Record ChatMessage := mkChatMessage {
  messageId : string;
  messageRole : Role;
  messageContent : string;
  messageSources : option (list string)
}.

(** The state of the component: the [messages] of its props, [input] and
    [isTyping]. *)
Record ChatState := mkChatState {
  messages : list ChatMessage;
  input : string;
  isTyping : bool
}.

(** The white space that [trim] removes, among the characters below
    256: tab, line feed, vertical tab, form feed, carriage return, space
    and no-break space. *)
Definition isWhiteSpace (c : ascii) : bool :=
  let n := nat_of_ascii c in
  ((9 <=? n) && (n <=? 13)) || (n =? 32) || (n =? 160).

(** [!input.trim()] *)
Definition blank (s : string) : bool :=
  forallb isWhiteSpace (list_ascii_of_string s).

Definition newline : string := String (ascii_of_nat 10) EmptyString.

(** [relevantChunks.map(c => `[Document: ${c.documentName}]\n${c.text}`)
      .join('\n\n---\n\n')] *)
Definition contextOf (relevantChunks : list DocumentChunk) : string :=
  String.concat
    (String.append newline
       (String.append newline (String.append "---" (String.append newline newline))))
    (map (fun c => String.append "[Document: "
                     (String.append (documentName c)
                        (String.append "]" (String.append newline (text c)))))
         relevantChunks).

Definition apologyText :=
  "I encountered an error while retrieving information. Please try again or check your Knowledge Base.".

(** [crypto.randomUUID()], which does not throw. *)
Definition drawUUID {E} `{Runtime E} (w : World E) : string * World E :=
  let '(u, e') := randomUUID (env w) in
  (u, mkWorld e' (chunks w) (trace w)).

(** [msg.id === aiMessageId ? { ...msg, content: aiContent } : msg] *)
Definition showContent (aiMessageId aiContent : string) (msg : ChatMessage)
  : ChatMessage :=
  if String.eqb (messageId msg) aiMessageId
  then mkChatMessage (messageId msg) (messageRole msg) aiContent
         (messageSources msg)
  else msg.

(** The [for await] loop over the values of the generator: [aiContent]
    and the messages. *)
Fixpoint streamLoop (aiMessageId : string) (texts : list string)
    (aiContent : string) (msgs : list ChatMessage)
  : string * list ChatMessage :=
  match texts with
  | [] => (aiContent, msgs)
  | t :: rest =>
      let aiContent' := String.append aiContent t in
      streamLoop aiMessageId rest aiContent'
        (map (showContent aiMessageId aiContent') msgs)
  end.

(** The [try] block of [handleSend]: the messages when it ends, and the
    error it ends with, if any. *)
Definition handleSendTry {E} `{Runtime E} `{Generation E} (content : string)
    (msgs : list ChatMessage) (w : World E)
  : list ChatMessage * option JS.Error * World E :=
  match VectorStore.search content 5 w with
  | (JS.Throw error, w1) => (msgs, Some error, w1)
  | (JS.Normal relevantChunks, w1) =>
      let context := contextOf relevantChunks in
      let sources := ChatInterface.sources relevantChunks in
      let '(aiMessageId, w2) := drawUUID w1 in
      let msgs1 :=
        msgs ++ [mkChatMessage aiMessageId assistant ""
                   (if 0 <? List.length sources then Some sources else None)] in
      let '(texts, error, w3) := generateRagResponse content context w2 in
      (snd (streamLoop aiMessageId texts "" msgs1), error, w3)
  end.

(** [handleSend()], up to the end of its [finally] block. *)
Definition handleSend {E} `{Runtime E} `{Generation E} (st : ChatState)
    (w : World E) : ChatState * World E :=
  if blank (input st) || isTyping st then (st, w)
  else
    let '(userId, w1) := drawUUID w in
    let userMessage := mkChatMessage userId user (input st) None in
    let '(msgs, thrown, w2) :=
      handleSendTry (input st) (messages st ++ [userMessage]) w1 in
    match thrown with
    | None => (mkChatState msgs "" false, w2)
    | Some error =>
        let w3 := snd (consoleError "Chat error:" error w2) in
        let '(id, w4) := drawUUID w3 in
        (mkChatState (msgs ++ [mkChatMessage id assistant apologyText None])
           "" false, w4)
    end.

(** The text of a chunk of the stream, [undefined] read as empty. *)
Definition textOf (t : option string) : string :=
  match t with Some s => s | None => "" end.

(** A message is as before, its content apart. *)
Definition sameButContent (a b : ChatMessage) : Prop :=
  messageId b = messageId a /\ messageRole b = messageRole a /\
  messageSources b = messageSources a.

(** The message [handleSend] appends when it fails. *)
Definition isApology (m : ChatMessage) : Prop :=
  messageRole m = assistant /\ messageContent m = apologyText /\
  messageSources m = None.

(** The sources a message may show after a search in the store [stored]:
    none, or up to five different names of stored documents. *)
Definition sourcesFrom (stored : list DocumentChunk) (m : ChatMessage) : Prop :=
  match messageSources m with
  | None => True
  | Some names =>
      names <> [] /\ NoDup names /\ List.length names <= 5 /\
      incl names (map documentName stored)
  end.

(** A generator for concrete runs: two fragments around an empty one and
    one without text. *)
#[global] Instance scriptedGeneration : Generation Scripted.State := {
  generateContentStream _ _ s :=
    (StreamResolved
       (mkResponseStream [Some "Hello"; None; Some ""; Some " world"] None), s)
}.

(* ================================================================== *)
(** * Part II: properties *)
(* ================================================================== *)

(** ** Processes and promises *)

Section Processes.

Context {E : Type} `{RT : Runtime E}.

Lemma runP_tryCatch {A} (body : Proc A) (handler : JS.Error -> Proc A)
    (w : World E) :
  runP (tryCatchP body handler) w
  = tryCatch (runP body) (fun error => runP (handler error)) w.
Proof.
  revert w. induction body as [a | error | t k IH | ms k IH | label error k IH | k IH];
    intros w; cbn [tryCatchP runP].
  - reflexivity.
  - reflexivity.
  - unfold bind, tryCatch, requestEmbedContent.
    destruct (embedContent t (env w)) as [reply e']. apply IH.
  - unfold bind, tryCatch, sleep. apply IH.
  - unfold bind, tryCatch, consoleError, emit. apply IH.
  - unfold bind, tryCatch, cryptoRandomUUID.
    destruct (randomUUID (env w)) as [u e']. apply IH.
Qed.

Lemma runP_bind {A B} (p : Proc A) (f : A -> Proc B) (w : World E) :
  runP (bindP p f) w = bind (runP p) (fun a => runP (f a)) w.
Proof.
  revert w. induction p as [a | error | t k IH | ms k IH | label error k IH | k IH];
    intros w; cbn [bindP runP].
  - reflexivity.
  - reflexivity.
  - unfold bind, requestEmbedContent.
    destruct (embedContent t (env w)) as [reply e']. apply IH.
  - unfold bind, sleep. apply IH.
  - unfold bind, consoleError, emit. apply IH.
  - unfold bind, cryptoRandomUUID.
    destruct (randomUUID (env w)) as [u e']. apply IH.
Qed.

(** A call awaited on its own is its promise, resumed as soon as it
    waits. *)
Lemma runP_startP {A} (p : Proc A) (w : World E) :
  runP p w =
  match startP p w with
  | (Settled c, w1) => (c, w1)
  | (Pending timer next, w1) => runP next (wake timer w1)
  end.
Proof.
  revert w. induction p as [a | error | t k IH | ms k IH | label error k IH | k IH];
    intros w; cbn [startP runP].
  - reflexivity.
  - reflexivity.
  - unfold bind, requestEmbedContent.
    destruct (embedContent t (env w)) as [reply e']. reflexivity.
  - reflexivity.
  - unfold bind, consoleError, emit. apply IH.
  - unfold bind, cryptoRandomUUID.
    destruct (randomUUID (env w)) as [u e']. apply IH.
Qed.

(** *** What a promise has done so far *)

Lemma startP_tracks {A} (p : Proc A) (w : World E) :
  chunks (snd (startP p w)) = chunks w /\
  exists evs,
    trace (snd (startP p w)) = trace w ++ evs /\
    tracks p (fst (startP p w)) evs.
Proof.
  revert w. induction p as [a | error | t k IH | ms k IH | label error k IH | k IH];
    intros w; cbn [startP].
  - split; [reflexivity |]. exists []. rewrite app_nil_r.
    split; [reflexivity |]. cbn. split; reflexivity.
  - split; [reflexivity |]. exists []. rewrite app_nil_r.
    split; [reflexivity |]. cbn. split; reflexivity.
  - destruct (embedContent t (env w)) as [reply e']. cbn [fst snd chunks trace].
    split; [reflexivity |]. exists [EvEmbedContent t].
    split; [reflexivity |]. intros evs c Hc. cbn.
    exists reply, evs. split; [reflexivity | exact Hc].
  - cbn [fst snd chunks trace]. split; [reflexivity |]. exists [EvTimeout ms].
    split; [reflexivity |]. intros evs c Hc. cbn.
    exists evs. split; [reflexivity | exact Hc].
  - destruct (IH (snd (consoleError label error w))) as (Hch & evs & Ht & Htr).
    unfold consoleError, emit in *. cbn [snd chunks trace] in *.
    split; [exact Hch |]. exists (EvConsoleError label error :: evs).
    split; [rewrite Ht, <- app_assoc; reflexivity |].
    destruct (fst (startP k _)) as [c | timer next]; cbn in *.
    + exists evs. split; [reflexivity | exact Htr].
    + intros evs' c Hc. exists (evs ++ evs'). split; [reflexivity |].
      apply Htr. exact Hc.
  - destruct (randomUUID (env w)) as [u e'].
    destruct (IH u (mkWorld e' (chunks w) (trace w))) as (Hch & evs & Ht & Htr).
    cbn [chunks trace] in *. split; [exact Hch |]. exists evs.
    split; [exact Ht |].
    destruct (fst (startP (k u) _)) as [c | timer next]; cbn in *.
    + exists u. exact Htr.
    + intros evs' c Hc. exists u. apply Htr. exact Hc.
Qed.

Lemma awaitsWithin_mono {A} (p : Proc A) (n m : nat) :
  awaitsWithin n p -> n <= m -> awaitsWithin m p.
Proof.
  revert n m. induction p as [a | error | t k IH | ms k IH | label error k IH | k IH];
    intros n m Hn Hle; cbn in *; auto.
  - destruct n as [| n]; [contradiction |]. destruct m as [| m]; [lia |].
    intros reply. apply (IH reply n); [apply Hn | lia].
  - destruct n as [| n]; [contradiction |]. destruct m as [| m]; [lia |].
    apply (IH n); [exact Hn | lia].
  - apply (IH n); assumption.
  - intros u. apply (IH u n); [apply Hn | exact Hle].
Qed.

Lemma startP_awaits {A} (p : Proc A) (n : nat) (w : World E) :
  awaitsWithin n p ->
  match fst (startP p w) with
  | Settled _ => True
  | Pending _ next => exists a, S a <= n /\ awaitsWithin a next
  end.
Proof.
  revert w. induction p as [a | error | t k IH | ms k IH | label error k IH | k IH];
    intros w Hn; cbn [startP] in *.
  - exact I.
  - exact I.
  - destruct (embedContent t (env w)) as [reply e']. cbn [fst].
    cbn in Hn. destruct n as [| n]; [contradiction |].
    exists n. split; [lia | apply Hn].
  - cbn [fst]. cbn in Hn. destruct n as [| n]; [contradiction |].
    exists n. split; [lia | exact Hn].
  - apply IH. exact Hn.
  - destruct (randomUUID (env w)) as [u e']. apply IH. apply Hn.
Qed.

Lemma fits_mono {A} (tasks : list (Task A)) (n m : nat) :
  fits n tasks -> n <= m -> fits m tasks.
Proof.
  revert n m. induction tasks as [| [c | timer next] rest IH]; intros n m Hn Hle;
    cbn in *.
  - exact I.
  - apply (IH n); assumption.
  - destruct Hn as (a & b & Hab & Ha & Hb). exists a, b.
    split; [lia |]. split; assumption.
Qed.

Lemma fits_pending {A} (tasks : list (Task A)) (n : nat) :
  fits n tasks -> pendingCount tasks <= n.
Proof.
  revert n. induction tasks as [| [c | timer next] rest IH]; intros n Hn;
    cbn in *.
  - lia.
  - apply IH. exact Hn.
  - destruct Hn as (a & b & Hab & _ & Hb). specialize (IH b Hb). lia.
Qed.

Lemma Tracked_length {A} (ps : list (Proc A)) (tasks : list (Task A))
    (pres : list (list Event)) :
  Tracked ps tasks pres ->
  List.length tasks = List.length ps /\ List.length pres = List.length ps.
Proof.
  induction 1 as [| p task pre ps tasks pres _ _ [IH1 IH2]]; cbn;
    [split; reflexivity | split; congruence].
Qed.

(** One round of the event loop. *)
Lemma resumeNth_step {A} (ps : list (Proc A)) (tasks : list (Task A))
    (pres : list (list Event)) (n j : nat) (w : World E) :
  Tracked ps tasks pres ->
  fits n tasks ->
  j < pendingCount tasks ->
  chunks (snd (resumeNth j tasks w)) = chunks w /\
  exists evs pres' m,
    trace (snd (resumeNth j tasks w)) = trace w ++ evs /\
    Tracked ps (fst (resumeNth j tasks w)) pres' /\
    Permutation (List.concat pres') (List.concat pres ++ evs) /\
    S m <= n /\ fits m (fst (resumeNth j tasks w)).
Proof.
  intros Htracked. revert n j w.
  induction Htracked as [| p task pre ps tasks pres Htask Hrest IH];
    intros n j w Hfits Hj.
  - cbn in Hj. lia.
  - destruct task as [c | timer next]; cbn [resumeNth pendingCount fits] in *.
    + destruct (IH n j w Hfits Hj) as (Hch & evs & pres' & m & Ht & Htr & Hperm & Hm & Hf).
      destruct (resumeNth j tasks w) as [rest' w']. cbn [fst snd] in *.
      split; [exact Hch |]. exists evs, (pre :: pres'), m.
      split; [exact Ht |]. split; [constructor; assumption |].
      split; [| split; assumption].
      cbn [List.concat]. rewrite <- app_assoc. apply Permutation_app_head.
      exact Hperm.
    + destruct Hfits as (a & b & Hab & Ha & Hb). destruct j as [| j].
      * pose proof (startP_tracks next (wake timer w)) as (Hch & evs & Ht & Htr).
        pose proof (startP_awaits next a (wake timer w) Ha) as Hnext.
        assert (Hwake : chunks (wake timer w) = chunks w
                        /\ trace (wake timer w) = trace w).
        { destruct timer; split; reflexivity. }
        destruct Hwake as [Hwc Hwt]. rewrite Hwc in Hch. rewrite Hwt in Ht.
        destruct (startP next (wake timer w)) as [task' w']. cbn [fst snd] in *.
        split; [exact Hch |]. exists evs, ((pre ++ evs) :: pres), (a + b).
        split; [exact Ht |]. split.
        { constructor; [| exact Hrest]. cbn in Htask.
          destruct task' as [c | timer' next']; cbn in *.
          - apply Htask. exact Htr.
          - intros evs' c Hc. rewrite <- app_assoc. apply Htask. apply Htr.
            exact Hc. }
        split.
        { cbn [List.concat]. rewrite <- !app_assoc.
          apply Permutation_app_head. apply Permutation_app_comm. }
        split; [lia |].
        destruct task' as [c | timer' next']; cbn [fits].
        -- apply (fits_mono tasks b); [exact Hb | lia].
        -- destruct Hnext as (a' & Ha' & Hnext). exists a', b.
           split; [lia |]. split; assumption.
      * assert (Hj' : j < pendingCount tasks) by lia.
        destruct (IH b j w Hb Hj')
          as (Hch & evs & pres' & m & Ht & Htr & Hperm & Hm & Hf).
        destruct (resumeNth j tasks w) as [rest' w']. cbn [fst snd] in *.
        split; [exact Hch |]. exists evs, (pre :: pres'), (S a + m).
        split; [exact Ht |]. split; [constructor; assumption |].
        split.
        { cbn [List.concat]. rewrite <- app_assoc. apply Permutation_app_head.
          exact Hperm. }
        split; [lia |]. cbn [fits]. exists a, m.
        split; [lia |]. split; assumption.
Qed.

Lemma Tracked_rejection {A} (ps : list (Proc A)) (tasks : list (Task A))
    (pres : list (list Event)) :
  Tracked ps tasks pres ->
  (forall p evs error, In p ps -> follows p evs (JS.Throw error) -> False) ->
  rejection tasks = None.
Proof.
  induction 1 as [| p task pre ps tasks pres Htask _ IH]; intros Hnever;
    [reflexivity |].
  assert (Hrest : rejection tasks = None).
  { apply IH. intros q evs error Hq. apply Hnever. right. exact Hq. }
  destruct task as [[a | error] | timer next]; cbn [rejection]; try exact Hrest.
  exfalso. apply (Hnever p pre error); [left; reflexivity | exact Htask].
Qed.

Lemma Tracked_fulfilled {A} (ps : list (Proc A)) (tasks : list (Task A))
    (pres : list (list Event)) :
  Tracked ps tasks pres ->
  pendingCount tasks = 0 ->
  rejection tasks = None ->
  exists values,
    fulfilled tasks = Some values /\
    List.length values = List.length pres /\
    Forall2 (fun p run => follows p (fst run) (JS.Normal (snd run)))
      ps (combine pres values).
Proof.
  induction 1 as [| p task pre ps tasks pres Htask _ IH]; intros Hpending Hrej.
  - exists []. repeat split. constructor.
  - destruct task as [[a | error] | timer next]; cbn in Hpending, Hrej;
      try discriminate.
    destruct (IH Hpending Hrej) as (values & Hf & Hlen & Hall).
    exists (a :: values). cbn [fulfilled]. rewrite Hf.
    split; [reflexivity |]. split; [cbn; congruence |].
    cbn [combine]. constructor; [exact Htask | exact Hall].
Qed.

(** The event loop settles every promise whose function never throws and
    waits a bounded number of times. *)
Lemma settleLoop_settles {A} (ps : list (Proc A)) (fuel : nat) :
  (forall p evs error, In p ps -> follows p evs (JS.Throw error) -> False) ->
  forall (tasks : list (Task A)) (pres : list (list Event)) (n : nat)
         (w : World E),
    Tracked ps tasks pres ->
    fits n tasks ->
    n <= fuel ->
    pendingCount (fst (settleLoop fuel tasks w)) = 0 /\
    chunks (snd (settleLoop fuel tasks w)) = chunks w /\
    exists evs pres',
      trace (snd (settleLoop fuel tasks w)) = trace w ++ evs /\
      Tracked ps (fst (settleLoop fuel tasks w)) pres' /\
      Permutation (List.concat pres') (List.concat pres ++ evs).
Proof.
  intros Hnever.
  induction fuel as [| fuel IH]; intros tasks pres n w Htracked Hfits Hfuel.
  - cbn [settleLoop fst snd].
    pose proof (fits_pending tasks n Hfits) as Hp.
    split; [lia |]. split; [reflexivity |]. exists [], pres.
    rewrite !app_nil_r. split; [reflexivity |]. split; [exact Htracked |].
    apply Permutation_refl.
  - cbn [settleLoop].
    rewrite (Tracked_rejection ps tasks pres Htracked Hnever).
    destruct (pendingCount tasks) as [| others] eqn:Hcount.
    + cbn [fst snd]. split; [exact Hcount |]. split; [reflexivity |].
      exists [], pres. rewrite !app_nil_r. split; [reflexivity |].
      split; [exact Htracked | apply Permutation_refl].
    + destruct (settles (S others) (env w)) as [j e'].
      assert (Hj : j mod S others < pendingCount tasks).
      { rewrite Hcount. apply Nat.mod_upper_bound. lia. }
      destruct (resumeNth_step ps tasks pres n (j mod S others)
                  (mkWorld e' (chunks w) (trace w)) Htracked Hfits Hj)
        as (Hch & evs & pres' & m & Ht & Htr & Hperm & Hm & Hf).
      destruct (resumeNth (j mod S others) tasks (mkWorld e' (chunks w) (trace w)))
        as [tasks' w']. cbn [fst snd chunks trace] in *.
      destruct (IH tasks' pres' m w' Htr Hf ltac:(lia))
        as (Hp2 & Hch2 & evs2 & pres2 & Ht2 & Htr2 & Hperm2).
      split; [exact Hp2 |]. split; [congruence |].
      exists (evs ++ evs2), pres2. split; [rewrite Ht2, Ht, app_assoc; reflexivity |].
      split; [exact Htr2 |].
      rewrite app_assoc. etransitivity; [exact Hperm2 |].
      apply Permutation_app_tail. exact Hperm.
Qed.

(** The calls are started one after the other. *)
Lemma startAll_tracked {A} (calls : list (Proc A)) (n : nat) (w : World E) :
  Forall (awaitsWithin n) calls ->
  exists tasks pres w',
    startAll calls w = (JS.Normal tasks, w') /\
    chunks w' = chunks w /\
    trace w' = trace w ++ List.concat pres /\
    Tracked calls tasks pres /\
    fits (n * List.length calls) tasks.
Proof.
  intros Hcalls. revert w.
  induction Hcalls as [| p calls Hp _ IH]; intros w.
  - exists [], [], w. cbn. rewrite app_nil_r. repeat split. constructor.
  - cbn [startAll].
    pose proof (startP_tracks p w) as (Hch & evs & Ht & Htr).
    pose proof (startP_awaits p n w Hp) as Hnext.
    destruct (startP p w) as [task w1]. cbn [fst snd] in *.
    destruct (IH w1) as (tasks & pres & w2 & Hrun & Hch2 & Ht2 & Htr2 & Hfits).
    rewrite Hrun. exists (task :: tasks), (evs :: pres), w2.
    split; [reflexivity |]. split; [congruence |].
    split; [cbn [List.concat]; rewrite Ht2, Ht, app_assoc; reflexivity |].
    split; [constructor; assumption |].
    cbn [List.length]. destruct task as [c | timer next]; cbn [fits].
    + apply (fits_mono tasks (n * List.length calls)); [exact Hfits | lia].
    + destruct Hnext as (a & Ha & Hnext). exists a, (n * List.length calls).
      split; [lia |]. split; assumption.
Qed.

(** [Promise.all] over calls that never throw and wait [n] times at
    most: every call follows one of its paths to its end, the values come
    in the order of the calls, and the events are those of the paths, in
    some order. *)
Lemma promiseAll_settles {A} (n : nat) (calls : list (Proc A)) (w : World E) :
  Forall (awaitsWithin n) calls ->
  (forall p evs error, In p calls -> follows p evs (JS.Throw error) -> False) ->
  exists tasks w1 runs w',
    startAll calls w = (JS.Normal tasks, w1) /\
    promiseAll n tasks w1 = (JS.Normal (map snd runs), w') /\
    chunks w' = chunks w /\
    (exists started later,
        trace w1 = trace w ++ started /\
        trace w' = trace w1 ++ later /\
        Permutation (started ++ later) (List.concat (map fst runs))) /\
    Forall2 (fun p run => follows p (fst run) (JS.Normal (snd run))) calls runs.
Proof.
  intros Hcalls Hnever.
  destruct (startAll_tracked calls n w Hcalls)
    as (tasks & pres & w1 & Hstart & Hch1 & Ht1 & Htracked & Hfits).
  destruct (Tracked_length _ _ _ Htracked) as [Hlen _].
  destruct (settleLoop_settles calls (n * List.length tasks) Hnever tasks pres
              (n * List.length calls) w1 Htracked Hfits ltac:(rewrite Hlen; lia))
    as (Hpending & Hch2 & evs & pres' & Ht2 & Htracked' & Hperm).
  pose proof (Tracked_rejection _ _ _ Htracked' Hnever) as Hrej.
  destruct (Tracked_fulfilled _ _ _ Htracked' Hpending Hrej)
    as (values & Hf & Hvalues & Hall).
  exists tasks, w1, (combine pres' values).
  unfold promiseAll.
  destruct (settleLoop (n * List.length tasks) tasks w1) as [tasks' w'].
  cbn [fst snd] in *. exists w'. split; [exact Hstart |].
  rewrite Hrej, Hf.
  assert (Hsnd : map snd (combine pres' values) = values).
  { clear - Hvalues. revert values Hvalues.
    induction pres' as [| pre pres' IH]; intros [| v values] Hlen;
      try discriminate; [reflexivity |].
    cbn. f_equal. apply IH. cbn in Hlen. congruence. }
  assert (Hfst : map fst (combine pres' values) = pres').
  { clear - Hvalues. revert values Hvalues.
    induction pres' as [| pre pres' IH]; intros [| v values] Hlen;
      try discriminate; [reflexivity |].
    cbn. f_equal. apply IH. cbn in Hlen. congruence. }
  rewrite Hsnd, Hfst. split; [reflexivity |]. split; [congruence |].
  split; [| exact Hall].
  exists (List.concat pres), evs. split; [exact Ht1 |]. split; [exact Ht2 |].
  symmetry. exact Hperm.
Qed.

(** *** Promises of processes that do the same *)

Lemma simP_tryCatch {A B} (g : A -> B) (body : Proc A) (body' : Proc B)
    (handler : JS.Error -> Proc A) (handler' : JS.Error -> Proc B) :
  simP g body body' ->
  (forall error, simP g (handler error) (handler' error)) ->
  simP g (tryCatchP body handler) (tryCatchP body' handler').
Proof.
  intros Hbody Hhandler.
  induction Hbody; cbn [tryCatchP]; try (constructor; assumption).
  apply Hhandler.
Qed.

Lemma simP_bind {A B C} (g : B -> C) (p : Proc A) (f : A -> Proc B)
    (f' : A -> Proc C) :
  (forall a, simP g (f a) (f' a)) ->
  simP g (bindP p f) (bindP p f').
Proof.
  intros Hf.
  induction p as [a | error | t k IH | ms k IH | label error k IH | k IH];
    cbn [bindP]; try (constructor; assumption).
  apply Hf.
Qed.

Lemma startP_sim {A B} (g : A -> B) (p : Proc A) (q : Proc B) (w : World E) :
  simP g p q ->
  snd (startP q w) = snd (startP p w) /\
  simTask g (fst (startP p w)) (fst (startP q w)).
Proof.
  intros Hsim. revert w.
  induction Hsim as [a | error | t k k' Hk IH | ms k k' Hk IH
                    | label error k k' Hk IH | k k' Hk IH];
    intros w; cbn [startP].
  - split; reflexivity.
  - split; reflexivity.
  - destruct (embedContent t (env w)) as [reply e']. cbn.
    split; [reflexivity |]. split; [reflexivity | apply Hk].
  - cbn. split; [reflexivity |]. split; [reflexivity | exact Hk].
  - apply IH.
  - destruct (randomUUID (env w)) as [u e']. apply IH.
Qed.

Lemma simTask_counts {A B} (g : A -> B) (tasks : list (Task A))
    (tasks' : list (Task B)) :
  Forall2 (simTask g) tasks tasks' ->
  pendingCount tasks' = pendingCount tasks /\
  rejection tasks' = rejection tasks /\
  fulfilled tasks' = option_map (map g) (fulfilled tasks) /\
  List.length tasks' = List.length tasks.
Proof.
  induction 1 as [| a b tasks tasks' Hab _ (IH1 & IH2 & IH3 & IH4)];
    [repeat split |].
  destruct a as [[x | e] | timer next], b as [[y | e'] | timer' next'];
    cbn in Hab; try contradiction; cbn [pendingCount rejection fulfilled List.length].
  - subst y. rewrite IH3. repeat split; try congruence.
    destruct (fulfilled tasks); reflexivity.
  - subst e'. repeat split; congruence.
  - repeat split; congruence.
Qed.

Lemma resumeNth_sim {A B} (g : A -> B) (tasks : list (Task A))
    (tasks' : list (Task B)) (j : nat) (w : World E) :
  Forall2 (simTask g) tasks tasks' ->
  snd (resumeNth j tasks' w) = snd (resumeNth j tasks w) /\
  Forall2 (simTask g) (fst (resumeNth j tasks w)) (fst (resumeNth j tasks' w)).
Proof.
  intros Hsim. revert j w.
  induction Hsim as [| a b tasks tasks' Hab Hrest IH]; intros j w.
  - split; [reflexivity | constructor].
  - destruct a as [[x | e] | timer next], b as [[y | e'] | timer' next'];
      cbn in Hab; try contradiction; cbn [resumeNth].
    + destruct (IH j w) as [Hw Hs].
      destruct (resumeNth j tasks w) as [r1 w1],
               (resumeNth j tasks' w) as [r2 w2]. cbn [fst snd] in *.
      split; [exact Hw |]. constructor; [exact Hab | exact Hs].
    + destruct (IH j w) as [Hw Hs].
      destruct (resumeNth j tasks w) as [r1 w1],
               (resumeNth j tasks' w) as [r2 w2]. cbn [fst snd] in *.
      split; [exact Hw |]. constructor; [exact Hab | exact Hs].
    + destruct Hab as [-> Hnext]. destruct j as [| j].
      * destruct (startP_sim g next next' (wake timer w) Hnext) as [Hw Hs].
        destruct (startP next (wake timer w)) as [t1 w1],
                 (startP next' (wake timer w)) as [t2 w2]. cbn [fst snd] in *.
        split; [exact Hw |]. constructor; [exact Hs | exact Hrest].
      * destruct (IH j w) as [Hw Hs].
        destruct (resumeNth j tasks w) as [r1 w1],
                 (resumeNth j tasks' w) as [r2 w2]. cbn [fst snd] in *.
        split; [exact Hw |]. constructor; [| exact Hs].
        cbn. split; [reflexivity | exact Hnext].
Qed.

Lemma settleLoop_sim {A B} (g : A -> B) (fuel : nat) (tasks : list (Task A))
    (tasks' : list (Task B)) (w : World E) :
  Forall2 (simTask g) tasks tasks' ->
  snd (settleLoop fuel tasks' w) = snd (settleLoop fuel tasks w) /\
  Forall2 (simTask g) (fst (settleLoop fuel tasks w))
    (fst (settleLoop fuel tasks' w)).
Proof.
  revert tasks tasks' w. induction fuel as [| fuel IH]; intros tasks tasks' w Hsim.
  - split; [reflexivity | exact Hsim].
  - cbn [settleLoop].
    destruct (simTask_counts g tasks tasks' Hsim) as (Hp & Hr & _ & _).
    rewrite Hp, Hr.
    destruct (rejection tasks) as [error |]; [split; [reflexivity | exact Hsim] |].
    destruct (pendingCount tasks) as [| others];
      [split; [reflexivity | exact Hsim] |].
    destruct (settles (S others) (env w)) as [j e'].
    destruct (resumeNth_sim g tasks tasks' (j mod S others)
                (mkWorld e' (chunks w) (trace w)) Hsim) as [Hw Hs].
    destruct (resumeNth (j mod S others) tasks _) as [r1 w1],
             (resumeNth (j mod S others) tasks' _) as [r2 w2].
    cbn [fst snd] in *. subst w2. apply IH. exact Hs.
Qed.

Lemma startAll_sim {A B} (g : A -> B) (calls : list (Proc A))
    (calls' : list (Proc B)) (w : World E) :
  Forall2 (simP g) calls calls' ->
  exists tasks tasks' w',
    startAll calls w = (JS.Normal tasks, w') /\
    startAll calls' w = (JS.Normal tasks', w') /\
    Forall2 (simTask g) tasks tasks'.
Proof.
  intros Hsim. revert w.
  induction Hsim as [| p q calls calls' Hpq _ IH]; intros w.
  - exists [], [], w. repeat split. constructor.
  - cbn [startAll].
    destruct (startP_sim g p q w Hpq) as [Hw Hs].
    destruct (startP p w) as [t1 w1], (startP q w) as [t2 w2].
    cbn [fst snd] in *. subst w2.
    destruct (IH w1) as (tasks & tasks' & w' & H1 & H2 & Hall).
    rewrite H1, H2. exists (t1 :: tasks), (t2 :: tasks'), w'.
    repeat split. constructor; assumption.
Qed.

Lemma promiseAll_sim {A B} (g : A -> B) (n : nat) (tasks : list (Task A))
    (tasks' : list (Task B)) (w : World E) (values : list A) (w' : World E) :
  Forall2 (simTask g) tasks tasks' ->
  promiseAll n tasks w = (JS.Normal values, w') ->
  promiseAll n tasks' w = (JS.Normal (map g values), w').
Proof.
  intros Hsim. unfold promiseAll.
  destruct (simTask_counts g tasks tasks' Hsim) as (_ & _ & _ & Hlen).
  rewrite Hlen.
  destruct (settleLoop_sim g (n * List.length tasks) tasks tasks' w Hsim)
    as [Hw Hs].
  destruct (settleLoop (n * List.length tasks) tasks w) as [r1 w1],
           (settleLoop (n * List.length tasks) tasks' w) as [r2 w2].
  cbn [fst snd] in *. subst w2.
  destruct (simTask_counts g r1 r2 Hs) as (_ & Hr & Hf & _).
  rewrite Hr, Hf.
  destruct (rejection r1) as [error |]; [discriminate |].
  destruct (fulfilled r1) as [vs |]; [| discriminate].
  intros Heq. injection Heq as <- <-. reflexivity.
Qed.

(** *** Paths through [try], [catch] and a sequence *)

Lemma follows_tryCatch {A} (body : Proc A) (handler : JS.Error -> Proc A)
    (evs : list Event) (c : JS.Completion A) :
  follows (tryCatchP body handler) evs c ->
  (exists a, c = JS.Normal a /\ follows body evs (JS.Normal a)) \/
  (exists error before after,
      follows body before (JS.Throw error) /\
      follows (handler error) after c /\
      evs = before ++ after).
Proof.
  revert evs.
  induction body as [a | error | t k IH | ms k IH | label error k IH | k IH];
    intros evs Hf; cbn [tryCatchP] in Hf.
  - left. cbn in Hf. destruct Hf as [-> ->]. exists a. cbn. repeat split.
  - right. exists error, [], evs. cbn. repeat split. exact Hf.
  - cbn in Hf. destruct Hf as (reply & rest & -> & Hf).
    destruct (IH reply rest Hf) as [(a & -> & Ha) | (error & b & f & Hb & Hh & ->)].
    + left. exists a. split; [reflexivity |]. cbn. exists reply, rest.
      split; [reflexivity | exact Ha].
    + right. exists error, (EvEmbedContent t :: b), f. cbn.
      split; [exists reply, b; split; [reflexivity | exact Hb] |].
      split; [exact Hh | reflexivity].
  - cbn in Hf. destruct Hf as (rest & -> & Hf).
    destruct (IH rest Hf) as [(a & -> & Ha) | (error & b & f & Hb & Hh & ->)].
    + left. exists a. split; [reflexivity |]. cbn. exists rest.
      split; [reflexivity | exact Ha].
    + right. exists error, (EvTimeout ms :: b), f. cbn.
      split; [exists b; split; [reflexivity | exact Hb] |].
      split; [exact Hh | reflexivity].
  - cbn in Hf. destruct Hf as (rest & -> & Hf).
    destruct (IH rest Hf) as [(a & -> & Ha) | (err & b & f & Hb & Hh & ->)].
    + left. exists a. split; [reflexivity |]. cbn. exists rest.
      split; [reflexivity | exact Ha].
    + right. exists err, (EvConsoleError label error :: b), f. cbn.
      split; [exists b; split; [reflexivity | exact Hb] |].
      split; [exact Hh | reflexivity].
  - cbn in Hf. destruct Hf as (u & Hf).
    destruct (IH u evs Hf) as [(a & -> & Ha) | (error & b & f & Hb & Hh & ->)].
    + left. exists a. split; [reflexivity |]. cbn. exists u. exact Ha.
    + right. exists error, b, f. cbn.
      split; [exists u; exact Hb |]. split; [exact Hh | reflexivity].
Qed.

Lemma follows_bind {A B} (p : Proc A) (f : A -> Proc B)
    (evs : list Event) (c : JS.Completion B) :
  follows (bindP p f) evs c ->
  (exists error, c = JS.Throw error /\ follows p evs (JS.Throw error)) \/
  (exists a before after,
      follows p before (JS.Normal a) /\
      follows (f a) after c /\
      evs = before ++ after).
Proof.
  revert evs.
  induction p as [a | error | t k IH | ms k IH | label error k IH | k IH];
    intros evs Hf; cbn [bindP] in Hf.
  - right. exists a, [], evs. cbn. repeat split. exact Hf.
  - left. cbn in Hf. destruct Hf as [-> ->]. exists error. cbn. repeat split.
  - cbn in Hf. destruct Hf as (reply & rest & -> & Hf).
    destruct (IH reply rest Hf) as [(error & -> & Ha) | (a & b & f' & Hb & Hh & ->)].
    + left. exists error. split; [reflexivity |]. cbn. exists reply, rest.
      split; [reflexivity | exact Ha].
    + right. exists a, (EvEmbedContent t :: b), f'. cbn.
      split; [exists reply, b; split; [reflexivity | exact Hb] |].
      split; [exact Hh | reflexivity].
  - cbn in Hf. destruct Hf as (rest & -> & Hf).
    destruct (IH rest Hf) as [(error & -> & Ha) | (a & b & f' & Hb & Hh & ->)].
    + left. exists error. split; [reflexivity |]. cbn. exists rest.
      split; [reflexivity | exact Ha].
    + right. exists a, (EvTimeout ms :: b), f'. cbn.
      split; [exists b; split; [reflexivity | exact Hb] |].
      split; [exact Hh | reflexivity].
  - cbn in Hf. destruct Hf as (rest & -> & Hf).
    destruct (IH rest Hf) as [(err & -> & Ha) | (a & b & f' & Hb & Hh & ->)].
    + left. exists err. split; [reflexivity |]. cbn. exists rest.
      split; [reflexivity | exact Ha].
    + right. exists a, (EvConsoleError label error :: b), f'. cbn.
      split; [exists b; split; [reflexivity | exact Hb] |].
      split; [exact Hh | reflexivity].
  - cbn in Hf. destruct Hf as (u & Hf).
    destruct (IH u evs Hf) as [(error & -> & Ha) | (a & b & f' & Hb & Hh & ->)].
    + left. exists error. split; [reflexivity |]. cbn. exists u. exact Ha.
    + right. exists a, b, f'. cbn.
      split; [exists u; exact Hb |]. split; [exact Hh | reflexivity].
Qed.

Lemma awaitsWithin_tryCatch {A} (body : Proc A) (handler : JS.Error -> Proc A)
    (a b : nat) :
  awaitsWithin a body ->
  (forall error, awaitsWithin b (handler error)) ->
  awaitsWithin (a + b) (tryCatchP body handler).
Proof.
  revert a.
  induction body as [x | error | t k IH | ms k IH | label error k IH | k IH];
    intros a Ha Hh; cbn [tryCatchP]; cbn in Ha.
  - exact I.
  - apply (awaitsWithin_mono _ b); [apply Hh | lia].
  - destruct a as [| a]; [contradiction |]. cbn. intros reply.
    apply IH; [apply Ha | exact Hh].
  - destruct a as [| a]; [contradiction |]. cbn. apply IH; assumption.
  - cbn. apply IH; assumption.
  - cbn. intros u. apply IH; [apply Ha | exact Hh].
Qed.

Lemma awaitsWithin_bind {A B} (p : Proc A) (f : A -> Proc B) (a b : nat) :
  awaitsWithin a p ->
  (forall x, awaitsWithin b (f x)) ->
  awaitsWithin (a + b) (bindP p f).
Proof.
  revert a.
  induction p as [x | error | t k IH | ms k IH | label error k IH | k IH];
    intros a Ha Hf; cbn [bindP]; cbn in Ha.
  - apply (awaitsWithin_mono _ b); [apply Hf | lia].
  - exact I.
  - destruct a as [| a]; [contradiction |]. cbn. intros reply.
    apply IH; [apply Ha | exact Hf].
  - destruct a as [| a]; [contradiction |]. cbn. apply IH; assumption.
  - cbn. apply IH; assumption.
  - cbn. intros u. apply IH; [apply Ha | exact Hf].
Qed.

End Processes.

(** ** The embedding client *)

Section RateLimitSignal.

Lemma prefix_append (needle s : string) :
  String.prefix needle s = true <-> exists after, s = String.append needle after.
Proof.
  revert s. induction needle as [| a needle IH]; intros s.
  - split; [intros _; exists s; reflexivity |]. intros _. destruct s; reflexivity.
  - destruct s as [| b s]; cbn [String.prefix].
    + split; [discriminate | intros [after Ha]; discriminate].
    + destruct (ascii_dec a b) as [-> | Hne].
      * rewrite IH. split; intros [after Ha]; exists after.
        -- cbn. rewrite Ha. reflexivity.
        -- cbn in Ha. injection Ha as Ha. exact Ha.
      * split; [discriminate |]. intros [after Ha]. cbn in Ha.
        injection Ha as Hab _. congruence.
Qed.

Lemma includes_unfold (s needle : string) :
  JS.includes s needle
  = String.prefix needle s ||
    match s with
    | EmptyString => false
    | String _ s' => JS.includes s' needle
    end.
Proof. destruct s; reflexivity. Qed.

(** [includes] tells whether the needle occurs. *)
Lemma includes_spec (s needle : string) :
  JS.includes s needle = true <-> occursIn needle s.
Proof.
  unfold occursIn. split.
  - induction s as [| c s IH]; rewrite includes_unfold; intros Hin;
      apply orb_true_iff in Hin; destruct Hin as [Hp | Hin].
    + apply prefix_append in Hp. destruct Hp as [after Ha].
      exists EmptyString, after. exact Ha.
    + discriminate.
    + apply prefix_append in Hp. destruct Hp as [after Ha].
      exists EmptyString, after. exact Ha.
    + destruct (IH Hin) as (before & after & Hs).
      exists (String c before), after. cbn. rewrite Hs. reflexivity.
  - intros (before & after & Hs). subst s.
    induction before as [| c before IH]; rewrite includes_unfold.
    + apply orb_true_iff. left. apply prefix_append. exists after. reflexivity.
    + apply orb_true_iff. right. exact IH.
Qed.

(** The test of [getEmbedding]'s [catch] is the rate-limit signal. *)
Lemma rateLimited_spec (error : JS.Error) :
  GeminiService.rateLimited error = true <-> rateLimitSignal error.
Proof.
  unfold GeminiService.rateLimited, rateLimitSignal.
  destruct (JS.message error) as [m |].
  - rewrite orb_true_iff, !includes_spec. split.
    + intros Hm. exists m. split; [reflexivity | exact Hm].
    + intros (m' & Hm' & Hin). injection Hm' as <-. exact Hin.
  - split; [discriminate | intros (m & Hm & _); discriminate].
Qed.

Lemma rateLimited_not (error : JS.Error) :
  GeminiService.rateLimited error = false <-> ~ rateLimitSignal error.
Proof.
  rewrite <- rateLimited_spec.
  destruct (GeminiService.rateLimited error); split; intros H; congruence.
Qed.

End RateLimitSignal.

Section EmbeddingClient.

Context {E : Type} `{RT : Runtime E}.

Import GeminiService.

Lemma getEmbedding_unfold (t : string) (r : nat) (w : World E) :
  getEmbedding t r w =
  tryCatch (tryEmbed t)
    (fun error =>
       match r with
       | S r' =>
           if rateLimited error
           then (sleep 1000 ;; getEmbedding t r')%js
           else (consoleError "Error generating embedding:" error ;;
                 throw error)%js
       | O =>
           (consoleError "Error generating embedding:" error ;;
            throw error)%js
       end) w.
Proof.
  unfold getEmbedding, tryEmbed.
  destruct r as [| r]; cbn [getEmbeddingP]; rewrite runP_tryCatch;
    unfold tryCatch; destruct (runP (tryEmbedP t) w) as [[v | error] w1];
    try reflexivity.
  destruct (rateLimited error); reflexivity.
Qed.

(** What an attempt is for each reply of the provider: a rejection is
    thrown, a reply without embeddings is an error, and otherwise the
    values of the first embedding are returned. *)
Lemma tryEmbed_reply (t : string) (w : World E) :
  tryEmbed t w =
  (match fst (embedContent t (env w)) with
   | Rejected error => JS.Throw error
   | Resolved response =>
       match embeddings response with
       | None | Some [] => JS.Throw (JS.mkError (Some noValuesMessage))
       | Some (first :: _) => JS.Normal (values first)
       end
   end,
   mkWorld (snd (embedContent t (env w))) (chunks w)
     (trace w ++ [EvEmbedContent t])).
Proof.
  unfold tryEmbed, tryEmbedP, awaitEmbedContent. cbn [bindP runP].
  unfold bind, requestEmbedContent.
  destruct (embedContent t (env w)) as [[response | error] e'];
    cbn [fst snd bindP runP]; [| reflexivity].
  destruct (embeddings response) as [[| first rest] |]; reflexivity.
Qed.

(** An attempt calls the provider once, with the text, and does nothing
    else that can be observed. *)
Lemma tryEmbed_trace (t : string) (w : World E) :
  trace (snd (tryEmbed t w)) = trace w ++ [EvEmbedContent t]
  /\ chunks (snd (tryEmbed t w)) = chunks w.
Proof. rewrite tryEmbed_reply. split; reflexivity. Qed.

Lemma getEmbedding_success (t : string) (r : nat) (w w1 : World E) v :
  tryEmbed t w = (JS.Normal v, w1) ->
  getEmbedding t r w = (JS.Normal v, w1).
Proof.
  intros Hatt. rewrite getEmbedding_unfold. unfold tryCatch.
  rewrite Hatt. reflexivity.
Qed.

Lemma getEmbedding_fatal (t : string) (r : nat) (w w1 : World E) e :
  tryEmbed t w = (JS.Throw e, w1) ->
  rateLimited e = false ->
  getEmbedding t r w = (JS.Throw e, logged e w1).
Proof.
  intros Hatt Hrl. rewrite getEmbedding_unfold. unfold tryCatch.
  rewrite Hatt. destruct r; [| rewrite Hrl]; reflexivity.
Qed.

Lemma getEmbedding_exhausted (t : string) (w w1 : World E) e :
  tryEmbed t w = (JS.Throw e, w1) ->
  getEmbedding t 0 w = (JS.Throw e, logged e w1).
Proof.
  intros Hatt. rewrite getEmbedding_unfold. unfold tryCatch.
  rewrite Hatt. reflexivity.
Qed.

Lemma getEmbedding_retry (t : string) (r : nat) (w w1 : World E) e :
  tryEmbed t w = (JS.Throw e, w1) ->
  rateLimited e = true ->
  getEmbedding t (S r) w = getEmbedding t r (paused w1).
Proof.
  intros Hatt Hrl. rewrite (getEmbedding_unfold t (S r)). unfold tryCatch.
  rewrite Hatt, Hrl. reflexivity.
Qed.

(** The shape of a whole call with budget [r]: [k <= r] retries, each
    after its pause, then nothing on success and one console line on
    failure; a failure before the budget is used up is not a rate
    limit. *)
Lemma getEmbedding_shape (t : string) (r : nat) (w : World E) :
  exists k,
    k <= r /\
    chunks (snd (getEmbedding t r w)) = chunks w /\
    match fst (getEmbedding t r w) with
    | JS.Normal _ =>
        trace (snd (getEmbedding t r w)) = trace w ++ attemptsTrace t k
    | JS.Throw e =>
        trace (snd (getEmbedding t r w)) =
        trace w ++ attemptsTrace t k
                ++ [EvConsoleError "Error generating embedding:" e]
        /\ (k < r -> rateLimited e = false)
    end.
Proof.
  revert w. induction r as [| r IH]; intros w.
  - destruct (tryEmbed t w) as [[v | e] w1] eqn:Hatt;
      pose proof (tryEmbed_trace t w) as [Htr Hch]; rewrite Hatt in Htr, Hch;
      simpl in Htr, Hch; exists 0; split; auto.
    + rewrite (getEmbedding_success _ _ _ _ _ Hatt). simpl. auto.
    + rewrite (getEmbedding_exhausted _ _ _ _ Hatt). simpl.
      rewrite Htr, <- app_assoc. repeat split; auto. lia.
  - destruct (tryEmbed t w) as [[v | e] w1] eqn:Hatt;
      pose proof (tryEmbed_trace t w) as [Htr Hch]; rewrite Hatt in Htr, Hch;
      simpl in Htr, Hch.
    + exists 0. rewrite (getEmbedding_success _ _ _ _ _ Hatt). simpl.
      repeat split; auto. lia.
    + destruct (rateLimited e) eqn:Hrl.
      * rewrite (getEmbedding_retry _ _ _ _ _ Hatt Hrl).
        destruct (IH (paused w1)) as (k & Hk & Hch' & Hres).
        exists (S k). split; [lia |]. split; [rewrite Hch'; simpl; auto |].
        assert (Hpre : forall tl,
                   trace (paused w1) ++ attemptsTrace t k ++ tl =
                   trace w ++ attemptsTrace t (S k) ++ tl).
        { intros tl. unfold paused, sleep, attemptsTrace. simpl.
          rewrite Htr. rewrite <- !app_assoc. reflexivity. }
        destruct (fst (getEmbedding t r (paused w1))) as [v | e'].
        -- rewrite Hres. specialize (Hpre []). rewrite !app_nil_r in Hpre.
           exact Hpre.
        -- destruct Hres as [Htrace Hnot]. rewrite Htrace. split.
           ++ apply Hpre.
           ++ intros Hlt. apply Hnot. lia.
      * exists 0. rewrite (getEmbedding_fatal _ _ _ _ _ Hatt Hrl). simpl.
        rewrite Htr, <- app_assoc. repeat split; auto; lia.
Qed.

(** C6: the retry policy of [getEmbedding].  An attempt throws what the
    provider rejects with.  A rate limit is an error whose message
    contains [429] or [rate limit].  Whatever the budget, an attempt that
    succeeds ends the call with what it returns, an attempt that fails
    with an error that is not a rate limit ends it with that error, and
    so does any failure once the budget is used up; a rate limit with
    budget left is followed by a pause of one second and a new attempt on
    the same text with the budget one lower.  With the default budget of
    two retries a call makes [k <= 2] retries, each preceded by its own
    pause of 1000 ms, and a failure met before the budget is used up is
    not a rate limit.  A rate limit on the first attempt and a success on
    the second give a success with exactly one pause. *)
Theorem getEmbedding_retry_policy (t : string) (w : World E) :
  (forall e e',
      embedContent t (env w) = (Rejected e, e') ->
      tryEmbed t w
      = (JS.Throw e, mkWorld e' (chunks w) (trace w ++ [EvEmbedContent t]))) /\
  (forall r v w1,
      tryEmbed t w = (JS.Normal v, w1) ->
      getEmbedding t r w = (JS.Normal v, w1)) /\
  (forall r e w1,
      tryEmbed t w = (JS.Throw e, w1) ->
      ~ rateLimitSignal e ->
      getEmbedding t r w = (JS.Throw e, logged e w1)) /\
  (forall e w1,
      tryEmbed t w = (JS.Throw e, w1) ->
      getEmbedding t 0 w = (JS.Throw e, logged e w1)) /\
  (forall r e w1,
      tryEmbed t w = (JS.Throw e, w1) ->
      rateLimitSignal e ->
      getEmbedding t (S r) w = getEmbedding t r (paused w1)
      /\ trace (paused w1) = trace w ++ [EvEmbedContent t; EvTimeout 1000]) /\
  (exists k,
      k <= 2 /\
      match fst (getEmbedding t defaultRetries w) with
      | JS.Normal _ =>
          trace (snd (getEmbedding t defaultRetries w)) =
          trace w ++ attemptsTrace t k
      | JS.Throw e =>
          trace (snd (getEmbedding t defaultRetries w)) =
          trace w ++ attemptsTrace t k
                  ++ [EvConsoleError "Error generating embedding:" e]
          /\ (k < 2 -> ~ rateLimitSignal e)
      end) /\
  (forall e w1 v w2,
      tryEmbed t w = (JS.Throw e, w1) ->
      rateLimitSignal e ->
      tryEmbed t (paused w1) = (JS.Normal v, w2) ->
      getEmbedding t defaultRetries w = (JS.Normal v, w2)
      /\ trace w2 = trace w ++ [EvEmbedContent t; EvTimeout 1000; EvEmbedContent t]).
Proof.
  assert (Hpause : forall e w1,
             tryEmbed t w = (JS.Throw e, w1) ->
             trace (paused w1) = trace w ++ [EvEmbedContent t; EvTimeout 1000]).
  { intros e w1 Hatt. pose proof (tryEmbed_trace t w) as [Htr _].
    rewrite Hatt in Htr. simpl in Htr. unfold paused, sleep. simpl.
    rewrite Htr, <- app_assoc. reflexivity. }
  split; [| split; [| split; [| split; [| split; [| split]]]]].
  - intros e e' Hreply. rewrite tryEmbed_reply, Hreply. reflexivity.
  - intros r v w1. apply getEmbedding_success.
  - intros r e w1 Hatt Hnot. apply getEmbedding_fatal; [exact Hatt |].
    apply rateLimited_not. exact Hnot.
  - intros e w1. apply getEmbedding_exhausted.
  - intros r e w1 Hatt Hrl. apply rateLimited_spec in Hrl. split.
    + apply (getEmbedding_retry _ _ _ _ _ Hatt Hrl).
    + eapply Hpause; eassumption.
  - destruct (getEmbedding_shape t defaultRetries w) as (k & Hk & _ & Hres).
    exists k. split; [exact Hk |].
    destruct (fst (getEmbedding t defaultRetries w)) as [v | e]; [exact Hres |].
    destruct Hres as [Htrace Hnot]. split; [exact Htrace |].
    intros Hlt. apply rateLimited_not. apply Hnot. exact Hlt.
  - intros e w1 v w2 Hatt Hrl Hsecond. apply rateLimited_spec in Hrl. split.
    + unfold defaultRetries.
      rewrite (getEmbedding_retry _ _ _ _ _ Hatt Hrl).
      apply getEmbedding_success. exact Hsecond.
    + pose proof (tryEmbed_trace t (paused w1)) as [Htr _].
      rewrite Hsecond in Htr. cbn [snd] in Htr.
      rewrite Htr, (Hpause _ _ Hatt), <- app_assoc. reflexivity.
Qed.

(** The guard: a reply without embeddings, or with an empty list of
    them, is an error that is not retried. *)
Lemma getEmbedding_no_embeddings (t : string) (r : nat) (w : World E)
    (resp : EmbedContentResponse) (e' : E) :
  embedContent t (env w) = (Resolved resp, e') ->
  embeddings resp = None \/ embeddings resp = Some [] ->
  fst (getEmbedding t r w) = JS.Throw (JS.mkError (Some noValuesMessage))
  /\ trace (snd (getEmbedding t r w))
     = trace w ++ [EvEmbedContent t;
                   EvConsoleError "Error generating embedding:"
                     (JS.mkError (Some noValuesMessage))].
Proof.
  intros Hreply Hnone.
  assert (Hatt : tryEmbed t w
                 = (JS.Throw (JS.mkError (Some noValuesMessage)),
                    mkWorld e' (chunks w) (trace w ++ [EvEmbedContent t]))).
  { rewrite tryEmbed_reply, Hreply. cbn [fst snd].
    destruct Hnone as [-> | ->]; reflexivity. }
  rewrite (getEmbedding_fatal t r w _ _ Hatt eq_refl).
  unfold logged, consoleError, emit. cbn [fst snd trace].
  rewrite <- app_assoc. split; reflexivity.
Qed.

(** Past the guard, the values of the first embedding are returned as
    they are, [undefined] when there are none. *)
Lemma getEmbedding_first_values (t : string) (r : nat) (w : World E)
    (first : ContentEmbedding) (others : list ContentEmbedding) (e' : E) :
  embedContent t (env w)
    = (Resolved (mkResponse (Some (first :: others))), e') ->
  getEmbedding t r w
  = (JS.Normal (values first),
     mkWorld e' (chunks w) (trace w ++ [EvEmbedContent t])).
Proof.
  intros Hreply. apply getEmbedding_success.
  rewrite tryEmbed_reply, Hreply. reflexivity.
Qed.

End EmbeddingClient.

(** The provider answers [429 Too Many Requests] to the first attempt and
    a vector to the second: the call returns the vector after one pause
    of 1000 ms. *)
Lemma getEmbedding_retry_policy_witness :
  let w := Scripted.world [Scripted.rateLimit; Scripted.ok [1; 2]%float] [] in
  rateLimitSignal (JS.mkError (Some "429 Too Many Requests")) /\
  GeminiService.getEmbedding "q" GeminiService.defaultRetries w
  = (JS.Normal (Some [1; 2]%float),
     mkWorld (Scripted.mkState [] 0) []
       [EvEmbedContent "q"; EvTimeout 1000; EvEmbedContent "q"]).
Proof.
  intros w.
  assert (Hsignal : rateLimitSignal (JS.mkError (Some "429 Too Many Requests"))).
  { exists "429 Too Many Requests". split; [reflexivity |]. left.
    exists EmptyString, " Too Many Requests". reflexivity. }
  split; [exact Hsignal |].
  destruct (getEmbedding_retry_policy "q" w) as (_ & _ & _ & _ & _ & _ & Hretry).
  destruct (Hretry (JS.mkError (Some "429 Too Many Requests"))
              (mkWorld (Scripted.mkState [Scripted.ok [1; 2]%float] 0) []
                 [EvEmbedContent "q"])
              (Some [1; 2]%float)
              (mkWorld (Scripted.mkState [] 0) []
                 [EvEmbedContent "q"; EvTimeout 1000; EvEmbedContent "q"])
              eq_refl Hsignal eq_refl) as [Hrun _].
  exact Hrun.
Defined.

(** Three rate limits use the budget up: the third error is thrown. *)
Example getEmbedding_budget_used_up :
  let w := Scripted.world [Scripted.rateLimit; Scripted.rateLimit;
                           Scripted.rateLimit; Scripted.ok [1]%float] [] in
  fst (GeminiService.getEmbedding "q" GeminiService.defaultRetries w)
  = JS.Throw (JS.mkError (Some "429 Too Many Requests"))
  /\ trace (snd (GeminiService.getEmbedding "q" GeminiService.defaultRetries w))
     = attemptsTrace "q" 2
       ++ [EvConsoleError "Error generating embedding:"
             (JS.mkError (Some "429 Too Many Requests"))].
Proof. split; reflexivity. Qed.

(** An error that says [rate limit] is retried as well; one that says
    neither is not. *)
Example getEmbedding_rate_limit_message :
  let w := Scripted.world
             [Rejected (JS.mkError (Some "provider rate limit exceeded"));
              Scripted.ok [3]%float] [] in
  GeminiService.getEmbedding "q" GeminiService.defaultRetries w
  = (JS.Normal (Some [3]%float),
     mkWorld (Scripted.mkState [] 0) []
       [EvEmbedContent "q"; EvTimeout 1000; EvEmbedContent "q"]).
Proof. reflexivity. Qed.

Example getEmbedding_other_error :
  let w := Scripted.world [Scripted.failure; Scripted.ok [3]%float] [] in
  GeminiService.getEmbedding "q" GeminiService.defaultRetries w
  = (JS.Throw Scripted.networkError,
     mkWorld (Scripted.mkState [Scripted.ok [3]%float] 0) []
       [EvEmbedContent "q";
        EvConsoleError "Error generating embedding:" Scripted.networkError]).
Proof. reflexivity. Qed.
(** ** Array helpers *)

Section Arrays.

Context {A : Type}.

Lemma slice_nat (l : list A) (a b : nat) :
  JS.slice l (Z.of_nat a) (Z.of_nat b) = firstn (b - a) (skipn a l).
Proof.
  unfold JS.slice, JS.relIndex.
  destruct (Z.ltb_spec (Z.of_nat a) 0) as [Ha | _]; [lia |].
  destruct (Z.ltb_spec (Z.of_nat b) 0) as [Hb | _]; [lia |].
  destruct (Nat.le_gt_cases a (List.length l)) as [Hle | Hgt].
  - rewrite (Z.min_l (Z.of_nat a)) by lia. rewrite Nat2Z.id.
    destruct (Nat.le_gt_cases b (List.length l)) as [Hb | Hb].
    + rewrite Z.min_l by lia. f_equal. lia.
    + rewrite Z.min_r by lia.
      rewrite (firstn_all2 (n := b - a)) by (rewrite length_skipn; lia).
      apply firstn_all2. rewrite length_skipn. lia.
  - rewrite (skipn_all2 (n := a)) by lia. rewrite firstn_nil.
    rewrite (Z.min_r (Z.of_nat a)) by lia. rewrite Nat2Z.id, skipn_all.
    apply firstn_nil.
Qed.

Lemma slice_from_zero (l : list A) (k : Z) :
  (0 <= k)%Z -> JS.slice l 0 k = firstn (Z.to_nat k) l.
Proof.
  intros Hk. rewrite <- (Z2Nat.id k) at 1 by exact Hk.
  change 0%Z with (Z.of_nat 0). rewrite slice_nat.
  rewrite Nat.sub_0_r. reflexivity.
Qed.

(** Cutting a list into consecutive blocks of [step] loses nothing. *)
Lemma blocks_concat (step m : nat) (l : list A) :
  List.length l <= m * step ->
  List.concat (map (fun j => firstn step (skipn (j * step) l)) (seq 0 m)) = l.
Proof.
  revert l. induction m as [| m IH]; intros l Hlen.
  - simpl in *. destruct l; [reflexivity | simpl in Hlen; lia].
  - simpl seq. rewrite <- seq_shift. cbn [map]. rewrite map_map.
    cbn [List.concat]. rewrite Nat.mul_0_l. cbn [skipn].
    etransitivity; [| apply (firstn_skipn step l)]. f_equal.
    etransitivity;
      [| apply (IH (skipn step l)); rewrite length_skipn; lia].
    f_equal. apply map_ext. intros j.
    rewrite skipn_skipn. do 2 f_equal. lia.
Qed.

End Arrays.

(** ** Traces *)

Section Traces.

Lemma embedTexts_app (a b : list Event) :
  embedTexts (a ++ b) = embedTexts a ++ embedTexts b.
Proof.
  induction a as [| ev a IH]; [reflexivity |].
  destruct ev; simpl; rewrite IH; reflexivity.
Qed.

Lemma progressReports_app (a b : list Event) :
  progressReports (a ++ b) = progressReports a ++ progressReports b.
Proof.
  induction a as [| ev a IH]; [reflexivity |].
  destruct ev; simpl; rewrite IH; reflexivity.
Qed.

Lemma pauseCount_app (ms : Z) (a b : list Event) :
  pauseCount ms (a ++ b) = pauseCount ms a + pauseCount ms b.
Proof.
  induction a as [| ev a IH]; [reflexivity |].
  destruct ev; simpl; rewrite IH; lia.
Qed.

(** The order of the events does not matter to what is counted. *)
Lemma embedTexts_perm (a b : list Event) :
  Permutation a b -> Permutation (embedTexts a) (embedTexts b).
Proof.
  induction 1 as [| ev a b _ IH | x y a | a b c _ IH1 _ IH2].
  - constructor.
  - destruct ev; cbn; try exact IH. apply perm_skip. exact IH.
  - destruct x, y; cbn; try apply Permutation_refl. apply perm_swap.
  - etransitivity; eassumption.
Qed.

Lemma progressReports_perm (a b : list Event) :
  Permutation a b -> Permutation (progressReports a) (progressReports b).
Proof.
  induction 1 as [| ev a b _ IH | x y a | a b c _ IH1 _ IH2].
  - constructor.
  - destruct ev; cbn; try exact IH. apply perm_skip. exact IH.
  - destruct x, y; cbn; try apply Permutation_refl. apply perm_swap.
  - etransitivity; eassumption.
Qed.

Lemma pauseCount_perm (ms : Z) (a b : list Event) :
  Permutation a b -> pauseCount ms a = pauseCount ms b.
Proof.
  induction 1 as [| ev a b _ IH | x y a | a b c _ IH1 _ IH2].
  - reflexivity.
  - destruct ev; cbn; rewrite IH; reflexivity.
  - destruct x, y; cbn; lia.
  - congruence.
Qed.

Lemma attemptsTrace_calls (t : string) (k : nat) :
  embedTexts (attemptsTrace t k) = repeat t (S k)
  /\ progressReports (attemptsTrace t k) = []
  /\ pauseCount 1000 (attemptsTrace t k) = k
  /\ pauseCount 150 (attemptsTrace t k) = 0.
Proof.
  unfold attemptsTrace.
  assert (Hretries :
            embedTexts (List.concat (repeat [EvTimeout 1000; EvEmbedContent t] k))
            = repeat t k
            /\ progressReports
                 (List.concat (repeat [EvTimeout 1000; EvEmbedContent t] k)) = []
            /\ pauseCount 1000
                 (List.concat (repeat [EvTimeout 1000; EvEmbedContent t] k)) = k
            /\ pauseCount 150
                 (List.concat (repeat [EvTimeout 1000; EvEmbedContent t] k)) = 0).
  { induction k as [| k (IH1 & IH2 & IH3 & IH4)]; [repeat split |].
    cbn [repeat List.concat app embedTexts progressReports pauseCount].
    rewrite IH1, IH2, IH3, IH4. repeat split. }
  destruct Hretries as (H1 & H2 & H3 & H4).
  cbn [embedTexts progressReports pauseCount repeat].
  rewrite H1, H2, H3, H4. repeat split.
Qed.

Lemma combine_append {A B} (a b : list A) (c d : list B) :
  List.length a = List.length c ->
  combine (a ++ b) (c ++ d) = combine a c ++ combine b d.
Proof.
  revert c. induction a as [| x a IH]; intros [| y c] Hlen;
    try discriminate; [reflexivity |].
  cbn. f_equal. apply IH. injection Hlen as Hlen. exact Hlen.
Qed.

Lemma callsOf_app (a b : list (NewChunk * nat)) :
  callsOf (a ++ b) = callsOf a ++ callsOf b.
Proof. unfold callsOf. rewrite map_app, concat_app. reflexivity. Qed.

End Traces.

(** ** The vector store: [addChunks] *)

Section Ingestion.

Context {E : Type} `{RT : Runtime E}.

Import VectorStore.
Import GeminiService.

Lemma getEmbedding_chunks (t : string) (r : nat) (w : World E) :
  chunks (snd (GeminiService.getEmbedding t r w)) = chunks w.
Proof.
  destruct (getEmbedding_shape t r w) as (k & _ & Hch & _). exact Hch.
Qed.

(** *** The paths of [getEmbedding] and of the arrow function *)

Lemma tryEmbedP_follows (t : string) (evs : list Event)
    (c : JS.Completion (option (list float))) :
  follows (tryEmbedP t) evs c -> evs = [EvEmbedContent t].
Proof.
  unfold tryEmbedP, awaitEmbedContent. cbn [bindP follows].
  intros (reply & rest & -> & Hf). f_equal.
  destruct reply as [response | error]; cbn [bindP follows] in Hf.
  - destruct (embeddings response) as [[| first others] |]; cbn in Hf;
      destruct Hf as [-> _]; reflexivity.
  - destruct Hf as [-> _]. reflexivity.
Qed.

(** Along any path [getEmbedding] makes [k <= retries] retries, each
    after its timer, and logs the error it throws. *)
Lemma getEmbeddingP_follows (t : string) (r : nat) (evs : list Event)
    (c : JS.Completion (option (list float))) :
  follows (getEmbeddingP t r) evs c ->
  exists k,
    k <= r /\
    evs = attemptsTrace t k
          ++ match c with
             | JS.Normal _ => []
             | JS.Throw e => [EvConsoleError "Error generating embedding:" e]
             end.
Proof.
  revert evs. induction r as [| r IH]; intros evs Hf; cbn [getEmbeddingP] in Hf;
    apply follows_tryCatch in Hf;
    destruct Hf as [(a & -> & Ha) | (error & before & after & Hb & Hh & ->)].
  - apply tryEmbedP_follows in Ha. subst evs. exists 0. split; [lia | reflexivity].
  - apply tryEmbedP_follows in Hb. subst before.
    cbn in Hh. destruct Hh as (rest & -> & -> & ->).
    exists 0. split; [lia | reflexivity].
  - apply tryEmbedP_follows in Ha. subst evs. exists 0. split; [lia | reflexivity].
  - apply tryEmbedP_follows in Hb. subst before.
    destruct (rateLimited error).
    + cbn [awaitTimeout bindP follows] in Hh.
      destruct Hh as (rest & -> & Hrest).
      destruct (IH rest Hrest) as (k & Hk & ->).
      exists (S k). split; [lia | reflexivity].
    + cbn in Hh. destruct Hh as (rest & -> & -> & ->).
      exists 0. split; [lia | reflexivity].
Qed.

Lemma getEmbeddingP_awaits (t : string) (r : nat) :
  awaitsWithin (2 * r + 1) (getEmbeddingP t r).
Proof.
  assert (Hattempt : awaitsWithin 1 (tryEmbedP t)).
  { unfold tryEmbedP, awaitEmbedContent. cbn [bindP awaitsWithin].
    intros [response | error]; cbn [bindP awaitsWithin]; [| exact I].
    destruct (embeddings response) as [[| first others] |]; exact I. }
  induction r as [| r IH]; cbn [getEmbeddingP].
  - apply (awaitsWithin_tryCatch _ _ 1 0); [exact Hattempt |].
    intros error. exact I.
  - apply (awaitsWithin_mono _ (1 + (2 * r + 2))); [| lia].
    apply awaitsWithin_tryCatch; [exact Hattempt |].
    intros error. destruct (rateLimited error).
    + cbn [awaitTimeout bindP awaitsWithin].
      replace (2 * r + 2) with (S (2 * r + 1)) by lia. exact IH.
    + exact I.
Qed.

(** The arrow function with how its embedding call ended, and that of
    [addChunks], do the same. *)
Lemma embedCall_sim (c : NewChunk) : simP snd (embedCall c) (embedChunk c).
Proof.
  unfold embedCall, embedChunk. apply simP_tryCatch.
  - apply simP_bind. intros embedding. unfold newUUID. cbn [bindP].
    constructor. intros u. apply (simP_return snd).
  - intros err. unfold logError. cbn [bindP]. constructor.
    apply (simP_return snd).
Qed.

Lemma embedCall_awaits (c : NewChunk) :
  awaitsWithin embedChunkAwaits (embedCall c).
Proof.
  unfold embedCall, embedChunkAwaits.
  apply (awaitsWithin_tryCatch _ _ 5 0).
  - apply (awaitsWithin_bind _ _ 5 0).
    + apply (getEmbeddingP_awaits (newText c) 2).
    + intros embedding. cbn. intros u. exact I.
  - intros err. exact I.
Qed.

(** A run of the arrow function: the events it left and how it ended. *)
Let ranAs (c : NewChunk)
    (run : list Event
           * (JS.Completion (option (list float)) * option DocumentChunk))
  : Prop :=
  follows (embedCall c) (fst run) (JS.Normal (snd run)).

Let callOf
    (run : list Event
           * (JS.Completion (option (list float)) * option DocumentChunk)) :=
  fst (snd run).

Let outcome
    (run : list Event
           * (JS.Completion (option (list float)) * option DocumentChunk)) :=
  snd (snd run).

(** The arrow function never throws.  Its value is the chunk, with what
    the embedding call returned for embedding, when the call returned, and
    [null] when the call threw; the call was made of [k <= 2] retries. *)
Lemma embedCall_follows (c : NewChunk) (evs : list Event)
    (res : JS.Completion
             (JS.Completion (option (list float)) * option DocumentChunk)) :
  follows (embedCall c) evs res ->
  exists k call o,
    k <= 2 /\
    res = JS.Normal (call, o) /\
    follows (getEmbeddingP (newText c) defaultRetries)
      (attemptsTrace (newText c) k
       ++ match call with
          | JS.Normal _ => []
          | JS.Throw e => [EvConsoleError "Error generating embedding:" e]
          end) call /\
    match call with
    | JS.Normal embedding =>
        evs = attemptsTrace (newText c) k /\
        exists u, o = Some (mkDocumentChunk u (newDocumentId c)
                              (newDocumentName c) (newText c) embedding)
    | JS.Throw err =>
        evs = attemptsTrace (newText c) k
              ++ [EvConsoleError "Error generating embedding:" err;
                  EvConsoleError
                    (String.append "Failed to embed chunk of " (newDocumentName c))
                    err] /\
        o = None
    end.
Proof.
  unfold embedCall. intros Hf. apply follows_tryCatch in Hf.
  destruct Hf as [(a & -> & Ha) | (error & before & after & Hb & Hh & ->)].
  - apply follows_bind in Ha.
    destruct Ha as [(error & Habs & _) | (embedding & before & after & Hb & Hh & ->)];
      [discriminate |].
    cbn in Hh. destruct Hh as (u & -> & Heq). injection Heq as ->.
    destruct (getEmbeddingP_follows _ _ _ _ Hb) as (k & Hk & Hevs).
    exists k, (JS.Normal embedding), (Some (mkDocumentChunk u (newDocumentId c)
                              (newDocumentName c) (newText c) embedding)).
    split; [exact Hk |]. split; [reflexivity |].
    rewrite <- Hevs. split; [exact Hb |]. rewrite Hevs, !app_nil_r.
    split; [reflexivity |]. exists u. reflexivity.
  - apply follows_bind in Hb.
    destruct Hb as [(err & Heq & Hb) | (embedding & b & a & _ & Hh' & _)].
    + injection Heq as <-.
      cbn in Hh. destruct Hh as (rest & -> & -> & ->).
      destruct (getEmbeddingP_follows _ _ _ _ Hb) as (k & Hk & Hevs).
      exists k, (JS.Throw error), None.
      split; [exact Hk |]. split; [reflexivity |].
      rewrite <- Hevs. split; [exact Hb |]. rewrite Hevs, <- app_assoc.
      split; reflexivity.
    + cbn in Hh'. destruct Hh' as (u & _ & Habs). discriminate.
Qed.

Lemma embedCall_never_throws (c : NewChunk) (evs : list Event)
    (error : JS.Error) :
  follows (embedCall c) evs (JS.Throw error) -> False.
Proof.
  intros Hf. destruct (embedCall_follows c evs _ Hf) as (k & call & o & _ & Habs & _).
  discriminate.
Qed.

(** What a run tells: of the provider calls, and of the value. *)
Lemma ranAs_calls (c : NewChunk)
    (run : list Event
           * (JS.Completion (option (list float)) * option DocumentChunk)) :
  ranAs c run ->
  exists k,
    k <= 2 /\
    embedTexts (fst run) = repeat (newText c) (S k) /\
    progressReports (fst run) = [] /\
    pauseCount 150 (fst run) = 0.
Proof.
  unfold ranAs. intros Hf.
  destruct (embedCall_follows c _ _ Hf) as (k & call & o & Hk & _ & _ & Hcase).
  destruct (attemptsTrace_calls (newText c) k) as (H1 & H2 & _ & H4).
  exists k. split; [exact Hk |].
  destruct call as [embedding | err]; destruct Hcase as [-> _].
  - auto.
  - rewrite embedTexts_app, progressReports_app, pauseCount_app, H1, H2, H4.
    cbn. rewrite app_nil_r. auto.
Qed.

Lemma ranAs_outcome (c : NewChunk)
    (run : list Event
           * (JS.Completion (option (list float)) * option DocumentChunk)) :
  ranAs c run ->
  (exists evs,
      follows (getEmbeddingP (newText c) defaultRetries) evs (callOf run)) /\
  match callOf run with
  | JS.Normal embedding =>
      exists u, outcome run
                = Some (mkDocumentChunk u (newDocumentId c) (newDocumentName c)
                          (newText c) embedding)
  | JS.Throw _ => outcome run = None
  end.
Proof.
  unfold ranAs, callOf, outcome. intros Hf.
  destruct (embedCall_follows c _ _ Hf) as (k & call & o & _ & Heq & Hg & Hcase).
  injection Heq as Heq. rewrite Heq. cbn [fst snd].
  split; [eexists; exact Hg |].
  destruct call as [embedding | err]; apply Hcase.
Qed.

Lemma runs_calls (batch : list NewChunk)
    (runs : list (list Event
                  * (JS.Completion (option (list float)) * option DocumentChunk))) :
  Forall2 ranAs batch runs ->
  exists ks,
    List.length ks = List.length batch /\
    Forall (fun k => k <= 2) ks /\
    embedTexts (List.concat (map fst runs)) = callsOf (combine batch ks) /\
    progressReports (List.concat (map fst runs)) = [] /\
    pauseCount 150 (List.concat (map fst runs)) = 0.
Proof.
  induction 1 as [| c run batch runs Hrun _ (ks & Hlen & Hks & H1 & H2 & H3)].
  - exists []. repeat split. constructor.
  - destruct (ranAs_calls c run Hrun) as (k & Hk & G1 & G2 & G3).
    exists (k :: ks). cbn [map List.concat List.length combine].
    rewrite embedTexts_app, progressReports_app, pauseCount_app.
    rewrite H1, H2, H3, G1, G2, G3.
    split; [congruence |]. split; [constructor; assumption |].
    repeat split.
Qed.

(** *** A batch *)

(** [batch.map(async ...)] sends the first request of every chunk of the
    batch, in input order, before anything else happens. *)
Lemma startP_embedCall (c : NewChunk) (w : World E) :
  trace (snd (startP (embedCall c) w)) = trace w ++ [EvEmbedContent (newText c)].
Proof.
  unfold embedCall, defaultRetries.
  cbn [getEmbeddingP tryEmbedP awaitEmbedContent bindP tryCatchP startP].
  destruct (embedContent (newText c) (env w)) as [reply e']. reflexivity.
Qed.

Lemma startAll_requests (batch : list NewChunk) (w : World E) :
  trace (snd (startAll (map embedCall batch) w))
  = trace w ++ map EvEmbedContent (map newText batch).
Proof.
  revert w. induction batch as [| c batch IH]; intros w.
  - cbn. rewrite app_nil_r. reflexivity.
  - cbn [map startAll].
    pose proof (startP_embedCall c w) as Hc.
    destruct (startP (embedCall c) w) as [task w1]. cbn [snd] in Hc.
    specialize (IH w1).
    destruct (startAll (map embedCall batch) w1) as [[tasks | error] w2];
      cbn [snd] in *; rewrite IH, Hc, <- app_assoc; reflexivity.
Qed.

Lemma Forall2_map_left {A B C} (f : A -> B) (R : B -> C -> Prop)
    (l : list A) (l' : list C) :
  Forall2 R (map f l) l' -> Forall2 (fun a c => R (f a) c) l l'.
Proof.
  revert l'. induction l as [| a l IH]; intros l' Hall; inversion Hall; subst;
    constructor; auto.
Qed.

(** The promises of a batch all settle, in whatever order the event loop
    takes them; [results] has the value of every call, in input order. *)
Lemma batch_run (batch : list NewChunk) (w : World E) :
  exists tasks' tasks w1 runs later w',
    startAll (map embedCall batch) w = (JS.Normal tasks', w1) /\
    promiseAll embedChunkAwaits tasks' w1 = (JS.Normal (map snd runs), w') /\
    startAll (map embedChunk batch) w = (JS.Normal tasks, w1) /\
    promiseAll embedChunkAwaits tasks w1 = (JS.Normal (map outcome runs), w') /\
    chunks w' = chunks w /\
    trace w' = trace w ++ map EvEmbedContent (map newText batch) ++ later /\
    Permutation (map EvEmbedContent (map newText batch) ++ later)
      (List.concat (map fst runs)) /\
    Forall2 ranAs batch runs.
Proof.
  destruct (promiseAll_settles embedChunkAwaits (map embedCall batch) w)
    as (tasks' & w1 & runs & w' & Hs & Hp & Hch
        & (started & later & Ht1 & Ht2 & Hperm) & Hall).
  { apply Forall_forall. intros p Hin.
    apply in_map_iff in Hin. destruct Hin as (c & <- & _).
    apply embedCall_awaits. }
  { intros p evs error Hin Hf.
    apply in_map_iff in Hin. destruct Hin as (c & <- & _).
    exact (embedCall_never_throws c evs error Hf). }
  destruct (startAll_sim snd (map embedCall batch) (map embedChunk batch) w)
    as (t1 & tasks & w1' & H1 & H2 & Hsim).
  { clear. induction batch as [| c batch IH]; constructor;
      [apply embedCall_sim | exact IH]. }
  rewrite Hs in H1. injection H1 as <- <-.
  pose proof (promiseAll_sim snd _ tasks' tasks w1 _ w' Hsim Hp) as Hp2.
  rewrite map_map in Hp2.
  pose proof (startAll_requests batch w) as Hreq. rewrite Hs in Hreq.
  cbn [snd] in Hreq. rewrite Hreq in Ht1. apply app_inv_head in Ht1. subst started.
  exists tasks', tasks, w1, runs, later, w'.
  split; [exact Hs |]. split; [exact Hp |]. split; [exact H2 |].
  split; [exact Hp2 |]. split; [exact Hch |].
  split; [rewrite Ht2, Hreq, <- app_assoc; reflexivity |].
  split; [exact Hperm |].
  apply Forall2_map_left in Hall. exact Hall.
Qed.

Lemma validResults_app (a b : list (option DocumentChunk)) :
  validResults (a ++ b) = validResults a ++ validResults b.
Proof.
  induction a as [| [d |] a IH]; simpl; [reflexivity | f_equal; exact IH | exact IH].
Qed.

Lemma validResults_length (outs : list (option DocumentChunk)) :
  List.length (validResults outs) = List.length (filter isSome outs).
Proof.
  induction outs as [| [d |] outs IH]; simpl; auto.
Qed.

Lemma validResults_none (outs : list (option DocumentChunk)) :
  Forall (fun o => o = None) outs -> validResults outs = [].
Proof.
  induction 1 as [| o outs Ho _ IH]; [reflexivity |].
  subst o. exact IH.
Qed.

Lemma validResults_some (outs : list (option DocumentChunk)) :
  Exists (fun o => o <> None) outs -> validResults outs <> [].
Proof.
  induction 1 as [o outs Ho | o outs _ IH].
  - destruct o as [d |]; [discriminate | congruence].
  - destruct o as [d |]; [discriminate | exact IH].
Qed.

Lemma forEachM_cons {St} (body : nat -> St -> M E St) (i : nat)
    (rest : list nat) (s : St) (w : World E) :
  forEachM body (i :: rest) s w =
  match body i s w with
  | (JS.Normal s', w') => forEachM body rest s' w'
  | (JS.Throw e, w') => (JS.Throw e, w')
  end.
Proof. reflexivity. Qed.

(** The events of an iteration after those of its batch. *)
Let reported (input : list NewChunk) (onProgress : bool) (i : nat)
  : list Event :=
  (if onProgress
   then [EvProgress (Nat.min (i + BATCH_SIZE) (List.length input))
           (List.length input)]
   else []) ++ [EvTimeout 150].

(** One iteration: the batch is embedded, progress is reported, the
    loop pauses. *)
Lemma addChunks_iteration (input : list NewChunk) (onProgress : bool)
    (i : nat) (acc : list DocumentChunk)
    (oacc : list (option DocumentChunk))
    (cacc : list (JS.Completion (option (list float)))) (w : World E) :
  exists runs later w',
    embedCallsBody input onProgress i cacc w
      = (JS.Normal (cacc ++ map callOf runs), w') /\
    embedOutcomesBody input onProgress i oacc w
      = (JS.Normal (oacc ++ map outcome runs), w') /\
    addChunksBody input onProgress i acc w
      = (JS.Normal (acc ++ validResults (map outcome runs)), w') /\
    chunks w' = chunks w /\
    Forall2 ranAs (batchAt input i) runs /\
    trace w' = trace w
               ++ (map EvEmbedContent (map newText (batchAt input i)) ++ later)
               ++ reported input onProgress i /\
    Permutation (map EvEmbedContent (map newText (batchAt input i)) ++ later)
      (List.concat (map fst runs)).
Proof.
  destruct (batch_run (batchAt input i) w)
    as (tasks' & tasks & w1 & runs & later & w2
        & Hs' & Hp' & Hs & Hp & Hch & Ht & Hperm & Hall).
  exists runs, later.
  unfold embedCallsBody, embedOutcomesBody, addChunksBody, bind.
  rewrite Hs', Hp', Hs, Hp, map_map. unfold reported.
  destruct onProgress; cbn [emit ret sleep]; eexists;
    (split; [reflexivity |]); (split; [reflexivity |]);
    (split; [reflexivity |]); cbn [chunks trace];
    (split; [exact Hch |]); (split; [exact Hall |]);
    (split; [| exact Hperm]); rewrite Ht, <- !app_assoc; reflexivity.
Qed.

(** The loop of [addChunks], the list of its outcomes and the list of
    how its embedding calls ended run side by side: same final world;
    the chunks kept are the outcomes that are not [null]. *)
Lemma addChunks_loop (input : list NewChunk) (onProgress : bool)
    (idxs : list nat) (acc : list DocumentChunk)
    (oacc : list (option DocumentChunk))
    (cacc : list (JS.Completion (option (list float)))) (w : World E) :
  exists runs ks added w',
    forEachM (embedCallsBody input onProgress) idxs cacc w
      = (JS.Normal (cacc ++ map callOf runs), w') /\
    forEachM (embedOutcomesBody input onProgress) idxs oacc w
      = (JS.Normal (oacc ++ map outcome runs), w') /\
    forEachM (addChunksBody input onProgress) idxs acc w
      = (JS.Normal (acc ++ validResults (map outcome runs)), w') /\
    chunks w' = chunks w /\
    Forall2 ranAs (List.concat (map (batchAt input) idxs)) runs /\
    List.length ks = List.length (List.concat (map (batchAt input) idxs)) /\
    Forall (fun k => k <= 2) ks /\
    trace w' = trace w ++ added /\
    Permutation (embedTexts added)
      (callsOf (combine (List.concat (map (batchAt input) idxs)) ks)) /\
    progressReports added =
      (if onProgress
       then map (fun i => (Nat.min (i + BATCH_SIZE) (List.length input),
                           List.length input)) idxs
       else []) /\
    pauseCount 150 added = List.length idxs /\
    exists rest,
      added = map EvEmbedContent
                (map newText (match idxs with
                              | [] => []
                              | i :: _ => batchAt input i
                              end)) ++ rest.
Proof.
  revert acc oacc cacc w.
  induction idxs as [| i idxs IH]; intros acc oacc cacc w.
  - exists [], [], [], w. cbn. rewrite !app_nil_r.
    repeat split; try constructor. + destruct onProgress; reflexivity.
    + exists []. reflexivity.
  - destruct (addChunks_iteration input onProgress i acc oacc cacc w)
      as (runs1 & later & w1 & Hc1 & Ho1 & Ha1 & Hch1 & Hall1 & Ht1 & Hperm1).
    destruct (IH (acc ++ validResults (map outcome runs1))
                (oacc ++ map outcome runs1) (cacc ++ map callOf runs1) w1)
      as (runs2 & ks2 & added2 & w2 & Hc2 & Ho2 & Ha2 & Hch2 & Hall2
          & Hlen2 & Hks2 & Ht2 & Hcalls2 & Hprog2 & Hpause2 & _).
    destruct (runs_calls _ _ Hall1) as (ks1 & Hlen1 & Hks1 & G1 & G2 & G3).
    pose proof (embedTexts_perm _ _ Hperm1) as P1.
    pose proof (progressReports_perm _ _ Hperm1) as P2.
    pose proof (pauseCount_perm 150 _ _ Hperm1) as P3.
    rewrite G1 in P1. rewrite G2 in P2. rewrite G3 in P3.
    apply Permutation_sym, Permutation_nil in P2.
    assert (Hfirst : exists rest,
               (map EvEmbedContent (map newText (batchAt input i)) ++ later)
               ++ reported input onProgress i ++ added2
               = map EvEmbedContent (map newText (batchAt input i)) ++ rest).
    { rewrite <- app_assoc. eexists. reflexivity. }
    set (events := map EvEmbedContent (map newText (batchAt input i)) ++ later) in *.
    exists (runs1 ++ runs2), (ks1 ++ ks2),
      (events ++ reported input onProgress i ++ added2), w2.
    rewrite !forEachM_cons, Hc1, Ho1, Ha1, Hc2, Ho2, Ha2.
    rewrite !map_app, validResults_app, <- !app_assoc.
    split; [reflexivity |]. split; [reflexivity |]. split; [reflexivity |].
    split; [congruence |].
    cbn [map List.concat].
    split; [apply Forall2_app; assumption |].
    split; [rewrite !length_app; congruence |].
    split; [apply Forall_app; split; assumption |].
    split; [rewrite Ht2, Ht1, <- !app_assoc; reflexivity |].
    rewrite !embedTexts_app, !progressReports_app, !pauseCount_app.
    rewrite P2, P3, Hprog2, Hpause2.
    split.
    { rewrite combine_append by (symmetry; exact Hlen1). rewrite callsOf_app.
      replace (embedTexts (reported input onProgress i)) with (@nil string)
        by (unfold reported; destruct onProgress; reflexivity).
      cbn [app]. apply Permutation_app; assumption. }
    split; [unfold reported; destruct onProgress; reflexivity |].
    split; [unfold reported; destruct onProgress; reflexivity |].
    exact Hfirst.
Qed.

Lemma forIndices_covers (input : list NewChunk) :
  List.concat (map (batchAt input) (forIndices (List.length input) BATCH_SIZE))
  = input.
Proof.
  unfold forIndices. rewrite map_map.
  rewrite (map_ext _ (fun j => firstn BATCH_SIZE (skipn (j * BATCH_SIZE) input))).
  - apply blocks_concat. unfold BATCH_SIZE. simpl Nat.sub.
    pose proof (Nat.div_mod_eq (List.length input + 4) 5) as Hd.
    pose proof (Nat.mod_upper_bound (List.length input + 4) 5) as Hm. lia.
  - intros j. unfold batchAt. rewrite slice_nat. f_equal. lia.
Qed.

Lemma forIndices_first (input : list NewChunk) :
  match forIndices (List.length input) BATCH_SIZE with
  | [] => []
  | i :: _ => batchAt input i
  end = firstn BATCH_SIZE input.
Proof.
  destruct input as [| c input]; [reflexivity |].
  unfold forIndices, BATCH_SIZE. cbn [Nat.sub List.length].
  destruct ((S (List.length input) + 4) / 5) as [| m] eqn:Hd.
  - apply Nat.div_small_iff in Hd; lia.
  - cbn [seq map]. unfold batchAt. rewrite slice_nat. reflexivity.
Qed.

(** The run of [addChunks] in terms of the runs of its arrow function,
    of which there is one per input chunk, in input order. *)
Lemma addChunks_run (input : list NewChunk) (onProgress : bool) (w : World E) :
  exists runs ks added w',
    Forall2 ranAs input runs /\
    embedCalls input onProgress w = map callOf runs /\
    embedOutcomes input onProgress w = map outcome runs /\
    chunks w' = chunks w /\
    trace w' = trace w ++ added /\
    addChunks input onProgress w =
      (if (List.length (validResults (map outcome runs)) =? 0)
          && (0 <? List.length input)
       then (JS.Throw (JS.mkError (Some failedMessage)), w')
       else (JS.Normal tt,
             mkWorld (env w') (chunks w ++ validResults (map outcome runs))
               (trace w'))) /\
    List.length ks = List.length input /\
    Forall (fun k => k <= 2) ks /\
    Permutation (embedTexts added) (callsOf (combine input ks)) /\
    progressReports added =
      (if onProgress
       then map (fun i => (Nat.min (i + BATCH_SIZE) (List.length input),
                           List.length input))
              (forIndices (List.length input) BATCH_SIZE)
       else []) /\
    pauseCount 150 added
      = List.length (forIndices (List.length input) BATCH_SIZE) /\
    exists rest,
      added = map EvEmbedContent (map newText (firstn BATCH_SIZE input)) ++ rest.
Proof.
  destruct (addChunks_loop input onProgress
              (forIndices (List.length input) BATCH_SIZE) [] [] [] w)
    as (runs & ks & added & w' & Hc & Ho & Ha & Hch & Hall & Hlen & Hks & Ht
        & Hcalls & Hprog & Hpause & Hfirst).
  rewrite forIndices_covers in Hall, Hlen, Hcalls.
  rewrite forIndices_first in Hfirst.
  exists runs, ks, added, w'.
  split; [exact Hall |].
  split; [unfold embedCalls; rewrite Hc; reflexivity |].
  split; [unfold embedOutcomes; rewrite Ho; reflexivity |].
  split; [exact Hch |]. split; [exact Ht |].
  split.
  { unfold addChunks, bind. rewrite Ha. cbn [app].
    destruct ((List.length (validResults (map outcome runs)) =? 0)
              && (0 <? List.length input)).
    - reflexivity.
    - unfold getChunks, setChunks. rewrite Hch. reflexivity. }
  repeat (split; [assumption |]). exact Hfirst.
Qed.

(** The outcome of a call is the chunk when the embedding call
    returned. *)
Lemma runs_outcomes (input : list NewChunk)
    (runs : list (list Event
                  * (JS.Completion (option (list float)) * option DocumentChunk))) :
  Forall2 ranAs input runs ->
  Forall2 outcomeOf input (map outcome runs) /\
  Forall2 (fun c call =>
             exists evs,
               follows (getEmbeddingP (newText c) defaultRetries) evs call)
    input (map callOf runs) /\
  Forall2 (fun call o => returned call = isSome o)
    (map callOf runs) (map outcome runs) /\
  List.length (validResults (map outcome runs))
    = List.length (filter returned (map callOf runs)) /\
  Forall2 storedFor (survivors input (map callOf runs))
    (validResults (map outcome runs)).
Proof.
  unfold survivors.
  induction 1 as [| c run input runs Hrun _ (H1 & H2 & H3 & H4 & H5)].
  - repeat split; constructor.
  - destruct (ranAs_outcome c run Hrun) as [Hpath Hcase].
    cbn [map combine flat_map fst snd].
    destruct (callOf run) as [embedding | err] eqn:Hcall.
    + destruct Hcase as [u Hu]. rewrite Hu.
      cbn [validResults filter returned List.length app].
      split; [constructor; [repeat split | exact H1] |].
      split; [constructor; [exact Hpath | exact H2] |].
      split; [constructor; [reflexivity | exact H3] |].
      split; [congruence |].
      constructor; [| exact H5]. repeat split.
    + rewrite Hcase. cbn [validResults filter returned app].
      split; [constructor; [exact I | exact H1] |].
      split; [constructor; [exact Hpath | exact H2] |].
      split; [constructor; [reflexivity | exact H3] |].
      split; assumption.
Qed.

(** C1: when the batch is not empty and the embedding call of every
    chunk fails, [addChunks] throws its aggregate error and leaves
    [this.chunks], hence [getChunkCount()], as it was. *)
Theorem addChunks_all_fail (input : list NewChunk) (onProgress : bool)
    (w : World E) :
  input <> [] ->
  Forall (fun o => o = None) (embedOutcomes input onProgress w) ->
  List.length (embedOutcomes input onProgress w) = List.length input /\
  fst (addChunks input onProgress w)
    = JS.Throw (JS.mkError (Some failedMessage)) /\
  chunks (snd (addChunks input onProgress w)) = chunks w /\
  getChunkCount (snd (addChunks input onProgress w)) = getChunkCount w.
Proof.
  intros Hne Hfail.
  destruct (addChunks_run input onProgress w)
    as (runs & ks & added & w' & Hall & _ & Houts & Hch & _ & Hrun & _).
  rewrite Houts in *.
  split; [rewrite length_map; symmetry; eapply Forall2_length; exact Hall |].
  rewrite Hrun, (validResults_none _ Hfail).
  destruct input as [| c rest]; [congruence |]. simpl.
  unfold getChunkCount. simpl. rewrite Hch. auto.
Qed.

(** C2: when the call of [getEmbedding] for at least one chunk of the
    input returns, whatever the order in which the calls of a batch
    complete, [addChunks] returns normally; [this.chunks] grows at its
    end by one chunk for every input chunk whose call returned, so
    [getChunkCount()] grows by the number of these; and the chunks
    appended are these input chunks, in input order, each with what
    its call returned as embedding.  Every entry of [embedCalls] is how
    a call of [getEmbedding] on the text of its chunk can end, and the
    entries that returned are those whose outcome is not [null]. *)
Theorem addChunks_partial_failure (input : list NewChunk) (onProgress : bool)
    (w : World E) :
  Exists (fun call => returned call = true) (embedCalls input onProgress w) ->
  let calls := embedCalls input onProgress w in
  let outs := embedOutcomes input onProgress w in
  let w' := snd (addChunks input onProgress w) in
  List.length calls = List.length input /\
  List.length outs = List.length input /\
  Forall2 (fun c call =>
             exists evs,
               follows (getEmbeddingP (newText c) defaultRetries) evs call)
    input calls /\
  Forall2 (fun call o => returned call = isSome o) calls outs /\
  fst (addChunks input onProgress w) = JS.Normal tt /\
  chunks w' = chunks w ++ validResults outs /\
  getChunkCount w' = getChunkCount w + List.length (filter returned calls) /\
  Forall2 storedFor (survivors input calls) (validResults outs).
Proof.
  intros Hsome calls outs w'.
  destruct (addChunks_run input onProgress w)
    as (runs & ks & added & w1 & Hall & Hcalls & Houts & Hch & _ & Hrun & _).
  unfold calls, outs, w' in *. clear calls outs w'.
  rewrite Hcalls, Houts in *.
  destruct (runs_outcomes input runs Hall) as (H1 & H2 & H3 & H4 & H5).
  assert (Hlen : (List.length (validResults (map outcome runs)) =? 0) = false).
  { apply Nat.eqb_neq. rewrite H4. clear - Hsome.
    induction Hsome as [call l Hcall | call l _ IH]; cbn [filter].
    - rewrite Hcall. cbn. lia.
    - destruct (returned call); cbn; lia. }
  rewrite Hlen in Hrun. cbn [andb] in Hrun.
  pose proof (Forall2_length Hall) as Hn.
  split; [rewrite length_map; congruence |].
  split; [rewrite length_map; congruence |].
  split; [exact H2 |]. split; [exact H3 |].
  rewrite Hrun. cbn [fst snd chunks]. split; [reflexivity |].
  split; [reflexivity |]. split; [| exact H5].
  unfold getChunkCount. cbn [chunks]. rewrite length_app, H4. reflexivity.
Qed.

(** C10: on an empty batch [addChunks] returns normally and the world is
    as before: [this.chunks] is unchanged and the trace has no new event,
    so no embedding call, no progress callback and no pause took
    place. *)
Theorem addChunks_empty_batch (onProgress : bool) (w : World E) :
  addChunks [] onProgress w = (JS.Normal tt, w) /\
  getChunkCount (snd (addChunks [] onProgress w)) = getChunkCount w /\
  trace (snd (addChunks [] onProgress w)) = trace w /\
  env (snd (addChunks [] onProgress w)) = env w.
Proof.
  assert (Hrun : addChunks [] onProgress w = (JS.Normal tt, w)).
  { destruct w as [e cs tr]. unfold addChunks, bind. simpl.
    unfold setChunks. simpl. rewrite app_nil_r. reflexivity. }
  rewrite Hrun. auto.
Qed.

End Ingestion.

(** Two chunks, both embedding calls fail (the second after a rate
    limit and a retry): the error is thrown and the stored chunk is still
    the only one. *)
Lemma addChunks_all_fail_witness :
  let input := [Scripted.chunkOf "one"; Scripted.chunkOf "two"] in
  let w := Scripted.world [Scripted.failure; Scripted.rateLimit; Scripted.failure]
             [Scripted.storedChunk] in
  fst (VectorStore.addChunks input true w) = JS.Throw (JS.mkError (Some VectorStore.failedMessage)) /\
  chunks (snd (VectorStore.addChunks input true w)) = [Scripted.storedChunk] /\
  VectorStore.getChunkCount (snd (VectorStore.addChunks input true w)) = 1.
Proof.
  intros input w.
  assert (Hne : input <> []) by discriminate.
  assert (Hfail : Forall (fun o => o = None) (VectorStore.embedOutcomes input true w))
    by (vm_compute; repeat constructor).
  destruct (addChunks_all_fail input true w Hne Hfail) as (_ & Hthrow & Hch & Hcount).
  exact (conj Hthrow (conj Hch Hcount)).
Defined.

(** Five chunks whose requests are answered in the reverse order, the
    second and the fourth with an error: three chunks are appended after
    the stored one, in input order, though the fifth was made first and
    the first last, as their identifiers show. *)
Lemma addChunks_partial_failure_witness :
  let w := Shuffled.world
             [Scripted.ok [1; 2]%float; Scripted.failure;
              Scripted.ok [3; 4]%float; Scripted.failure;
              Scripted.ok [5; 6]%float] [4; 3; 2; 1; 0] [Scripted.storedChunk] in
  let w' := snd (VectorStore.addChunks Scripted.fiveChunks true w) in
  embedCalls Scripted.fiveChunks true w
    = [JS.Normal (Some [1; 2]%float); JS.Throw Scripted.networkError;
       JS.Normal (Some [3; 4]%float); JS.Throw Scripted.networkError;
       JS.Normal (Some [5; 6]%float)] /\
  fst (VectorStore.addChunks Scripted.fiveChunks true w) = JS.Normal tt /\
  VectorStore.getChunkCount w' = 1 + 3 /\
  map text (chunks w') = ["stored"; "one"; "three"; "five"] /\
  map embedding (chunks w')
    = [Some [1; 0]%float; Some [1; 2]%float; Some [3; 4]%float; Some [5; 6]%float] /\
  map id (chunks w') = ["uuid-s"; "uuid-2"; "uuid-1"; "uuid-0"].
Proof.
  intros w w'.
  assert (Hcalls : embedCalls Scripted.fiveChunks true w
                   = [JS.Normal (Some [1; 2]%float); JS.Throw Scripted.networkError;
                      JS.Normal (Some [3; 4]%float); JS.Throw Scripted.networkError;
                      JS.Normal (Some [5; 6]%float)]) by reflexivity.
  assert (Hsome : Exists (fun call => returned call = true)
                    (embedCalls Scripted.fiveChunks true w))
    by (rewrite Hcalls; apply Exists_cons_hd; reflexivity).
  destruct (addChunks_partial_failure Scripted.fiveChunks true w Hsome)
    as (_ & _ & _ & _ & Hok & _ & Hcount & _).
  split; [exact Hcalls |]. split; [exact Hok |].
  split; [exact Hcount |].
  repeat split.
Defined.

(** The same run step by step: the five requests go out first, in input
    order; the errors of the fourth and of the second chunk are logged as
    their replies come; then progress is reported and the loop pauses. *)
Example addChunks_reverse_order_trace :
  trace (snd (VectorStore.addChunks Scripted.fiveChunks true
                (Shuffled.world
                   [Scripted.ok [1; 2]%float; Scripted.failure;
                    Scripted.ok [3; 4]%float; Scripted.failure;
                    Scripted.ok [5; 6]%float] [4; 3; 2; 1; 0]
                   [Scripted.storedChunk])))
  = [EvEmbedContent "one"; EvEmbedContent "two"; EvEmbedContent "three";
     EvEmbedContent "four"; EvEmbedContent "five";
     EvConsoleError "Error generating embedding:" Scripted.networkError;
     EvConsoleError "Failed to embed chunk of a.txt" Scripted.networkError;
     EvConsoleError "Error generating embedding:" Scripted.networkError;
     EvConsoleError "Failed to embed chunk of a.txt" Scripted.networkError;
     EvProgress 5 5; EvTimeout 150].
Proof. reflexivity. Qed.

(** C7 at a reply whose only embedding has no component: the guard of
    [getEmbedding] looks at the list of embeddings, not at the values of
    its first element, and the call returns the empty array after one
    attempt, without error. *)
Theorem getEmbedding_empty_vector :
  GeminiService.getEmbedding "hello" GeminiService.defaultRetries
    (Scripted.world [Scripted.ok []] [])
  = (JS.Normal (Some []),
     mkWorld (Scripted.mkState [] 0) [] [EvEmbedContent "hello"]).
Proof. reflexivity. Qed.

(** ** The vector store: [search] on an empty index *)

Section EmptyIndex.

Context {E : Type} `{RT : Runtime E}.

(** C3: when the index is empty, [search] returns the empty array and
    the world is as before; in particular the trace has no new
    [EvEmbedContent] event and the provider's state is untouched. *)
Theorem search_empty_index (query : string) (k : Z) (w : World E) :
  VectorStore.getChunkCount w = 0 ->
  VectorStore.search query k w = (JS.Normal [], w) /\
  trace (snd (VectorStore.search query k w)) = trace w /\
  env (snd (VectorStore.search query k w)) = env w.
Proof.
  unfold VectorStore.getChunkCount. intros Hempty.
  assert (Hrun : VectorStore.search query k w = (JS.Normal [], w)).
  { unfold VectorStore.search, bind, getChunks. rewrite Hempty. reflexivity. }
  rewrite Hrun. auto.
Qed.

End EmptyIndex.

(** An empty store and a provider ready to answer: nothing is asked. *)
Lemma search_empty_index_witness :
  let w := Scripted.world [Scripted.ok [1; 0]%float] [] in
  VectorStore.search "anything" 5 w = (JS.Normal [], w) /\
  trace (snd (VectorStore.search "anything" 5 w)) = [].
Proof.
  intros w.
  destruct (search_empty_index "anything" 5 w eq_refl) as (Hrun & Htrace & _).
  exact (conj Hrun Htrace).
Defined.

(** ** The chunker *)

Section Chunker.

Import DocumentProcessor.

Lemma substring_of_list (s : string) (k n : nat) :
  string_of_list_ascii (firstn n (skipn k (list_ascii_of_string s)))
  = substring k n s.
Proof.
  revert k n. induction s as [| c s IH]; intros k n.
  - destruct k, n; reflexivity.
  - destruct k as [| k].
    + destruct n as [| n]; [reflexivity |].
      simpl. f_equal. apply (IH 0 n).
    + simpl. apply IH.
Qed.

Lemma sliceString_nat (s : string) (a b : nat) :
  JS.sliceString s (Z.of_nat a) (Z.of_nat b) = substring a (b - a) s.
Proof.
  unfold JS.sliceString. rewrite slice_nat. apply substring_of_list.
Qed.

Lemma substring_length (s : string) (k n : nat) :
  String.length (substring k n s) = Nat.min n (String.length s - k).
Proof.
  revert k n. induction s as [| c s IH]; intros k n.
  - destruct k, n; reflexivity.
  - destruct k as [| k].
    + destruct n as [| n]; [reflexivity |].
      simpl. rewrite IH. rewrite Nat.sub_0_r. reflexivity.
    + simpl. apply IH.
Qed.

(** The loop entered at the [j]-th window runs to its [break]: it pushes
    the windows [j .. j + m], the last of which is the first to reach the
    end of the text. *)
Lemma chunkLoop_run (t : string) (sz ov step : nat) :
  0 < step -> sz = step + ov ->
  forall fuel j acc,
    j * step < String.length t ->
    String.length t - j * step <= fuel ->
    exists m,
      chunkLoop fuel t (Z.of_nat sz) (Z.of_nat ov) (Z.of_nat (j * step)) acc
      = Some (acc ++ map (fun q => substring (q * step) sz t) (seq j (S m))) /\
      String.length t <= (j + m) * step + sz /\
      (forall q, j <= q < j + m -> q * step + sz < String.length t).
Proof.
  intros Hstep Hsz. induction fuel as [| fuel IH]; intros j acc Hin Hfuel.
  - lia.
  - cbn [chunkLoop].
    destruct (Z.ltb_spec (Z.of_nat (j * step)) (Z.of_nat (String.length t)))
      as [_ | Hout]; [| lia].
    replace (Z.of_nat (j * step) + Z.of_nat sz)%Z
      with (Z.of_nat (j * step + sz)) by lia.
    rewrite sliceString_nat.
    replace (j * step + sz - j * step) with sz by lia.
    destruct (Z.geb_spec (Z.of_nat (j * step + sz)) (Z.of_nat (String.length t)))
      as [Hend | Hmore].
    + exists 0. rewrite Nat.add_0_r. repeat split; [lia | intros q Hq; lia].
    + replace (Z.of_nat (j * step) + (Z.of_nat sz - Z.of_nat ov))%Z
        with (Z.of_nat (S j * step)) by lia.
      destruct (IH (S j) (acc ++ [substring (j * step) sz t])) as (m & Hrun & Hlast & Hfull).
      * simpl. lia.
      * simpl. lia.
      * exists (S m). rewrite Hrun, <- app_assoc. split; [reflexivity |].
        split; [lia |].
        intros q Hq. destruct (Nat.eq_dec q j) as [-> | Hne]; [lia |].
        apply Hfull. lia.
Qed.

(** C5: for [chunkSize > overlap >= 0] and enough fuel, [chunkText]
    returns, and with [step = chunkSize - overlap]:
    - the empty text gives no chunk;
    - chunk [j] is the substring of the text that starts at [j * step] and
      has [chunkSize] characters or as many as are left, and it starts
      inside the text;
    - every chunk but the last has exactly [chunkSize] characters, so it
      ends [overlap] characters after the start of the next one, which is
      longer than [overlap];
    - the last chunk ends where the text ends, and every position of the
      text lies in some chunk. *)
Theorem chunkText_windows (fuel : nat) (t : string) (chunkSize overlap : Z) :
  (0 <= overlap < chunkSize)%Z ->
  String.length t <= fuel ->
  let step := Z.to_nat (chunkSize - overlap) in
  let sz := Z.to_nat chunkSize in
  let ov := Z.to_nat overlap in
  let len := String.length t in
  exists cs,
    chunkText fuel t chunkSize overlap = Some cs /\
    (len = 0 -> cs = []) /\
    (forall j, j < List.length cs ->
       nth j cs "" = substring (j * step) sz t /\ j * step < len) /\
    (forall j, S j < List.length cs ->
       String.length (nth j cs "") = sz /\
       j * step + sz = S j * step + ov /\
       ov < String.length (nth (S j) cs "")) /\
    (0 < len ->
       0 < List.length cs /\
       (List.length cs - 1) * step
         + String.length (nth (List.length cs - 1) cs "") = len) /\
    (forall p, p < len ->
       exists j, j < List.length cs /\
         j * step <= p < j * step + String.length (nth j cs "")).
Proof.
  intros Hparams Hfuel step sz ov len.
  assert (Hstep : 0 < step) by (unfold step; lia).
  assert (Hsz : sz = step + ov) by (unfold sz, step, ov; lia).
  unfold chunkText. fold len.
  destruct (Nat.eqb_spec len 0) as [Hzero | Hpos].
  - exists []. split; [reflexivity |]. split; [reflexivity |].
    repeat split; intros; simpl in *; lia.
  - destruct (chunkLoop_run t sz ov step Hstep Hsz fuel 0 [])
      as (m & Hrun & Hlast & Hfull).
    + simpl. fold len. lia.
    + simpl. fold len. lia.
    + fold len in Hlast, Hfull.
      set (cs := map (fun q => substring (q * step) sz t) (seq 0 (S m))) in *.
      assert (Hlen : List.length cs = S m)
        by (unfold cs; rewrite length_map, length_seq; reflexivity).
      assert (Hnth : forall j, j < S m ->
                 nth j cs "" = substring (j * step) sz t).
      { intros j Hj. unfold cs.
        rewrite (nth_indep _ "" (substring (0 * step) sz t))
          by (rewrite length_map, length_seq; exact Hj).
        rewrite (map_nth (fun q => substring (q * step) sz t)).
        rewrite seq_nth by exact Hj. reflexivity. }
      assert (Hstart : forall j, j < S m -> j * step < len).
      { intros j Hj. destruct j as [| j]; [simpl; lia |].
        specialize (Hfull j). simpl. lia. }
      assert (Hsize : forall j, j < S m ->
                 String.length (nth j cs "") = Nat.min sz (len - j * step)).
      { intros j Hj. rewrite (Hnth j Hj). apply substring_length. }
      exists cs. split.
      { simpl app in Hrun. replace chunkSize with (Z.of_nat sz) by (unfold sz; lia).
        replace overlap with (Z.of_nat ov) by (unfold ov; lia). exact Hrun. }
      rewrite Hlen. split; [intros Hz; lia |]. split.
      { intros j Hj. split; [apply Hnth | apply Hstart]; exact Hj. }
      split.
      { intros j Hj.
        assert (Hj0 : j * step + sz < len) by (apply Hfull; lia).
        rewrite (Hsize j) by lia. rewrite (Hsize (S j)) by lia.
        pose proof (Hstart (S j) Hj) as Hs. simpl in Hs |- *. lia. }
      split.
      { intros _. split; [lia |].
        replace (S m - 1) with m by lia. rewrite (Hsize m) by lia.
        pose proof (Hstart m (Nat.lt_succ_diag_r m)) as Hs.
        simpl in Hlast. lia. }
      intros p Hp.
      destruct (Nat.le_gt_cases (m * step) p) as [Hlastw | Hearlier].
      * exists m. split; [lia |]. rewrite (Hsize m) by lia.
        simpl in Hlast. lia.
      * exists (p / step).
        pose proof (Nat.div_mod_eq p step) as Hdiv.
        pose proof (Nat.mod_upper_bound p step ltac:(lia)) as Hmod.
        assert (Hq : p / step < m).
        { apply Nat.Div0.div_lt_upper_bound. lia. }
        split; [lia |]. rewrite (Hsize (p / step)) by lia.
        assert (Hfullq : p / step * step + sz < len) by (apply Hfull; lia).
        lia.
Qed.

End Chunker.

(** A text of eleven characters cut with size 5 and overlap 2: three
    windows at the offsets 0, 3 and 6, the last one ending the text. *)
Lemma chunkText_windows_witness :
  exists cs,
    DocumentProcessor.chunkText 11 "hello world" 5 2 = Some cs /\
    cs = ["hello"; "lo wo"; "world"] /\
    (forall j, j < List.length cs ->
       nth j cs "" = substring (j * 3) 5 "hello world" /\ j * 3 < 11) /\
    (forall p, p < 11 ->
       exists j, j < List.length cs /\
         j * 3 <= p < j * 3 + String.length (nth j cs "")).
Proof.
  destruct (chunkText_windows 11 "hello world" 5 2 ltac:(lia) ltac:(simpl; lia))
    as (cs & Hrun & _ & Hnth & _ & _ & Hcover).
  exists cs. split; [exact Hrun |]. split.
  - assert (Hcs : Some cs = Some ["hello"; "lo wo"; "world"])
      by (rewrite <- Hrun; reflexivity).
    injection Hcs as Hcs. exact Hcs.
  - split; [exact Hnth | exact Hcover].
Defined.

(** With [overlap = chunkSize] the loop makes no progress on a text longer
    than a chunk: no amount of fuel ends it. *)
Example chunkText_needs_progress (fuel : nat) :
  DocumentProcessor.chunkText fuel "abc" 1 1 = None.
Proof.
  unfold DocumentProcessor.chunkText. simpl. generalize (@nil string).
  induction fuel as [| fuel IH]; intros acc; [reflexivity |].
  simpl. apply IH.
Qed.

(** ** The source list *)

Section Sources.

Import JS.StringSet.

Lemma has_In (s : t) (x : string) : has s x = true <-> In x s.
Proof.
  unfold has. rewrite existsb_exists. split.
  - intros (y & Hin & Heq). apply String.eqb_eq in Heq. subst y. exact Hin.
  - intros Hin. exists x. split; [exact Hin | apply String.eqb_refl].
Qed.

Lemma has_app (s : t) (x y : string) :
  has (s ++ [x]) y = has s y || String.eqb y x.
Proof.
  unfold has. rewrite existsb_app. simpl. rewrite orb_false_r. reflexivity.
Qed.

Lemma filter_filter {A} (f g : A -> bool) (l : list A) :
  filter f (filter g l) = filter (fun y => g y && f y) l.
Proof.
  induction l as [| a l IH]; [reflexivity |].
  simpl. destruct (g a); simpl; [destruct (f a) |]; rewrite ?IH; reflexivity.
Qed.

(** The set built by successive [add]s lists the first occurrences. *)
Lemma ofArray_from (l : list string) (acc : t) :
  fold_left add l acc
  = acc ++ filter (fun y => negb (has acc y)) (keepFirst l).
Proof.
  revert acc. induction l as [| x r IH]; intros acc.
  - simpl. rewrite app_nil_r. reflexivity.
  - cbn [fold_left keepFirst filter]. rewrite IH. unfold add at 1 2.
    destruct (has acc x) eqn:Hx; cbn [negb].
    + f_equal. rewrite filter_filter. apply filter_ext_in. intros y _.
      destruct (String.eqb_spec y x) as [-> | Hne]; [| reflexivity].
      rewrite Hx. reflexivity.
    + rewrite <- app_assoc. cbn [app]. do 2 f_equal.
      rewrite filter_filter. apply filter_ext. intros y.
      rewrite has_app, negb_orb. apply andb_comm.
Qed.

Lemma ofArray_keepFirst (l : list string) : ofArray l = keepFirst l.
Proof.
  unfold ofArray. rewrite ofArray_from. simpl.
  clear. induction (keepFirst l) as [| y k IH]; [reflexivity |].
  simpl. f_equal. exact IH.
Qed.

Lemma keepFirst_In (l : list string) (x : string) :
  In x (keepFirst l) <-> In x l.
Proof.
  induction l as [| y r IH]; [reflexivity |].
  simpl. rewrite filter_In, IH. split.
  - intros [Heq | [Hin _]]; auto.
  - intros [Heq | Hin]; [left; exact Heq |].
    destruct (String.eqb_spec x y) as [-> | Hne]; [left; reflexivity |].
    right. split; [exact Hin | reflexivity].
Qed.

Lemma keepFirst_NoDup (l : list string) : NoDup (keepFirst l).
Proof.
  induction l as [| y r IH]; [constructor |].
  simpl. constructor.
  - rewrite filter_In. intros [_ Hne]. rewrite String.eqb_refl in Hne.
    discriminate.
  - apply NoDup_filter. exact IH.
Qed.

Lemma StronglySorted_filter {A} (R R' : A -> A -> Prop) (f : A -> bool)
    (l : list A) :
  (forall a b, f a = true -> f b = true -> R a b -> R' a b) ->
  StronglySorted R l -> StronglySorted R' (filter f l).
Proof.
  intros Hmono. induction 1 as [| a l Hs IH Hall]; [constructor |].
  simpl. destruct (f a) eqn:Hfa; [| exact IH].
  constructor; [exact IH |].
  apply Forall_forall. intros b Hb. apply filter_In in Hb.
  destruct Hb as [Hin Hfb]. rewrite Forall_forall in Hall.
  apply Hmono; auto.
Qed.

Lemma keepFirst_order (l : list string) :
  StronglySorted (fun a b => firstIndex a l < firstIndex b l) (keepFirst l).
Proof.
  induction l as [| x r IH]; [constructor |].
  cbn [keepFirst]. constructor.
  - revert IH. apply StronglySorted_filter.
    intros a b Ha Hb Hlt. simpl.
    destruct (String.eqb a x); [discriminate |].
    destruct (String.eqb b x); [discriminate |]. lia.
  - apply Forall_forall. intros b Hb. apply filter_In in Hb.
    destruct Hb as [_ Hne]. simpl. rewrite String.eqb_refl.
    destruct (String.eqb b x); [discriminate | lia].
Qed.

(** C9: the source list has no duplicate, has exactly the document names
    of the retrieved chunks, and lists them by first occurrence: along
    the list the position of the first occurrence among the retrieved
    chunks increases.  It is the list of first occurrences. *)
Theorem sources_first_seen (relevantChunks : list DocumentChunk) :
  let names := map documentName relevantChunks in
  let out := ChatInterface.sources relevantChunks in
  NoDup out /\
  (forall x, In x out <-> In x names) /\
  StronglySorted (fun a b => firstIndex a names < firstIndex b names) out /\
  out = keepFirst names.
Proof.
  intros names out.
  assert (Hout : out = keepFirst names).
  { unfold out, ChatInterface.sources, toArray. apply ofArray_keepFirst. }
  rewrite Hout. split; [apply keepFirst_NoDup |].
  split; [intros x; apply keepFirst_In |].
  split; [apply keepFirst_order | reflexivity].
Qed.

End Sources.

(** Chunks of [b.txt], [a.txt], [b.txt], [c.txt], [a.txt]. *)
Example sources_of_five :
  ChatInterface.sources
    (map (fun n => mkDocumentChunk "id" "doc" n "text" None)
       ["b.txt"; "a.txt"; "b.txt"; "c.txt"; "a.txt"])
  = ["b.txt"; "a.txt"; "c.txt"].
Proof. reflexivity. Qed.

(** ** Rounding *)

(** Facts on the rounding of [SpecFloat], for binary64. *)
Section Rounding.

Local Open Scope Z_scope.

Lemma digits2_pos_bounds (m : positive) :
  2 ^ (Z.pos (digits2_pos m) - 1) <= Z.pos m < 2 ^ Z.pos (digits2_pos m).
Proof.
  induction m as [m IH | m IH |]; simpl digits2_pos.
  - rewrite Pos2Z.inj_succ. replace (Z.succ (Z.pos (digits2_pos m)) - 1) with (Z.pos (digits2_pos m)) by lia.
    rewrite Z.pow_succ_r by lia.
    assert (H : 2 ^ Z.pos (digits2_pos m) = 2 * 2 ^ (Z.pos (digits2_pos m) - 1)).
    { rewrite <- Z.pow_succ_r by lia. f_equal. lia. }
    lia.
  - rewrite Pos2Z.inj_succ. replace (Z.succ (Z.pos (digits2_pos m)) - 1) with (Z.pos (digits2_pos m)) by lia.
    rewrite Z.pow_succ_r by lia.
    assert (H : 2 ^ Z.pos (digits2_pos m) = 2 * 2 ^ (Z.pos (digits2_pos m) - 1)).
    { rewrite <- Z.pow_succ_r by lia. f_equal. lia. }
    lia.
  - simpl. lia.
Qed.

Lemma iter_xO_pow (m d : positive) :
  Z.pos (Pos.iter xO m d) = Z.pos m * 2 ^ Z.pos d.
Proof.
  induction d as [| d IH] using Pos.peano_ind.
  - simpl. lia.
  - rewrite Pos.iter_succ, Pos2Z.inj_succ, Z.pow_succ_r by lia.
    rewrite Pos2Z.inj_xO, IH. lia.
Qed.

Lemma shl_align_value (m : positive) (e e' : Z) :
  e' <= e ->
  Z.pos (fst (shl_align m e e')) = Z.pos m * 2 ^ (e - e').
Proof.
  intros He. unfold shl_align.
  destruct (e' - e) as [| d | d] eqn:Hd.
  - assert (H0 : e - e' = 0) by lia. rewrite H0, Z.pow_0_r, Z.mul_1_r. reflexivity.
  - lia.
  - cbn [fst]. rewrite iter_xO_pow. replace (e - e') with (Z.pos d) by lia. reflexivity.
Qed.

Lemma shr_1_m (mrs : shr_record) :
  0 <= shr_m mrs -> shr_m (shr_1 mrs) = shr_m mrs / 2.
Proof.
  destruct mrs as [m r s]. simpl. intros Hm.
  destruct m as [| p | p]; [reflexivity | | lia].
  destruct p as [p | p |]; simpl shr_m.
  - rewrite Pos2Z.inj_xI. apply Z.div_unique with (r := 1); lia.
  - rewrite Pos2Z.inj_xO. apply Z.div_unique with (r := 0); lia.
  - reflexivity.
Qed.

Lemma iter_shr_1_m (p : positive) (mrs : shr_record) :
  0 <= shr_m mrs ->
  shr_m (iter_pos shr_1 p mrs) = shr_m mrs / 2 ^ Z.pos p.
Proof.
  revert mrs. induction p as [p IH | p IH |]; intros mrs Hm; simpl iter_pos.
  - assert (H1 : 0 <= shr_m (shr_1 mrs)).
    { rewrite shr_1_m by exact Hm. apply Z.div_pos; lia. }
    assert (H2 : 0 <= shr_m (iter_pos shr_1 p (shr_1 mrs))).
    { rewrite IH by exact H1. apply Z.div_pos; [exact H1 | apply Z.pow_pos_nonneg; lia]. }
    rewrite IH by exact H2. rewrite IH by exact H1. rewrite shr_1_m by exact Hm.
    rewrite !Z.div_div by (try apply Z.pow_pos_nonneg; lia).
    f_equal. rewrite Pos2Z.inj_xI, Z.pow_add_r, Z.pow_mul_r by lia.
    change (2 ^ 2) with 4. change (2 ^ 1) with 2.
    replace (4 ^ Z.pos p) with (2 ^ Z.pos p * 2 ^ Z.pos p).
    + lia.
    + rewrite <- Z.pow_add_r by lia. replace (Z.pos p + Z.pos p) with (2 * Z.pos p) by lia.
      rewrite Z.pow_mul_r by lia. reflexivity.
  - assert (H2 : 0 <= shr_m (iter_pos shr_1 p mrs)).
    { rewrite IH by exact Hm. apply Z.div_pos; [exact Hm | apply Z.pow_pos_nonneg; lia]. }
    rewrite IH by exact H2. rewrite IH by exact Hm.
    rewrite !Z.div_div by (try apply Z.pow_pos_nonneg; lia).
    f_equal. rewrite Pos2Z.inj_xO.
    rewrite <- Z.pow_add_r by lia. f_equal. lia.
  - rewrite shr_1_m by exact Hm. reflexivity.
Qed.

Lemma bounded_facts (m : positive) (e : Z) :
  bounded prec emax m e = true ->
  emin <= e /\ Z.pos (digits2_pos m) <= 53 /\
  (emin < e -> Z.pos (digits2_pos m) = 53).
Proof.
  unfold bounded, canonical_mantissa, fexp, SpecFloat.emin, prec, emax.
  intros H. apply andb_true_iff in H. destruct H as [H _].
  apply Z.eqb_eq in H. lia.
Qed.

Lemma shr_record_of_loc_m (m : Z) (l : location) :
  shr_m (shr_record_of_loc m l) = m.
Proof. destruct l as [| []]; reflexivity. Qed.

(** Rounding a positive mantissa at an exponent that is not below [emin]
    leaves a positive mantissa. *)
Lemma shr_fexp_pos (m e : Z) (l : location) :
  0 < m -> emin <= e ->
  0 < shr_m (fst (shr_fexp prec emax m e l)) /\
  emin <= snd (shr_fexp prec emax m e l).
Proof.
  intros Hm He. unfold shr_fexp, shr.
  destruct m as [| p | p]; try lia. cbn [Zdigits2].
  pose proof (digits2_pos_bounds p) as [Hlo _].
  set (d := Z.pos (digits2_pos p)) in *.
  destruct (fexp prec emax (d + e) - e) as [| q | q] eqn:Hn; cbn [fst snd];
    try (rewrite shr_record_of_loc_m; lia).
  unfold fexp, SpecFloat.emin, prec, emax in *.
  assert (Hq : Z.pos q = d - 53) by lia.
  split; [| lia].
  rewrite iter_shr_1_m by (rewrite shr_record_of_loc_m; lia).
  rewrite shr_record_of_loc_m.
  apply Z.div_str_pos. split; [apply Z.pow_pos_nonneg; lia |].
  apply Z.le_trans with (2 ^ (d - 1)); [| exact Hlo].
  apply Z.pow_le_mono_r; lia.
Qed.

Lemma binary_round_aux_signed (s : bool) (m e : Z) (l : location) :
  0 < m -> emin <= e -> signed s (binary_round_aux prec emax s m e l).
Proof.
  intros Hm He. unfold binary_round_aux.
  pose proof (shr_fexp_pos m e l Hm He) as [Hm1 He1].
  destruct (shr_fexp prec emax m e l) as [mrs1 e1]. cbn [fst snd] in *.
  set (m2 := round_nearest_even (shr_m mrs1) (loc_of_shr_record mrs1)).
  assert (Hm2 : 0 < m2).
  { unfold m2, round_nearest_even.
    destruct (loc_of_shr_record mrs1) as [| []]; try lia.
    destruct (Z.even (shr_m mrs1)); lia. }
  pose proof (shr_fexp_pos m2 e1 loc_Exact Hm2 He1) as [Hm3 _].
  destruct (shr_fexp prec emax m2 e1 loc_Exact) as [mrs3 e3]. cbn [fst snd] in *.
  destruct (shr_m mrs3) as [| p | p]; try lia.
  destruct (e3 <=? emax - prec); reflexivity.
Qed.

Lemma binary_round_signed (s : bool) (m : positive) (e : Z) :
  emin <= e -> signed s (binary_round prec emax s m e).
Proof.
  intros He. unfold binary_round.
  destruct (shl_align m e (fexp prec emax (Z.pos (digits2_pos m) + e)))
    as [mz ez] eqn:Hal.
  apply binary_round_aux_signed; [lia |].
  unfold shl_align in Hal.
  destruct (fexp prec emax (Z.pos (digits2_pos m) + e) - e) eqn:Hn;
    injection Hal as _ <-; try exact He.
  unfold fexp, SpecFloat.emin, prec, emax. lia.
Qed.

Lemma magnitude_compare (m1 m2 : positive) (e1 e2 : Z) :
  bounded prec emax m1 e1 = true ->
  bounded prec emax m2 e2 = true ->
  (Z.pos (fst (shl_align m1 e1 (Z.min e1 e2)))
   ?= Z.pos (fst (shl_align m2 e2 (Z.min e1 e2))))
  = match e1 ?= e2 with
    | Lt => Lt
    | Gt => Gt
    | Eq => Pos.compare_cont Eq m1 m2
    end.
Proof.
  intros Hb1 Hb2.
  destruct (bounded_facts m1 e1 Hb1) as (Hmin1 & Hd1 & Hn1).
  destruct (bounded_facts m2 e2 Hb2) as (Hmin2 & Hd2 & Hn2).
  pose proof (digits2_pos_bounds m1) as [Hlo1 Hhi1].
  pose proof (digits2_pos_bounds m2) as [Hlo2 Hhi2].
  rewrite !shl_align_value by lia.
  assert (Hpow : forall d, 0 <= d <= 53 -> 2 ^ d <= 2 ^ 53)
    by (intros d Hd; apply Z.pow_le_mono_r; lia).
  assert (Hstep : forall k, 1 <= k -> 2 <= 2 ^ k).
  { intros k Hk. change 2 with (2 ^ 1) at 1. apply Z.pow_le_mono_r; lia. }
  assert (H53 : 2 ^ 53 = 2 * 2 ^ 52) by reflexivity.
  destruct (Z.compare_spec e1 e2) as [Heq | Hlt | Hgt].
  - subst e2. rewrite Z.min_id, Z.sub_diag, Z.pow_0_r, !Z.mul_1_r. reflexivity.
  - rewrite Z.min_l by lia. rewrite Z.sub_diag, Z.pow_0_r, Z.mul_1_r.
    apply Z.compare_lt_iff.
    rewrite (Hn2 ltac:(lia)) in Hlo2. change (53 - 1) with 52 in Hlo2.
    specialize (Hpow (Z.pos (digits2_pos m1)) ltac:(lia)).
    specialize (Hstep (e2 - e1) ltac:(lia)). nia.
  - rewrite Z.min_r by lia. rewrite Z.sub_diag, Z.pow_0_r, Z.mul_1_r.
    apply Z.compare_gt_iff.
    rewrite (Hn1 ltac:(lia)) in Hlo1. change (53 - 1) with 52 in Hlo1.
    specialize (Hpow (Z.pos (digits2_pos m2)) ltac:(lia)).
    specialize (Hstep (e1 - e2) ltac:(lia)). nia.
Qed.

Lemma SFcompare_aligned (s1 s2 : bool) (m1 m2 : positive) (e1 e2 : Z) :
  bounded prec emax m1 e1 = true ->
  bounded prec emax m2 e2 = true ->
  SFcompare (S754_finite s1 m1 e1) (S754_finite s2 m2 e2)
  = Some (aligned s1 m1 e1 (Z.min e1 e2) ?= aligned s2 m2 e2 (Z.min e1 e2)).
Proof.
  intros Hb1 Hb2. pose proof (magnitude_compare m1 m2 e1 e2 Hb1 Hb2) as Hmag.
  unfold aligned, SFcompare.
  set (X := Z.pos (fst (shl_align m1 e1 (Z.min e1 e2)))) in *.
  set (Y := Z.pos (fst (shl_align m2 e2 (Z.min e1 e2)))) in *.
  assert (HX : 0 < X) by (unfold X; lia).
  assert (HY : 0 < Y) by (unfold Y; lia).
  destruct s1, s2; cbn [cond_Zopp]; f_equal;
    try (symmetry; apply Z.compare_lt_iff; lia);
    try (symmetry; apply Z.compare_gt_iff; lia).
  - rewrite Z.compare_opp, (Z.compare_antisym X Y), Hmag.
    destruct (e1 ?= e2); reflexivity.
  - rewrite Hmag. reflexivity.
Qed.

(** The sign of a difference tells the order of its operands. *)
Lemma SFsub_sign (x y : spec_float) :
  valid_binary x = true -> valid_binary y = true ->
  notNaN x -> notNaN y ->
  SFltb (S754_zero false) (SF64sub y x) = SFltb x y.
Proof.
  intros Hvx Hvy Hx Hy.
  destruct x as [sx | sx | | sx mx ex]; try contradiction;
  destruct y as [sy | sy | | sy my ey]; try contradiction;
    try (destruct sx, sy; reflexivity);
    try (destruct sx; reflexivity); try (destruct sy; reflexivity).
  cbn [valid_binary] in Hvx, Hvy.
  unfold SFltb. rewrite (SFcompare_aligned sx sy mx my ex ey Hvx Hvy).
  unfold SF64sub, SFsub, binary_normalize.
  fold (aligned sy my ey (Z.min ey ex)). fold (aligned sx mx ex (Z.min ey ex)).
  rewrite (Z.min_comm ey ex).
  set (X := aligned sx mx ex (Z.min ex ey)).
  set (Y := aligned sy my ey (Z.min ex ey)).
  assert (Hez : emin <= Z.min ex ey).
  { destruct (bounded_facts mx ex Hvx) as [H1 _].
    destruct (bounded_facts my ey Hvy) as [H2 _]. lia. }
  destruct (Y - X) as [| p | p] eqn:HD.
  - replace (X ?= Y) with Eq by (symmetry; apply Z.compare_eq_iff; lia).
    reflexivity.
  - replace (X ?= Y) with Lt by (symmetry; apply Z.compare_lt_iff; lia).
    pose proof (binary_round_signed false p (Z.min ex ey) Hez) as Hs.
    destruct (binary_round prec emax false p (Z.min ex ey)); simpl in Hs;
      try contradiction; subst; reflexivity.
  - replace (X ?= Y) with Gt by (symmetry; apply Z.compare_gt_iff; lia).
    pose proof (binary_round_signed true p (Z.min ex ey) Hez) as Hs.
    destruct (binary_round prec emax true p (Z.min ex ey)); simpl in Hs;
      try contradiction; subst; reflexivity.
Qed.

(** ... and it is negative exactly when they are in the other order. *)
Lemma SFsub_sign_neg (x y : spec_float) :
  valid_binary x = true -> valid_binary y = true ->
  notNaN x -> notNaN y ->
  SFltb (SF64sub y x) (S754_zero false) = SFltb y x.
Proof.
  intros Hvx Hvy Hx Hy.
  destruct x as [sx | sx | | sx mx ex]; try contradiction;
  destruct y as [sy | sy | | sy my ey]; try contradiction;
    try (destruct sx, sy; reflexivity);
    try (destruct sx; reflexivity); try (destruct sy; reflexivity).
  cbn [valid_binary] in Hvx, Hvy.
  unfold SFltb. rewrite (SFcompare_aligned sy sx my mx ey ex Hvy Hvx).
  unfold SF64sub, SFsub, binary_normalize.
  fold (aligned sy my ey (Z.min ey ex)). fold (aligned sx mx ex (Z.min ey ex)).
  set (X := aligned sx mx ex (Z.min ey ex)).
  set (Y := aligned sy my ey (Z.min ey ex)).
  assert (Hez : emin <= Z.min ey ex).
  { destruct (bounded_facts mx ex Hvx) as [H1 _].
    destruct (bounded_facts my ey Hvy) as [H2 _]. lia. }
  destruct (Y - X) as [| p | p] eqn:HD.
  - replace (Y ?= X) with Eq by (symmetry; apply Z.compare_eq_iff; lia).
    reflexivity.
  - replace (Y ?= X) with Gt by (symmetry; apply Z.compare_gt_iff; lia).
    pose proof (binary_round_signed false p (Z.min ey ex) Hez) as Hs.
    destruct (binary_round prec emax false p (Z.min ey ex)); simpl in Hs;
      try contradiction; subst; reflexivity.
  - replace (Y ?= X) with Lt by (symmetry; apply Z.compare_lt_iff; lia).
    pose proof (binary_round_signed true p (Z.min ey ex) Hez) as Hs.
    destruct (binary_round prec emax true p (Z.min ey ex)); simpl in Hs;
      try contradiction; subst; reflexivity.
Qed.

Lemma SFcompare_key (x y : spec_float) :
  notNaN x -> notNaN y ->
  (SFcompare x y = Some Lt <-> lexLt (fkey x) (fkey y)) /\
  (SFcompare x y = Some Eq <-> fkey x = fkey y) /\
  (SFcompare x y = Some Gt <-> lexLt (fkey y) (fkey x)).
Proof.
  intros Hx Hy.
  destruct x as [sx | sx | | sx mx ex]; try contradiction;
  destruct y as [sy | sy | | sy my ey]; try contradiction;
    try destruct sx; try destruct sy; cbn [SFcompare fkey lexLt];
    try (repeat split; intros H; try discriminate H; try reflexivity;
         try lia; try (injection H; lia); fail).
  all: change (Pos.compare_cont Eq mx my) with (Z.pos mx ?= Z.pos my);
    destruct (Z.compare_spec ex ey) as [He | He | He],
             (Z.compare_spec (Z.pos mx) (Z.pos my)) as [Hm | Hm | Hm];
    cbn [CompOpp];
    repeat split; intros Hc; try discriminate Hc; try reflexivity;
    try lia; try (injection Hc; lia);
    try (injection Hm as ->; subst; reflexivity).
Qed.

End Rounding.

(** ** Numbers *)

(** Facts on binary64 arithmetic, from the specification of the primitive
    operations by [SpecFloat]. *)
Section Numbers.

Local Open Scope float_scope.

Lemma float_mul_comm (x y : float) : x * y = y * x.
Proof.
  apply Prim2SF_inj. rewrite !mul_spec.
  destruct (Prim2SF x) as [sx | sx | | sx mx ex],
           (Prim2SF y) as [sy | sy | | sy my ey];
    simpl; try reflexivity; try (rewrite xorb_comm; reflexivity).
  rewrite xorb_comm, Pos.mul_comm, Z.add_comm. reflexivity.
Qed.

Lemma SFcompare_refl (x : spec_float) :
  x <> S754_nan -> SFcompare x x = Some Eq.
Proof.
  destruct x as [s | s | | s m e]; intros Hx; try congruence.
  - reflexivity.
  - destruct s; reflexivity.
  - simpl. rewrite Z.compare_refl, Pos.compare_cont_refl.
    destruct s; reflexivity.
Qed.

Lemma is_nan_spec (x : float) :
  is_nan x = true <-> Prim2SF x = S754_nan.
Proof.
  unfold is_nan. rewrite eqb_spec. unfold SFeqb. split.
  - intros Hn. destruct (Prim2SF x) as [s | s | | s m e] eqn:Hx;
      [| | reflexivity |];
      rewrite SFcompare_refl in Hn by discriminate; discriminate.
  - intros ->. reflexivity.
Qed.

Lemma is_zero_spec (x : float) :
  is_zero x = true <-> exists s, Prim2SF x = S754_zero s.
Proof.
  unfold is_zero. rewrite eqb_spec. unfold SFeqb.
  change (Prim2SF zero) with (S754_zero false). split.
  - destruct (Prim2SF x) as [s | s | | s m e]; simpl; try discriminate.
    + intros _. exists s. reflexivity.
    + destruct s; discriminate.
    + destruct s; discriminate.
  - intros [s ->]. reflexivity.
Qed.

Lemma finiteNonZero_spec (x : float) :
  finiteNonZero x = true -> exists s m e, Prim2SF x = S754_finite s m e.
Proof.
  unfold finiteNonZero, is_finite, is_infinity, is_zero, is_nan.
  rewrite !eqb_spec, abs_spec. unfold SFeqb.
  change (Prim2SF zero) with (S754_zero false).
  change (Prim2SF infinity) with (S754_infinity false).
  destruct (Prim2SF x) as [s | s | | s m e]; try destruct s; simpl;
    try discriminate; intros _; eauto.
Qed.

(** A finite number other than zero divided by itself is one: the
    quotient of the mantissas is exact. *)
Lemma float_div_self (x : float) :
  finiteNonZero x = true -> x / x = 1.
Proof.
  intros Hx. destruct (finiteNonZero_spec x Hx) as (s & m & e & Hsf).
  apply Prim2SF_inj. rewrite div_spec, Hsf.
  change (Prim2SF 1) with (S754_finite false 4503599627370496 (-52)).
  unfold SF64div, SFdiv, SFdiv_core_binary.
  rewrite Z.sub_diag.
  replace (Zdigits2 (Z.pos m) + e - (Zdigits2 (Z.pos m) + e))%Z with 0%Z by lia.
  change (Z.min (fexp prec emax 0) 0) with (-53)%Z.
  change (0 - -53)%Z with 53%Z. cbv iota.
  pose proof (Z.div_eucl_eq (Z.shiftl (Z.pos m) 53) (Z.pos m) ltac:(lia)) as Heq.
  pose proof (Z.mod_pos_bound (Z.shiftl (Z.pos m) 53) (Z.pos m) ltac:(lia)) as Hb.
  unfold Z.modulo in Hb.
  destruct (Z.div_eucl (Z.shiftl (Z.pos m) 53) (Z.pos m)) as [q r].
  rewrite Z.shiftl_mul_pow2 in Heq by lia.
  assert (Hq : q = (2 ^ 53)%Z) by nia.
  assert (Hr : r = 0%Z) by nia.
  subst q r. unfold new_location.
  replace (xorb s s) with false by (destruct s; reflexivity).
  destruct (Z.even (Z.pos m)); reflexivity.
Qed.

Lemma notNaN_spec (x : float) : is_nan x = false -> notNaN (Prim2SF x).
Proof.
  intros Hx. destruct (Prim2SF x) eqn:Hsf; try exact I.
  apply is_nan_spec in Hsf. congruence.
Qed.

Lemma float_ltb_key (x y : float) :
  is_nan x = false -> is_nan y = false ->
  ((x <? y) = true <-> lexLt (key x) (key y)).
Proof.
  intros Hx Hy. rewrite ltb_spec. unfold SFltb, key.
  destruct (SFcompare_key _ _ (notNaN_spec x Hx) (notNaN_spec y Hy))
    as (Hlt & _ & _).
  rewrite <- Hlt.
  destruct (SFcompare (Prim2SF x) (Prim2SF y)) as [[| |] |];
    split; intros H; congruence.
Qed.

Lemma float_eqb_key (x y : float) :
  is_nan x = false -> is_nan y = false ->
  ((x =? y) = true <-> key x = key y).
Proof.
  intros Hx Hy. rewrite eqb_spec. unfold SFeqb, key.
  destruct (SFcompare_key _ _ (notNaN_spec x Hx) (notNaN_spec y Hy))
    as (_ & Heq & _).
  rewrite <- Heq.
  destruct (SFcompare (Prim2SF x) (Prim2SF y)) as [[| |] |];
    split; intros H; congruence.
Qed.

Lemma float_leb_key (x y : float) :
  is_nan x = false -> is_nan y = false ->
  ((x <=? y) = true <-> lexLt (key x) (key y) \/ key x = key y).
Proof.
  intros Hx Hy. rewrite leb_spec. unfold SFleb, key.
  destruct (SFcompare_key _ _ (notNaN_spec x Hx) (notNaN_spec y Hy))
    as (Hlt & Heq & _).
  rewrite <- Hlt, <- Heq.
  destruct (SFcompare (Prim2SF x) (Prim2SF y)) as [[| |] |];
    split; intros H; try congruence; auto; destruct H; congruence.
Qed.

(** [b - a] is positive exactly when [a < b]. *)
Lemma float_sub_pos (x y : float) :
  is_nan x = false -> is_nan y = false ->
  (0 <? y - x) = (x <? y).
Proof.
  intros Hx Hy. rewrite !ltb_spec, sub_spec.
  change (Prim2SF 0) with (S754_zero false).
  apply SFsub_sign; auto using Prim2SF_valid, notNaN_spec.
Qed.

(** [b - a] is negative exactly when [b < a]. *)
Lemma float_sub_neg (x y : float) :
  is_nan x = false -> is_nan y = false ->
  (y - x <? 0) = (y <? x).
Proof.
  intros Hx Hy. rewrite !ltb_spec, sub_spec.
  change (Prim2SF 0) with (S754_zero false).
  apply SFsub_sign_neg; auto using Prim2SF_valid, notNaN_spec.
Qed.

Lemma float_leb_antisym (x y : float) :
  is_nan x = false -> is_nan y = false ->
  (x <=? y) = true -> (y <=? x) = true -> (x =? y) = true.
Proof.
  intros Hx Hy Hxy Hyx.
  apply (float_leb_key x y Hx Hy) in Hxy. apply (float_leb_key y x Hy Hx) in Hyx.
  apply (float_eqb_key x y Hx Hy). revert Hxy Hyx.
  generalize (key x) (key y). intros [[a1 b1] c1] [[a2 b2] c2].
  unfold lexLt. intros [H1 | H1] [H2 | H2]; try assumption;
    try (symmetry; assumption). exfalso. lia.
Qed.

Lemma float_leb_refl (x : float) : is_nan x = false -> (x <=? x) = true.
Proof. intros Hx. apply (float_leb_key x x Hx Hx). right. reflexivity. Qed.

Lemma float_eqb_refl (x : float) : is_nan x = false -> (x =? x) = true.
Proof. intros Hx. apply (float_eqb_key x x Hx Hx). reflexivity. Qed.

Lemma float_eqb_trans (x y z : float) :
  is_nan x = false -> is_nan y = false -> is_nan z = false ->
  (x =? y) = true -> (y =? z) = true -> (x =? z) = true.
Proof.
  intros Hx Hy Hz Hxy Hyz.
  apply (float_eqb_key x y Hx Hy) in Hxy. apply (float_eqb_key y z Hy Hz) in Hyz.
  apply (float_eqb_key x z Hx Hz). congruence.
Qed.

Lemma float_ltb_false (x y : float) :
  is_nan x = false -> is_nan y = false ->
  (x <? y) = false -> (y <=? x) = true.
Proof.
  intros Hx Hy Hlt. apply (float_leb_key y x Hy Hx).
  assert (Hn : ~ lexLt (key x) (key y)).
  { intros H. apply (float_ltb_key x y Hx Hy) in H. congruence. }
  revert Hn. generalize (key x) (key y). intros k1 k2 Hn.
  destruct k1 as [[a1 b1] c1], k2 as [[a2 b2] c2]. unfold lexLt in *.
  destruct (Z.eq_dec a1 a2), (Z.eq_dec b1 b2), (Z.eq_dec c1 c2);
    subst; try (right; reflexivity); left; lia.
Qed.

Lemma float_ltb_leb (x y : float) :
  is_nan x = false -> is_nan y = false ->
  (x <? y) = true -> (x <=? y) = true.
Proof.
  intros Hx Hy Hlt. apply (float_leb_key x y Hx Hy). left.
  apply (float_ltb_key x y Hx Hy). exact Hlt.
Qed.

Lemma float_leb_trans (x y z : float) :
  is_nan x = false -> is_nan y = false -> is_nan z = false ->
  (x <=? y) = true -> (y <=? z) = true -> (x <=? z) = true.
Proof.
  intros Hx Hy Hz Hxy Hyz.
  apply (float_leb_key x y Hx Hy) in Hxy. apply (float_leb_key y z Hy Hz) in Hyz.
  apply (float_leb_key x z Hx Hz). revert Hxy Hyz.
  generalize (key x) (key y) (key z). intros k1 k2 k3 H12 H23.
  destruct k1 as [[a1 b1] c1], k2 as [[a2 b2] c2], k3 as [[a3 b3] c3].
  unfold lexLt in *.
  destruct H12 as [H12 | H12], H23 as [H23 | H23];
    try (injection H12 as -> -> ->); try (injection H23 as -> -> ->);
    try (right; reflexivity); try (left; assumption); left; lia.
Qed.

(** Two numbers equal to a third are not strictly ordered. *)
Lemma float_ltb_eqb (x y v : float) :
  is_nan x = false -> is_nan y = false -> is_nan v = false ->
  (x <? y) = true -> (x =? v) = true -> (y =? v) = false.
Proof.
  intros Hx Hy Hv Hlt Hxv.
  apply (float_ltb_key x y Hx Hy) in Hlt. apply (float_eqb_key x v Hx Hv) in Hxv.
  destruct (y =? v) eqn:Hyv; [| reflexivity].
  apply (float_eqb_key y v Hy Hv) in Hyv. exfalso.
  rewrite Hxv, Hyv in Hlt. revert Hlt. generalize (key v). intros [[a b] c].
  unfold lexLt. lia.
Qed.

End Numbers.

(** ** The vector store: cosine similarity *)

Section Cosine.

Import VectorStore.
Local Open Scope float_scope.

(** The loop of [cosineSimilarity] on two arrays of the same length
    computes the three sums. *)
Lemma cosineLoop_sums (a b pa pb : list float) (acc : float * float * float) :
  List.length pa = List.length pb ->
  List.length a = List.length b ->
  cosineLoop (pa ++ a) (pb ++ b) (List.length pa) (List.length a) acc
  = (fold_left (fun d xy => d + fst xy * snd xy) (combine a b) (fst (fst acc)),
     fold_left (fun n x => n + x * x) a (snd (fst acc)),
     fold_left (fun n x => n + x * x) b (snd acc)).
Proof.
  revert b pa pb acc. induction a as [| x a IH]; intros b pa pb acc Hp Hl.
  - destruct b; [| discriminate]. destruct acc as [[d na] nb]. reflexivity.
  - destruct b as [| y b]; [discriminate |]. injection Hl as Hl.
    destruct acc as [[d na] nb]. cbn [List.length cosineLoop].
    unfold JS.numAt.
    assert (Hx : nth (List.length pa) (pa ++ x :: a) nan = x)
      by apply nth_middle.
    assert (Hy : nth (List.length pa) (pb ++ y :: b) nan = y)
      by (rewrite Hp; apply nth_middle).
    rewrite Hx, Hy.
    replace (pa ++ x :: a) with ((pa ++ [x]) ++ a)%list
      by (rewrite <- app_assoc; reflexivity).
    replace (pb ++ y :: b) with ((pb ++ [y]) ++ b)%list
      by (rewrite <- app_assoc; reflexivity).
    replace (S (List.length pa)) with (List.length (pa ++ [x])%list)
      by (rewrite length_app; simpl; lia).
    rewrite IH; [reflexivity | rewrite !length_app; simpl; lia | exact Hl].
Qed.

Lemma cosineSimilarity_quotient (a b : list float) :
  List.length a = List.length b ->
  cosineSimilarity a b =
  if JS.isNaN (quotient a b) then 0 else quotient a b.
Proof.
  intros Hl. unfold cosineSimilarity.
  pose proof (cosineLoop_sums a b [] [] (0, 0, 0) eq_refl Hl) as Hsums.
  cbn [app List.length fst snd] in Hsums. rewrite Hsums. reflexivity.
Qed.

Lemma dotProduct_comm (a b : list float) : dotProduct a b = dotProduct b a.
Proof.
  unfold dotProduct. generalize 0.
  revert b. induction a as [| x a IH]; intros b d.
  - destruct b; reflexivity.
  - destruct b as [| y b]; [reflexivity |].
    simpl. rewrite (float_mul_comm x y). apply IH.
Qed.

Lemma quotient_comm (a b : list float) : quotient a b = quotient b a.
Proof.
  unfold quotient. rewrite dotProduct_comm.
  rewrite (float_mul_comm (sqrt (squaredNorm a))). reflexivity.
Qed.

Lemma SFmul_zero_l (s : bool) (y : spec_float) :
  zeroOrNaN (SF64mul (S754_zero s) y).
Proof. destruct y; exact I. Qed.

Lemma SFadd_zeroOrNaN (x y : spec_float) :
  zeroOrNaN x -> zeroOrNaN y -> zeroOrNaN (SF64add x y).
Proof.
  destruct x as [sx | | |], y as [sy | | |]; simpl; try tauto.
  intros _ _. destruct sx, sy; exact I.
Qed.

Lemma SFdiv_zeroOrNaN (x y : spec_float) :
  zeroOrNaN x -> zeroOrNaN y -> SF64div x y = S754_nan.
Proof.
  destruct x as [sx | | |], y as [sy | | |]; simpl; tauto.
Qed.

(** The dot product with a zero vector is [0], [-0] or NaN. *)
Lemma dotProduct_zero_l (a b : list float) :
  isZeroVector a = true -> zeroOrNaN (Prim2SF (dotProduct a b)).
Proof.
  unfold dotProduct.
  assert (H0 : zeroOrNaN (Prim2SF 0)) by exact I.
  revert H0. generalize 0. revert b.
  induction a as [| x a IH]; intros b d Hd Hz.
  - exact Hd.
  - destruct b as [| y b]; [exact Hd |].
    simpl in Hz. apply andb_true_iff in Hz. destruct Hz as [Hx Ha].
    simpl. apply IH; [| exact Ha].
    rewrite add_spec, mul_spec. apply is_zero_spec in Hx. destruct Hx as [s ->].
    apply SFadd_zeroOrNaN; [exact Hd | apply SFmul_zero_l].
Qed.

(** The squared norm of a zero vector is zero. *)
Lemma squaredNorm_zero (a : list float) :
  isZeroVector a = true -> exists s, Prim2SF (squaredNorm a) = S754_zero s.
Proof.
  unfold squaredNorm.
  assert (H0 : exists s, Prim2SF 0 = S754_zero s) by (exists false; reflexivity).
  revert H0. generalize 0.
  induction a as [| x a IH]; intros n Hn Hz.
  - exact Hn.
  - simpl in Hz. apply andb_true_iff in Hz. destruct Hz as [Hx Ha].
    simpl. apply IH; [| exact Ha].
    rewrite add_spec, mul_spec. apply is_zero_spec in Hx.
    destruct Hx as [s ->]. destruct Hn as [sn ->].
    simpl. destruct sn, (xorb s s); eauto.
Qed.

Lemma quotient_zero_l (a b : list float) :
  isZeroVector a = true -> is_nan (quotient a b) = true.
Proof.
  intros Hz. apply is_nan_spec. unfold quotient.
  rewrite div_spec, mul_spec, sqrt_spec.
  destruct (squaredNorm_zero a Hz) as [s ->].
  apply SFdiv_zeroOrNaN.
  - apply dotProduct_zero_l. exact Hz.
  - apply SFmul_zero_l.
Qed.

(** With [b = a] the three sums are one and the same number. *)
Lemma dotProduct_self (a : list float) : dotProduct a a = squaredNorm a.
Proof.
  unfold dotProduct, squaredNorm. generalize 0.
  induction a as [| x a IH]; intros d; [reflexivity |]. simpl. apply IH.
Qed.

Lemma cosineSimilarity_not_nan (a b : list float) :
  is_nan (cosineSimilarity a b) = false.
Proof.
  unfold cosineSimilarity.
  destruct (cosineLoop a b 0 (List.length a) (0, 0, 0)) as [[d na] nb].
  unfold JS.isNaN. destruct (is_nan (d / (sqrt na * sqrt nb))) eqn:Hq.
  - reflexivity.
  - exact Hq.
Qed.

(** C8, as the code computes it in binary64 arithmetic.  For two arrays of
    the same length the similarity is symmetric (the two numbers are the
    same, and [==]) and is never NaN; it is
    [0] when one of them is a zero vector and when the computed quotient
    is NaN, and it is that quotient otherwise.  With [b = a] the quotient
    is [n / (sqrt n * sqrt n)] for the accumulated squared norm [n], and
    the similarity is [1] when [n] is finite, not zero and equal to the
    rounded square of its rounded square root. *)
Theorem cosineSimilarity_properties (a b : list float) :
  List.length a = List.length b ->
  cosineSimilarity a b = cosineSimilarity b a /\
  (cosineSimilarity a b =? cosineSimilarity b a) = true /\
  is_nan (cosineSimilarity a b) = false /\
  (isZeroVector a = true \/ isZeroVector b = true ->
   cosineSimilarity a b = 0) /\
  (is_nan (quotient a b) = true -> cosineSimilarity a b = 0) /\
  (is_nan (quotient a b) = false -> cosineSimilarity a b = quotient a b) /\
  quotient a a
    = squaredNorm a / (sqrt (squaredNorm a) * sqrt (squaredNorm a)) /\
  (finiteNonZero (squaredNorm a) = true ->
   sqrt (squaredNorm a) * sqrt (squaredNorm a) = squaredNorm a ->
   cosineSimilarity a a = 1).
Proof.
  intros Hl.
  assert (Hnan : forall u v, List.length u = List.length v ->
             is_nan (quotient u v) = true -> cosineSimilarity u v = 0).
  { intros u v Huv Hq. rewrite (cosineSimilarity_quotient u v Huv).
    unfold JS.isNaN. rewrite Hq. reflexivity. }
  assert (Hself : quotient a a
            = squaredNorm a / (sqrt (squaredNorm a) * sqrt (squaredNorm a))).
  { unfold quotient. rewrite dotProduct_self. reflexivity. }
  assert (Hsym : cosineSimilarity a b = cosineSimilarity b a).
  { rewrite (cosineSimilarity_quotient a b Hl).
    rewrite (cosineSimilarity_quotient b a (eq_sym Hl)).
    rewrite (quotient_comm a b). reflexivity. }
  split; [exact Hsym |].
  split.
  { rewrite <- Hsym. apply float_eqb_refl. apply cosineSimilarity_not_nan. }
  split; [apply cosineSimilarity_not_nan |].
  split.
  { intros [Ha | Hb]; apply (Hnan a b Hl).
    - apply quotient_zero_l. exact Ha.
    - rewrite quotient_comm. apply quotient_zero_l. exact Hb. }
  split; [apply (Hnan a b Hl) |].
  split.
  { intros Hq. rewrite (cosineSimilarity_quotient a b Hl).
    unfold JS.isNaN. rewrite Hq. reflexivity. }
  split; [exact Hself |].
  intros Hfin Hsq.
  rewrite (cosineSimilarity_quotient a a eq_refl), Hself, Hsq.
  rewrite (float_div_self _ Hfin). reflexivity.
Qed.

End Cosine.

(** The vector [[1, 1]] is not a zero vector, and its similarity with
    itself is the number just below one: [sqrt 2 * sqrt 2] rounds to the
    number just above [2]. *)
Lemma cosineSimilarity_self_below_one :
  isZeroVector [1; 1]%float = false /\
  VectorStore.cosineSimilarity [1; 1]%float [1; 1]%float
    = 0x1.ffffffffffffep-1%float /\
  (VectorStore.cosineSimilarity [1; 1]%float [1; 1]%float =? 1)%float = false.
Proof. repeat split. Qed.

(** A squared norm too large for binary64: the similarity of the array
    with itself is [0]. *)
Example cosineSimilarity_self_overflow :
  VectorStore.cosineSimilarity [0x1p600%float] [0x1p600%float] = 0%float.
Proof. reflexivity. Qed.

(** [[3, 4]] has squared norm [25], whose root is exact; [[1, 0]] and
    [[1, 1]] in both orders; a zero vector. *)
Lemma cosineSimilarity_properties_witness :
  VectorStore.cosineSimilarity [3; 4]%float [3; 4]%float = 1%float /\
  VectorStore.cosineSimilarity [1; 0]%float [1; 1]%float
    = VectorStore.cosineSimilarity [1; 1]%float [1; 0]%float /\
  VectorStore.cosineSimilarity [0; -0]%float [1; 1]%float = 0%float.
Proof.
  destruct (cosineSimilarity_properties [3; 4]%float [3; 4]%float eq_refl)
    as (_ & _ & _ & _ & _ & _ & _ & Hone).
  destruct (cosineSimilarity_properties [1; 0]%float [1; 1]%float eq_refl)
    as (Hsym & _).
  destruct (cosineSimilarity_properties [0; -0]%float [1; 1]%float eq_refl)
    as (_ & _ & _ & Hzero & _).
  split; [apply Hone; reflexivity |].
  split; [exact Hsym |].
  apply Hzero. left. reflexivity.
Defined.

(** ** Sorting by descending score *)

Section Ranking.

Local Open Scope float_scope.

Context {A : Type} (score : A -> float).
Hypothesis score_not_nan : forall a, is_nan (score a) = false.

Let byScore : A -> A -> float := fun a b => score b - score a.
Let descending : A -> A -> Prop := fun a b => (score b <=? score a) = true.

(** The comparator sends [a] after [b] exactly when [a] scores less. *)
Lemma byScore_after (a b : A) : (0 <? byScore a b) = (score a <? score b).
Proof. apply float_sub_pos; apply score_not_nan. Qed.

Lemma sortInsert_cons (x y : A) (l : list A) :
  JS.sortInsert byScore x (y :: l) =
  if score x <? score y then y :: JS.sortInsert byScore x l else x :: y :: l.
Proof. cbn [JS.sortInsert]. rewrite byScore_after. reflexivity. Qed.

Lemma sortInsert_perm (x : A) (l : list A) :
  Permutation (JS.sortInsert byScore x l) (x :: l).
Proof.
  induction l as [| y l IH]; [reflexivity |].
  rewrite sortInsert_cons. destruct (score x <? score y); [| reflexivity].
  rewrite IH. apply perm_swap.
Qed.

Lemma sort_perm (l : list A) : Permutation (JS.sort byScore l) l.
Proof.
  induction l as [| x l IH]; [reflexivity |].
  cbn [JS.sort fold_right]. rewrite sortInsert_perm.
  apply perm_skip. exact IH.
Qed.

Lemma sortInsert_sorted (x : A) (l : list A) :
  StronglySorted descending l ->
  StronglySorted descending (JS.sortInsert byScore x l).
Proof.
  induction 1 as [| y l Hs IH Hall].
  - repeat constructor.
  - rewrite sortInsert_cons. destruct (score x <? score y) eqn:Hlt.
    + constructor; [exact IH |].
      apply (Permutation_Forall (Permutation_sym (sortInsert_perm x l))).
      constructor; [| exact Hall].
      apply float_ltb_leb; auto.
    + assert (Hyx : descending x y) by (apply float_ltb_false; auto).
      constructor; [constructor; assumption |].
      constructor; [exact Hyx |].
      apply Forall_forall. intros z Hz. rewrite Forall_forall in Hall.
      apply (float_leb_trans (score z) (score y) (score x)); auto.
      apply Hall. exact Hz.
Qed.

Lemma sort_sorted (l : list A) : StronglySorted descending (JS.sort byScore l).
Proof.
  induction l as [| x l IH]; [constructor |].
  cbn [JS.sort fold_right]. apply sortInsert_sorted. exact IH.
Qed.

Lemma float_eqb_nan_r (x v : float) : is_nan v = true -> (x =? v) = false.
Proof.
  intros Hv. apply is_nan_spec in Hv. rewrite eqb_spec, Hv. unfold SFeqb.
  destruct (Prim2SF x) as [| | | ]; reflexivity.
Qed.

(** Two elements of which one scores less do not both score [v]. *)
Lemma not_both_score (x y : A) (v : float) :
  (score x <? score y) = true ->
  (score x =? v) && (score y =? v) = false.
Proof.
  intros Hlt. destruct (is_nan v) eqn:Hv.
  - rewrite (float_eqb_nan_r _ v Hv). reflexivity.
  - destruct (score x =? v) eqn:Hx; [| reflexivity].
    apply (float_ltb_eqb (score x) (score y) v); auto.
Qed.

Lemma sortInsert_stable (v : float) (x : A) (l : list A) :
  filter (fun a => score a =? v) (JS.sortInsert byScore x l)
  = filter (fun a => score a =? v) (x :: l).
Proof.
  induction l as [| y l IH]; [reflexivity |].
  rewrite sortInsert_cons. destruct (score x <? score y) eqn:Hlt; [| reflexivity].
  pose proof (not_both_score x y v Hlt) as Hnb.
  cbn [filter] in *. rewrite IH.
  destruct (score x =? v), (score y =? v); try reflexivity; discriminate.
Qed.

(** The sort is stable: the elements of one score keep their order. *)
Lemma sort_stable (v : float) (l : list A) :
  filter (fun a => score a =? v) (JS.sort byScore l)
  = filter (fun a => score a =? v) l.
Proof.
  induction l as [| x l IH]; [reflexivity |].
  cbn [JS.sort fold_right]. rewrite sortInsert_stable.
  cbn [filter]. fold (JS.sort byScore l). rewrite IH. reflexivity.
Qed.

(** The comparator sends [a] before [b] exactly when [a] scores more:
    with [byScore_after], it is a consistent comparator. *)
Lemma byScore_before (a b : A) : (byScore a b <? 0) = (score b <? score a).
Proof. apply float_sub_neg; apply score_not_nan. Qed.

Lemma filter_score_head (x : A) (l : list A) :
  filter (fun a => score a =? score x) (x :: l)
  = x :: filter (fun a => score a =? score x) l.
Proof.
  cbn [filter]. rewrite float_eqb_refl by apply score_not_nan. reflexivity.
Qed.

Lemma descending_head (x y : A) (l : list A) :
  StronglySorted descending (y :: l) -> In x (y :: l) -> descending y x.
Proof.
  intros Hs Hin. apply StronglySorted_inv in Hs. destruct Hs as [_ Hall].
  destruct Hin as [<- | Hin].
  - unfold descending. apply float_leb_refl. apply score_not_nan.
  - rewrite Forall_forall in Hall. apply Hall. exact Hin.
Qed.

(** A sorted list is determined by the order of the elements of each
    score: whatever algorithm the engine runs, a stable sort with this
    comparator returns the list that [JS.sort] computes. *)
Lemma sorted_stable_unique (l1 l2 : list A) :
  StronglySorted descending l1 ->
  StronglySorted descending l2 ->
  (forall v, filter (fun a => score a =? v) l1
             = filter (fun a => score a =? v) l2) ->
  l1 = l2.
Proof.
  revert l2. induction l1 as [| x t1 IH]; intros l2 Hs1 Hs2 Hst.
  - destruct l2 as [| y t2]; [reflexivity |].
    specialize (Hst (score y)). rewrite filter_score_head in Hst.
    discriminate Hst.
  - destruct l2 as [| y t2].
    { specialize (Hst (score x)). rewrite filter_score_head in Hst.
      discriminate Hst. }
    assert (Hxin : In x (y :: t2)).
    { pose proof (Hst (score x)) as Hx. rewrite filter_score_head in Hx.
      assert (Hin : In x (filter (fun a => score a =? score x) (y :: t2)))
        by (rewrite <- Hx; left; reflexivity).
      apply filter_In in Hin. apply Hin. }
    assert (Hyin : In y (x :: t1)).
    { pose proof (Hst (score y)) as Hy. rewrite filter_score_head in Hy.
      assert (Hin : In y (filter (fun a => score a =? score y) (x :: t1)))
        by (rewrite Hy; left; reflexivity).
      apply filter_In in Hin. apply Hin. }
    pose proof (descending_head x y t2 Hs2 Hxin) as Hxy.
    pose proof (descending_head y x t1 Hs1 Hyin) as Hyx.
    assert (Heq : (score y =? score x) = true)
      by (apply float_leb_antisym; auto).
    assert (Hhead : x = y).
    { pose proof (Hst (score x)) as Hx. rewrite filter_score_head in Hx.
      cbn [filter] in Hx. rewrite Heq in Hx. injection Hx as Hx _. exact Hx. }
    subst y. f_equal.
    apply StronglySorted_inv in Hs1. apply StronglySorted_inv in Hs2.
    apply IH; [apply Hs1 | apply Hs2 |].
    intros v. specialize (Hst v). cbn [filter] in Hst.
    destruct (score x =? v); [injection Hst as Hst |]; exact Hst.
Qed.

Lemma sort_unique (l sorted : list A) :
  StronglySorted descending sorted ->
  (forall v, filter (fun a => score a =? v) sorted
             = filter (fun a => score a =? v) l) ->
  sorted = JS.sort byScore l.
Proof.
  intros Hs Hst. apply sorted_stable_unique; [exact Hs | apply sort_sorted |].
  intros v. rewrite Hst, sort_stable. reflexivity.
Qed.

End Ranking.

Section SortArrays.

Context {A B : Type}.

(** Sorting the images is the image of the sorting. *)
Lemma sort_map (f : A -> B) (comparefn : B -> B -> float) (l : list A) :
  JS.sort comparefn (map f l)
  = map f (JS.sort (fun a b => comparefn (f a) (f b)) l).
Proof.
  induction l as [| x l IH]; [reflexivity |].
  cbn [map JS.sort fold_right]. fold (JS.sort comparefn (map f l)).
  fold (JS.sort (fun a b => comparefn (f a) (f b)) l). rewrite IH.
  generalize (JS.sort (fun a b => comparefn (f a) (f b)) l). intros s.
  induction s as [| y s IHs]; [reflexivity |].
  cbn [map JS.sortInsert].
  destruct (0 <? comparefn (f x) (f y))%float; [| reflexivity].
  cbn [map]. f_equal. exact IHs.
Qed.

Lemma StronglySorted_app_cross (R : A -> A -> Prop) (l1 l2 : list A) :
  StronglySorted R (l1 ++ l2) ->
  StronglySorted R l1 /\ forall a b, In a l1 -> In b l2 -> R a b.
Proof.
  induction l1 as [| x l1 IH]; intros Hs.
  - split; [constructor | intros a b []].
  - simpl in Hs. apply StronglySorted_inv in Hs. destruct Hs as [Hs Hall].
    destruct (IH Hs) as [Hs1 Hcross]. apply Forall_app in Hall.
    destruct Hall as [Hall1 Hall2]. split; [constructor; assumption |].
    intros a b [-> | Ha] Hb.
    + rewrite Forall_forall in Hall2. apply Hall2. exact Hb.
    + apply Hcross; assumption.
Qed.

End SortArrays.


Section SliceArrays.

Context {A B : Type}.

Lemma slice_map (f : A -> B) (l : list A) (a b : Z) :
  JS.slice (map f l) a b = map f (JS.slice l a b).
Proof.
  unfold JS.slice. rewrite length_map, skipn_map, firstn_map. reflexivity.
Qed.

(** [slice(0, k)] with a negative [k] drops the last [-k] elements. *)
Lemma slice_negative_end (l : list A) (k : Z) :
  (k < 0)%Z ->
  JS.slice l 0 k = firstn (List.length l - Z.to_nat (- k)) l.
Proof.
  intros Hk. unfold JS.slice, JS.relIndex.
  destruct (Z.ltb_spec 0 0) as [H0 | _]; [lia |].
  destruct (Z.ltb_spec k 0) as [_ | Hk']; [| lia].
  rewrite Z.min_l by lia. cbn [Z.to_nat skipn]. f_equal. lia.
Qed.

End SliceArrays.

(** ** The vector store: [search] *)

Section Retrieval.

Context {E : Type} `{RT : Runtime E}.

Import VectorStore.
Local Open Scope float_scope.

Lemma scoreOf_not_nan (q : list float) (c : DocumentChunk) :
  is_nan (scoreOf q c) = false.
Proof.
  unfold scoreOf. destruct (embedding c) as [e |].
  - apply cosineSimilarity_not_nan.
  - reflexivity.
Qed.

(** The [{ chunk, score }] objects when the query has its embedding. *)
Lemma mapArray_scored (q : list float) (cs : list DocumentChunk) :
  JS.mapArray (scored (Some q)) cs = JS.Normal (map (withScore q) cs).
Proof.
  induction cs as [| c cs IH]; [reflexivity |].
  cbn [JS.mapArray map]. rewrite IH.
  unfold scored, withScore, scoreOf, similarity.
  destruct (embedding c); reflexivity.
Qed.

(** Without it, the first stored chunk that has an embedding ends the
    call: [cosineSimilarity] reads the length of [undefined]. *)
Lemma mapArray_scored_undefined (cs : list DocumentChunk) :
  JS.mapArray (scored None) cs =
  if existsb hasEmbedding cs then JS.Throw undefinedLength
  else JS.Normal (map (fun c => (c, 0)) cs).
Proof.
  induction cs as [| c cs IH]; [reflexivity |].
  cbn [JS.mapArray map existsb]. rewrite IH.
  unfold scored, similarity, hasEmbedding.
  destruct (embedding c) as [e |]; cbn [isSome orb]; [reflexivity |].
  destruct (existsb (fun c0 => isSome (embedding c0)) cs); reflexivity.
Qed.

(** Sorting leaves equal scores as they are. *)
Lemma sort_all_zero (cs : list DocumentChunk) :
  JS.sort byScoreDesc (map (fun c => (c, 0)) cs) = map (fun c => (c, 0)) cs.
Proof.
  induction cs as [| c cs IH]; [reflexivity |].
  cbn [map JS.sort fold_right].
  fold (JS.sort byScoreDesc (map (fun c => (c, 0)) cs)). rewrite IH.
  destruct cs as [| d cs]; reflexivity.
Qed.

(** The run of [search] on an index that is not empty, for any [k]. *)
Lemma search_run_any (query : string) (k : Z) (w : World E) :
  chunks w <> [] ->
  search query k w =
  match GeminiService.getEmbedding query GeminiService.defaultRetries w with
  | (JS.Normal (Some q), w1) =>
      (JS.Normal (JS.slice (ranked q (chunks w)) 0 k), w1)
  | (JS.Normal None, w1) =>
      if existsb hasEmbedding (chunks w) then (JS.Throw undefinedLength, w1)
      else (JS.Normal (JS.slice (chunks w) 0 k), w1)
  | (JS.Throw e, w1) => (JS.Throw e, w1)
  end.
Proof.
  intros Hne. unfold search, bind, getChunks.
  destruct (chunks w) as [| c cs] eqn:Hcs; [congruence |].
  cbn [List.length Nat.eqb].
  pose proof (getEmbedding_chunks query GeminiService.defaultRetries w) as Hch.
  destruct (GeminiService.getEmbedding query GeminiService.defaultRetries w)
    as [[[q |] | e] w1]; [| | reflexivity];
    cbn [snd] in Hch; unfold ret, complete; rewrite Hch, Hcs.
  - rewrite mapArray_scored.
    rewrite (sort_map (withScore q) byScoreDesc (c :: cs)), slice_map, map_map.
    do 2 f_equal. apply map_id.
  - rewrite mapArray_scored_undefined.
    destruct (existsb hasEmbedding (c :: cs)); [reflexivity |].
    rewrite sort_all_zero, slice_map, map_map. do 2 f_equal. apply map_id.
Qed.

(** The run of [search] for [k >= 0]. *)
Lemma search_run (query : string) (k : Z) (w : World E) :
  (0 <= k)%Z -> chunks w <> [] ->
  search query k w =
  match GeminiService.getEmbedding query GeminiService.defaultRetries w with
  | (JS.Normal (Some q), w1) =>
      (JS.Normal (firstn (Z.to_nat k) (ranked q (chunks w))), w1)
  | (JS.Normal None, w1) =>
      if existsb hasEmbedding (chunks w) then (JS.Throw undefinedLength, w1)
      else (JS.Normal (firstn (Z.to_nat k) (chunks w)), w1)
  | (JS.Throw e, w1) => (JS.Throw e, w1)
  end.
Proof.
  intros Hk Hne. rewrite (search_run_any query k w Hne).
  destruct (GeminiService.getEmbedding query GeminiService.defaultRetries w)
    as [[[q |] | e] w1]; rewrite ?(slice_from_zero _ k Hk); reflexivity.
Qed.

(** The ranking of the stored chunks, cut after [k]. *)
Lemma ranked_prefix (q : list float) (n : nat) (cs : list DocumentChunk) :
  let result := firstn n (ranked q cs) in
  let rest := skipn n (ranked q cs) in
  List.length result = Nat.min n (List.length cs) /\
  StronglySorted (fun c d => (scoreOf q d <=? scoreOf q c) = true) result /\
  (forall v, exists later,
      filter (fun c => scoreOf q c =? v) cs
      = filter (fun c => scoreOf q c =? v) result ++ later) /\
  Permutation (result ++ rest) cs /\
  (forall c d, In c result -> In d rest ->
               (scoreOf q d <=? scoreOf q c) = true).
Proof.
  intros result rest.
  pose proof (sort_sorted (scoreOf q) (scoreOf_not_nan q) cs) as Hsorted.
  pose proof (sort_perm (scoreOf q) (scoreOf_not_nan q) cs) as Hperm.
  fold (ranked q cs) in Hsorted, Hperm.
  rewrite <- (firstn_skipn n (ranked q cs)) in Hsorted, Hperm.
  fold result rest in Hsorted, Hperm.
  apply StronglySorted_app_cross in Hsorted. destruct Hsorted as [Hs Hcross].
  split.
  { unfold result. rewrite length_firstn. f_equal. apply Permutation_length.
    rewrite <- (firstn_skipn n (ranked q cs)). exact Hperm. }
  split; [exact Hs |]. split.
  { intros v. exists (filter (fun c => scoreOf q c =? v) rest).
    rewrite <- filter_app. unfold result, rest. rewrite firstn_skipn.
    symmetry. apply (sort_stable (scoreOf q) (scoreOf_not_nan q)). }
  split; [exact Hperm | exact Hcross].
Qed.

(** C4, for [k >= 0] and every state of the index, [n] being the number
    of stored chunks:
    - on an empty index [search] returns the empty array;
    - otherwise it throws what the embedding of the query throws;
    - when [getEmbedding] returns [undefined] (a reply whose embedding has
      no values), it throws the TypeError of [vecA.length] if a stored
      chunk has an embedding, and else returns the first [k] stored chunks
      as they are, all scores being [0];
    - when [getEmbedding] returns an array [q], it returns [result] with
      [min k n] entries, so at most [k]; the scores do not increase along
      [result], the score of a chunk being the cosine similarity of [q]
      and its embedding, and [0] without embedding; for every score [v]
      the entries of [result] that score [v] are the first stored chunks
      that score [v], in the order of the index; and the stored chunks
      left out score no more than any entry;
    - so whenever it returns, the result has [min k n] entries, at most
      [k], each a stored chunk of its own. *)
Theorem search_ranking (query : string) (k : Z) (w : World E) :
  (0 <= k)%Z ->
  (chunks w = [] -> search query k w = (JS.Normal [], w)) /\
  (forall e w1,
      chunks w <> [] ->
      GeminiService.getEmbedding query GeminiService.defaultRetries w
        = (JS.Throw e, w1) ->
      search query k w = (JS.Throw e, w1)) /\
  (forall w1,
      chunks w <> [] ->
      GeminiService.getEmbedding query GeminiService.defaultRetries w
        = (JS.Normal None, w1) ->
      search query k w =
      if existsb hasEmbedding (chunks w) then (JS.Throw undefinedLength, w1)
      else (JS.Normal (firstn (Z.to_nat k) (chunks w)), w1)) /\
  (forall q w1,
      chunks w <> [] ->
      GeminiService.getEmbedding query GeminiService.defaultRetries w
        = (JS.Normal (Some q), w1) ->
      exists result rest,
        search query k w = (JS.Normal result, w1) /\
        List.length result = Nat.min (Z.to_nat k) (List.length (chunks w)) /\
        (List.length result <= Z.to_nat k)%nat /\
        (forall c e, embedding c = Some e ->
                     scoreOf q c = cosineSimilarity q e) /\
        (forall c, embedding c = None -> scoreOf q c = 0) /\
        StronglySorted (fun c d => (scoreOf q d <=? scoreOf q c) = true) result /\
        (forall v, exists later,
            filter (fun c => scoreOf q c =? v) (chunks w)
            = filter (fun c => scoreOf q c =? v) result ++ later) /\
        Permutation (result ++ rest) (chunks w) /\
        (forall c d, In c result -> In d rest ->
                     (scoreOf q d <=? scoreOf q c) = true)) /\
  (forall result w',
      search query k w = (JS.Normal result, w') ->
      List.length result = Nat.min (Z.to_nat k) (List.length (chunks w)) /\
      (Z.of_nat (List.length result) <= k)%Z /\
      exists rest, Permutation (result ++ rest) (chunks w)).
Proof.
  intros Hk.
  assert (Hempty : chunks w = [] -> search query k w = (JS.Normal [], w)).
  { intros Hcs. unfold search, bind, getChunks. rewrite Hcs. reflexivity. }
  split; [exact Hempty |].
  assert (Hranked : forall q,
             exists result rest,
               result = firstn (Z.to_nat k) (ranked q (chunks w)) /\
               List.length result = Nat.min (Z.to_nat k) (List.length (chunks w)) /\
               (List.length result <= Z.to_nat k)%nat /\
               (forall c e, embedding c = Some e ->
                            scoreOf q c = cosineSimilarity q e) /\
               (forall c, embedding c = None -> scoreOf q c = 0) /\
               StronglySorted (fun c d => (scoreOf q d <=? scoreOf q c) = true)
                 result /\
               (forall v, exists later,
                   filter (fun c => scoreOf q c =? v) (chunks w)
                   = filter (fun c => scoreOf q c =? v) result ++ later) /\
               Permutation (result ++ rest) (chunks w) /\
               (forall c d, In c result -> In d rest ->
                            (scoreOf q d <=? scoreOf q c) = true)).
  { intros q.
    destruct (ranked_prefix q (Z.to_nat k) (chunks w))
      as (Hlen & Hs & Hstable & Hperm & Hcross).
    exists (firstn (Z.to_nat k) (ranked q (chunks w))),
      (skipn (Z.to_nat k) (ranked q (chunks w))).
    split; [reflexivity |]. split; [exact Hlen |].
    split; [apply firstn_le_length |].
    split; [intros c e He; unfold scoreOf; rewrite He; reflexivity |].
    split; [intros c He; unfold scoreOf; rewrite He; reflexivity |].
    repeat split; assumption. }
  split.
  { intros e w1 Hne He. rewrite (search_run query k w Hk Hne), He. reflexivity. }
  split.
  { intros w1 Hne He. rewrite (search_run query k w Hk Hne), He. reflexivity. }
  split.
  { intros q w1 Hne He.
    destruct (Hranked q) as (result & rest & Hres & Hprops).
    exists result, rest.
    split; [rewrite (search_run query k w Hk Hne), He, Hres; reflexivity |].
    exact Hprops. }
  intros result w' Hres.
  assert (Hcut : forall l : list DocumentChunk,
             Permutation l (chunks w) ->
             List.length (firstn (Z.to_nat k) l)
             = Nat.min (Z.to_nat k) (List.length (chunks w)) /\
             (Z.of_nat (List.length (firstn (Z.to_nat k) l)) <= k)%Z /\
             exists rest, Permutation (firstn (Z.to_nat k) l ++ rest) (chunks w)).
  { intros l Hperm. rewrite length_firstn, (Permutation_length Hperm).
    split; [reflexivity |]. split; [lia |].
    exists (skipn (Z.to_nat k) l). rewrite firstn_skipn. exact Hperm. }
  destruct (chunks w) as [| c0 cs] eqn:Hcs.
  - rewrite (Hempty eq_refl) in Hres. injection Hres as <- <-.
    cbn [List.length]. rewrite Nat.min_0_r.
    split; [reflexivity |]. split; [lia |]. exists []. constructor.
  - assert (Hne : chunks w <> []) by (rewrite Hcs; discriminate).
    rewrite (search_run query k w Hk Hne), Hcs in Hres.
    destruct (GeminiService.getEmbedding query GeminiService.defaultRetries w)
      as [[[q |] | e] w1]; [| | discriminate].
    + injection Hres as <- <-. apply Hcut.
      exact (sort_perm (scoreOf q) (scoreOf_not_nan q) (c0 :: cs)).
    + destruct (existsb hasEmbedding (c0 :: cs)); [discriminate |].
      injection Hres as <- <-. apply Hcut. apply Permutation_refl.
Qed.

End Retrieval.

(** The index holds the embeddings [[1, 0]], [[0, 1]] and [[1, 1]], the
    query is embedded as [[1, 0]], and two results are asked for: the first
    chunk (similarity 1), then the third (about 0.707), not the second
    (similarity 0). *)
Lemma search_ranking_witness :
  let w := Scripted.world [Scripted.ok [1; 0]%float] threeStored in
  exists result,
    fst (VectorStore.search "which way" 2 w) = JS.Normal result /\
    List.length result = 2 /\
    map text result = ["east"; "north-east"] /\
    map (scoreOf [1; 0]%float) result = [1; 0x1.6a09e667f3bccp-1]%float /\
    StronglySorted
      (fun c d => (scoreOf [1; 0]%float d <=? scoreOf [1; 0]%float c)%float = true)
      result.
Proof.
  intros w.
  destruct (search_ranking "which way" 2 w ltac:(lia)) as (_ & _ & _ & Hrank & _).
  destruct (Hrank [1; 0]%float
              (mkWorld (Scripted.mkState [] 0) threeStored
                 [EvEmbedContent "which way"]) ltac:(discriminate) eq_refl)
    as (result & rest & Hrun & Hlen & _ & _ & _ & Hsorted & _).
  assert (Hres : result = firstn 2 (ranked [1; 0]%float threeStored)).
  { vm_compute in Hrun. injection Hrun as Hrun. symmetry. exact Hrun. }
  exists result.
  split; [rewrite Hres; reflexivity |]. split; [exact Hlen |].
  split; [rewrite Hres; reflexivity |].
  split; [rewrite Hres; reflexivity | exact Hsorted].
Defined.

(** The same index and query with [k = -1]: [slice(0, -1)] drops the last
    entry of the ranking, and [search] returns two chunks, which is more
    than [k]. *)
Lemma search_negative_limit :
  fst (VectorStore.search "which way" (-1)
         (Scripted.world [Scripted.ok [1; 0]%float] threeStored))
  = JS.Normal (firstn 2 (ranked [1; 0]%float threeStored)) /\
  map text (firstn 2 (ranked [1; 0]%float threeStored)) = ["east"; "north-east"] /\
  (-1 < Z.of_nat (List.length (firstn 2 (ranked [1; 0]%float threeStored))))%Z.
Proof. repeat split. Qed.

(** A reply whose embedding has no values: [getEmbedding] returns
    [undefined], and [search] throws a TypeError at the first stored
    chunk. *)
Example search_without_values :
  fst (VectorStore.search "which way" 2
         (Scripted.world
            [Resolved (mkResponse (Some [mkContentEmbedding None]))]
            threeStored))
  = JS.Throw VectorStore.undefinedLength.
Proof. reflexivity. Qed.

(* ================================================================== *)
(** * Part III: further properties of the same code *)
(* ================================================================== *)

(** ** The vector store: what a run of [addChunks] does outside *)

Section IngestionTrace.

Context {E : Type} `{RT : Runtime E}.

Import VectorStore.

(** What a call of [getEmbedding] appends to the trace. *)
Lemma getEmbedding_added (t : string) (r : nat) (w : World E) :
  exists k added,
    k <= r /\
    trace (snd (GeminiService.getEmbedding t r w)) = trace w ++ added /\
    embedTexts added = repeat t (S k) /\
    progressReports added = [] /\
    pauseCount 150 added = 0 /\
    pauseCount 1000 added = k.
Proof.
  destruct (getEmbedding_shape t r w) as (k & Hk & _ & Hshape).
  destruct (attemptsTrace_calls t k) as (Hc & Hp & H1000 & H150).
  destruct (fst (GeminiService.getEmbedding t r w)) as [v | e].
  - exists k, (attemptsTrace t k). repeat split; assumption.
  - destruct Hshape as [Htrace _].
    exists k, (attemptsTrace t k
               ++ [EvConsoleError "Error generating embedding:" e]).
    rewrite embedTexts_app, progressReports_app, !pauseCount_app.
    rewrite Hc, Hp, H1000, H150. cbn. rewrite app_nil_r, !Nat.add_0_r.
    repeat split; assumption.
Qed.

(** What a run of [addChunks] appends to the trace: the final test and
    the assignment add no event.  The provider calls are those of chunks
    that take [k <= 2] retries each, in an order that depends on when the
    replies come; the first requests of the first batch come first. *)
Lemma addChunks_added (input : list NewChunk) (onProgress : bool) (w : World E) :
  exists ks added,
    List.length ks = List.length input /\
    Forall (fun k => k <= 2) ks /\
    trace (snd (addChunks input onProgress w)) = trace w ++ added /\
    Permutation (embedTexts added) (callsOf (combine input ks)) /\
    progressReports added =
      (if onProgress
       then map (fun i => (Nat.min (i + BATCH_SIZE) (List.length input),
                           List.length input))
              (forIndices (List.length input) BATCH_SIZE)
       else []) /\
    pauseCount 150 added
      = List.length (forIndices (List.length input) BATCH_SIZE) /\
    exists rest,
      added = map EvEmbedContent (map newText (firstn BATCH_SIZE input)) ++ rest.
Proof.
  destruct (addChunks_run input onProgress w)
    as (runs & ks & added & w' & _ & _ & _ & _ & Ht & Hrun & Hlen & Hks
        & Hcalls & Hprog & Hpause & Hfirst).
  exists ks, added.
  assert (Hend : trace (snd (addChunks input onProgress w)) = trace w').
  { rewrite Hrun.
    destruct ((List.length (validResults (map (fun run => snd (snd run)) runs)) =? 0)
              && (0 <? List.length input)); reflexivity. }
  rewrite Hend. repeat (split; [assumption |]). exact Hfirst.
Qed.

End IngestionTrace.

Section LoopIndices.

Lemma forIndices_batches (n : nat) :
  forIndices n VectorStore.BATCH_SIZE = map (fun j => j * 5) (seq 0 ((n + 4) / 5)).
Proof. reflexivity. Qed.



Lemma callsOf_bounds (input : list NewChunk) (ks : list nat) :
  List.length ks = List.length input ->
  Forall (fun k => k <= 2) ks ->
  List.length input <= List.length (callsOf (combine input ks))
                    <= 3 * List.length input
  /\ forall t, In t (callsOf (combine input ks)) -> In t (map newText input).
Proof.
  revert ks. induction input as [| c input IH]; intros [| k ks] Hlen Hks;
    try discriminate.
  - cbn. split; [lia | intros t []].
  - injection Hlen as Hlen. apply Forall_cons_iff in Hks.
    destruct Hks as [Hk Hks]. destruct (IH ks Hlen Hks) as [Hb Hin].
    unfold callsOf in *. cbn [combine map List.concat fst snd List.length].
    rewrite length_app, repeat_length. split; [lia |].
    intros t Ht. apply in_app_or in Ht. destruct Ht as [Ht | Ht].
    + apply repeat_spec in Ht. left. symmetry. exact Ht.
    + right. apply Hin. exact Ht.
Qed.

End LoopIndices.

Section IngestionReports.

Context {E : Type} `{RT : Runtime E}.

Import VectorStore.



End IngestionReports.

(** A rate limit for the first of two chunks: the retry for it comes
    after the request for the second. *)
Example addChunks_retry_after_batch :
  embedTexts
    (trace (snd (VectorStore.addChunks
                   [Scripted.chunkOf "one"; Scripted.chunkOf "two"] false
                   (Scripted.world
                      [Scripted.rateLimit; Scripted.ok [1; 2]%float;
                       Scripted.ok [3; 4]%float] []))))
  = ["one"; "two"; "one"].
Proof. reflexivity. Qed.

(** ** The vector store: removal, and what the operations keep *)

Section StoreOperations.

Context {E : Type} `{RT : Runtime E}.

Import VectorStore.

Lemma removeDocument_run (docId : string) (w : World E) :
  removeDocument docId w
  = (JS.Normal tt,
     mkWorld (env w)
       (filter (fun c => negb (String.eqb (documentId c) docId)) (chunks w))
       (trace w)).
Proof. reflexivity. Qed.

Lemma filter_idem {A} (f : A -> bool) (l : list A) :
  filter f (filter f l) = filter f l.
Proof.
  induction l as [| a l IH]; [reflexivity |].
  cbn [filter]. destruct (f a) eqn:Hf; [| exact IH].
  cbn [filter]. rewrite Hf, IH. reflexivity.
Qed.

Lemma filter_split_length {A} (f : A -> bool) (l : list A) :
  List.length (filter (fun a => negb (f a)) l) + List.length (filter f l)
  = List.length l.
Proof.
  induction l as [| a l IH]; [reflexivity |].
  cbn [filter]. destruct (f a); cbn [negb List.length]; lia.
Qed.

(** X3: [removeDocument] never fails and calls nobody; it removes the
    chunks of the document and only those, the chunks of every other
    document staying as they were, in their order; the count goes down by
    the number of chunks of the document; removing again changes
    nothing. *)
Theorem removeDocument_exact (docId : string) (w : World E) :
  let w' := snd (removeDocument docId w) in
  fst (removeDocument docId w) = JS.Normal tt /\
  env w' = env w /\
  trace w' = trace w /\
  (forall c, In c (chunks w') <-> In c (chunks w) /\ documentId c <> docId) /\
  (forall other, other <> docId ->
     filter (fun c => String.eqb (documentId c) other) (chunks w')
     = filter (fun c => String.eqb (documentId c) other) (chunks w)) /\
  getChunkCount w'
    + List.length (filter (fun c => String.eqb (documentId c) docId) (chunks w))
    = getChunkCount w /\
  removeDocument docId w' = (JS.Normal tt, w').
Proof.
  intros w'. unfold w'. rewrite removeDocument_run. cbn [fst snd env trace chunks].
  split; [reflexivity |]. split; [reflexivity |]. split; [reflexivity |].
  split.
  { intros c. rewrite filter_In, negb_true_iff. split.
    - intros [Hin Hne]. split; [exact Hin |].
      intros Heq. apply String.eqb_neq in Hne. contradiction.
    - intros [Hin Hne]. split; [exact Hin |]. apply String.eqb_neq. exact Hne. }
  split.
  { intros other Hother. rewrite filter_filter. apply filter_ext. intros c.
    destruct (String.eqb_spec (documentId c) docId) as [Heq | Hne];
      [| reflexivity].
    cbn. symmetry. apply String.eqb_neq. congruence. }
  split.
  { unfold getChunkCount. cbn [chunks].
    apply (filter_split_length (fun c => String.eqb (documentId c) docId)). }
  rewrite removeDocument_run. cbn [env trace chunks].
  rewrite filter_idem. reflexivity.
Qed.

Lemma validResults_outcomes (input : list NewChunk)
    (outs : list (option DocumentChunk)) (P : DocumentChunk -> Prop) :
  Forall2 outcomeOf input outs ->
  (forall c d, In c input -> sameChunk c d -> P d) ->
  Forall P (validResults outs).
Proof.
  induction 1 as [| c o input outs Hco _ IH]; intros HP; [constructor |].
  destruct o as [d |]; cbn [validResults].
  - constructor.
    + apply (HP c d); [left; reflexivity | exact Hco].
    + apply IH. intros c' d' Hin. apply HP. right. exact Hin.
  - apply IH. intros c' d' Hin. apply HP. right. exact Hin.
Qed.

(** The run of [addChunks] in terms of the outcomes of its embedding
    calls, of which there is one per input chunk. *)
Lemma addChunks_outcomes (input : list NewChunk) (onProgress : bool)
    (w : World E) :
  let outs := embedOutcomes input onProgress w in
  Forall2 outcomeOf input outs /\
  exists w',
    chunks w' = chunks w /\
    addChunks input onProgress w =
    if (List.length (validResults outs) =? 0) && (0 <? List.length input)
    then (JS.Throw (JS.mkError (Some failedMessage)), w')
    else (JS.Normal tt,
          mkWorld (env w') (chunks w ++ validResults outs) (trace w')).
Proof.
  intros outs.
  destruct (addChunks_run input onProgress w)
    as (runs & ks & added & w' & Hall & _ & Houts & Hch & _ & Hrun & _).
  unfold outs. rewrite Houts.
  split; [apply (runs_outcomes input runs Hall) |].
  exists w'. split; [exact Hch | exact Hrun].
Qed.

(** The chunks in the store after [addChunks]: the old ones, then new
    ones satisfying whatever holds of every chunk made of an input
    chunk. *)
Lemma addChunks_chunks (input : list NewChunk) (onProgress : bool)
    (w : World E) (P : DocumentChunk -> Prop) :
  (forall c d, In c input -> sameChunk c d -> P d) ->
  exists new,
    chunks (snd (addChunks input onProgress w)) = chunks w ++ new /\
    Forall P new.
Proof.
  intros HP.
  destruct (addChunks_outcomes input onProgress w) as [Hall (w' & Hch & Hrun)].
  rewrite Hrun.
  destruct ((List.length (validResults (embedOutcomes input onProgress w)) =? 0)
            && (0 <? List.length input)).
  - exists []. cbn [snd]. rewrite Hch, app_nil_r. split; [reflexivity | constructor].
  - exists (validResults (embedOutcomes input onProgress w)). cbn [snd chunks].
    split; [reflexivity |].
    apply (validResults_outcomes input _ P Hall HP).
Qed.

(** X4: adding the chunks of a document and then removing the document
    gives the store back, when the store held no chunk of that document:
    whether [addChunks] succeeded, failed in part, or threw. *)
Theorem addChunks_then_removeDocument (input : list NewChunk)
    (onProgress : bool) (docId : string) (w : World E) :
  Forall (fun c => newDocumentId c = docId) input ->
  Forall (fun c => documentId c <> docId) (chunks w) ->
  chunks (snd (removeDocument docId (snd (addChunks input onProgress w))))
  = chunks w.
Proof.
  intros Hinput Hstore.
  destruct (addChunks_chunks input onProgress w (fun d => documentId d = docId))
    as (new & Hch & Hnew).
  { intros c d Hin (Hid & _). rewrite Forall_forall in Hinput.
    rewrite Hid. apply Hinput. exact Hin. }
  rewrite removeDocument_run. cbn [snd chunks]. rewrite Hch, filter_app.
  assert (Hold : filter (fun c => negb (String.eqb (documentId c) docId)) (chunks w)
                 = chunks w).
  { clear - Hstore. induction Hstore as [| c l Hc _ IH]; [reflexivity |].
    cbn [filter]. apply String.eqb_neq in Hc. rewrite Hc. cbn [negb].
    f_equal. exact IH. }
  assert (Hgone : filter (fun c => negb (String.eqb (documentId c) docId)) new = []).
  { clear - Hnew. induction Hnew as [| c l Hc _ IH]; [reflexivity |].
    cbn [filter]. rewrite Hc, String.eqb_refl. cbn [negb]. exact IH. }
  rewrite Hold, Hgone. apply app_nil_r.
Qed.

Lemma survivors_defined (input : list NewChunk)
    (calls : list (JS.Completion (option (list float)))) :
  Forall (fun call => call <> JS.Normal None) calls ->
  Forall (fun s => snd s <> None) (survivors input calls).
Proof.
  unfold survivors. intros Hcalls. revert input.
  induction Hcalls as [| call calls Hcall _ IH]; intros [| c input];
    try constructor.
  cbn [combine flat_map fst snd].
  destruct call as [[v |] | err]; cbn [app]; [| congruence | apply IH].
  constructor; [discriminate | apply IH].
Qed.

Lemma survivors_undefined (input : list NewChunk)
    (calls : list (JS.Completion (option (list float)))) :
  List.length calls = List.length input ->
  In (JS.Normal None) calls ->
  Exists (fun s => snd s = None) (survivors input calls).
Proof.
  unfold survivors. revert calls.
  induction input as [| c input IH]; intros [| call calls] Hlen Hin;
    try discriminate; [destruct Hin |].
  cbn [combine flat_map fst snd]. injection Hlen as Hlen.
  destruct Hin as [-> | Hin].
  - apply Exists_cons_hd. reflexivity.
  - apply Exists_app. right. apply IH; assumption.
Qed.

(** X5: [addChunks] stores for embedding whatever the embedding call
    returned, so it keeps the invariant that every stored chunk has an
    embedding when no call of the run returned [undefined], and breaks it
    when one did; [removeDocument] and [clear] keep it.  Under the
    invariant [search] scores every chunk by cosine similarity: its
    branch for a chunk without embedding is not taken. *)
Theorem store_keeps_embeddings (input : list NewChunk) (onProgress : bool)
    (docId : string) (w : World E) :
  forallb hasEmbedding (chunks w) = true ->
  (Forall (fun call => call <> JS.Normal None) (embedCalls input onProgress w) ->
   forallb hasEmbedding (chunks (snd (addChunks input onProgress w))) = true) /\
  (In (JS.Normal None) (embedCalls input onProgress w) ->
   forallb hasEmbedding (chunks (snd (addChunks input onProgress w))) = false) /\
  forallb hasEmbedding (chunks (snd (removeDocument docId w))) = true /\
  forallb hasEmbedding (chunks (snd (clear w))) = true /\
  (forall q c, In c (chunks w) ->
     exists e, embedding c = Some e /\ scoreOf q c = cosineSimilarity q e).
Proof.
  intros Hinv.
  destruct (addChunks_run input onProgress w)
    as (runs & ks & added & w' & Hall & Hcalls & _ & Hch & _ & Hrun & _).
  destruct (runs_outcomes input runs Hall) as (_ & _ & _ & Hcount & Hstored).
  rewrite Hcalls.
  set (calls := map (fun run => fst (snd run)) runs) in *.
  set (outs := map (fun run => snd (snd run)) runs) in *.
  split.
  { intros Hdefined. rewrite Hrun.
    destruct ((List.length (validResults outs) =? 0) && (0 <? List.length input));
      cbn [snd chunks]; [rewrite Hch; exact Hinv |].
    rewrite forallb_app, Hinv. cbn [andb].
    pose proof (survivors_defined input calls Hdefined) as Hs.
    clear - Hs Hstored. apply forallb_forall. intros d Hd.
    induction Hstored as [| s d' ss ds [_ Hsd] _ IH]; [destruct Hd |].
    apply Forall_cons_iff in Hs. destruct Hs as [Hs Hss].
    destruct Hd as [<- | Hd]; [| apply IH; assumption].
    unfold hasEmbedding. rewrite Hsd. destruct (snd s); [reflexivity | congruence]. }
  split.
  { intros Hin.
    assert (Hlen : List.length calls = List.length input).
    { unfold calls. rewrite length_map. symmetry.
      apply (Forall2_length Hall). }
    pose proof (survivors_undefined input calls Hlen Hin) as Hs.
    assert (Hnew : Exists (fun d => hasEmbedding d = false) (validResults outs)).
    { clear - Hs Hstored.
      induction Hstored as [| s d ss ds [_ Hsd] _ IH]; [inversion Hs |].
      apply Exists_cons in Hs. destruct Hs as [Hs | Hs].
      - apply Exists_cons_hd. unfold hasEmbedding. rewrite Hsd, Hs. reflexivity.
      - apply Exists_cons_tl. apply IH. exact Hs. }
    assert (Hpos : (List.length (validResults outs) =? 0) = false).
    { apply Nat.eqb_neq. destruct Hnew; cbn; lia. }
    rewrite Hrun, Hpos. cbn [andb snd chunks].
    rewrite forallb_app, Hinv. cbn [andb].
    clear - Hnew. induction Hnew as [d ds Hd | d ds _ IH]; cbn [forallb].
    - rewrite Hd. reflexivity.
    - rewrite IH. apply andb_false_r. }
  rewrite forallb_forall in Hinv.
  split.
  { rewrite removeDocument_run. cbn [snd chunks]. apply forallb_forall.
    intros c Hc. apply filter_In in Hc. apply Hinv. apply Hc. }
  split; [reflexivity |].
  intros q c Hc. specialize (Hinv c Hc). unfold hasEmbedding in Hinv.
  unfold scoreOf.
  destruct (embedding c) as [e |]; [| discriminate].
  exists e. split; reflexivity.
Qed.

End StoreOperations.

(** Three chunks of the document [A] are in the store; a batch for the
    document [doc-a] is added, two of its five chunks failing to embed,
    and the document is removed again. *)
Lemma addChunks_then_removeDocument_witness :
  let w := Scripted.world
             [Scripted.ok [1; 2]%float; Scripted.failure;
              Scripted.ok [3; 4]%float; Scripted.failure;
              Scripted.ok [5; 6]%float] threeStored in
  VectorStore.getChunkCount (snd (VectorStore.addChunks Scripted.fiveChunks true w))
    = 6 /\
  chunks (snd (VectorStore.removeDocument "doc-a"
                 (snd (VectorStore.addChunks Scripted.fiveChunks true w))))
  = threeStored.
Proof.
  intros w. split; [reflexivity |].
  apply (addChunks_then_removeDocument Scripted.fiveChunks true "doc-a" w).
  - repeat constructor.
  - repeat constructor; discriminate.
Defined.

(** The three stored chunks have their embeddings.  A batch of two is
    added, the reply for the second having no values: the second chunk
    is stored without embedding. *)
Lemma store_keeps_embeddings_witness :
  let w := Scripted.world
             [Scripted.ok [1; 2]%float;
              Resolved (mkResponse (Some [mkContentEmbedding None]))]
             threeStored in
  let input := [Scripted.chunkOf "one"; Scripted.chunkOf "two"] in
  forallb hasEmbedding (chunks w) = true /\
  forallb hasEmbedding
    (chunks (snd (VectorStore.addChunks input false w))) = false /\
  map embedding (chunks (snd (VectorStore.addChunks input false w)))
    = [Some [1; 0]%float; Some [0; 1]%float; Some [1; 1]%float;
       Some [1; 2]%float; None].
Proof.
  intros w input.
  destruct (store_keeps_embeddings input false "A" w eq_refl)
    as (_ & Hbreak & _).
  split; [reflexivity |].
  split; [apply Hbreak; right; left; reflexivity | reflexivity].
Defined.

(** ** The vector store: more on [search] *)

Section RetrievalEdges.

Context {E : Type} `{RT : Runtime E}.

Import VectorStore.

Lemma search_world (query : string) (k : Z) (w : World E) :
  chunks w <> [] ->
  snd (search query k w)
  = snd (GeminiService.getEmbedding query GeminiService.defaultRetries w).
Proof.
  intros Hne. rewrite (search_run_any query k w Hne).
  destruct (GeminiService.getEmbedding query GeminiService.defaultRetries w)
    as [[[q |] | e] w1]; try reflexivity.
  destruct (existsb hasEmbedding (chunks w)); reflexivity.
Qed.

(** X6: [search] only reads the store, whatever [k] is and whether it
    returns or throws; it asks the provider for the query text alone, at
    most three times, and for nothing when the index is empty; it reports
    no progress. *)
Theorem search_reads_only (query : string) (k : Z) (w : World E) :
  chunks (snd (search query k w)) = chunks w /\
  exists added,
    trace (snd (search query k w)) = trace w ++ added /\
    (forall t, In t (embedTexts added) -> t = query) /\
    List.length (embedTexts added) <= 3 /\
    progressReports added = [] /\
    (chunks w = [] -> added = []).
Proof.
  destruct (chunks w) as [| c cs] eqn:Hcs.
  - assert (Hrun : search query k w = (JS.Normal [], w)).
    { unfold search, bind, getChunks. rewrite Hcs. reflexivity. }
    rewrite Hrun. cbn [snd]. split; [exact Hcs |].
    exists []. rewrite app_nil_r. cbn.
    split; [reflexivity |]. split; [intros t [] |]. split; [lia |].
    split; reflexivity.
  - assert (Hne : chunks w <> []) by (rewrite Hcs; discriminate).
    pose proof (getEmbedding_chunks query GeminiService.defaultRetries w) as Hch.
    destruct (getEmbedding_added query GeminiService.defaultRetries w)
      as (n & added & Hn & Ht & Hc & Hp & _).
    rewrite (search_world query k w Hne), Hch, Hcs. split; [reflexivity |].
    exists added. split; [exact Ht |]. rewrite Hc, repeat_length.
    split; [intros t Hin; apply repeat_spec in Hin; exact Hin |].
    split; [unfold GeminiService.defaultRetries in Hn; lia |].
    split; [exact Hp | discriminate].
Qed.

(** X7: asked for at least as many results as there are stored chunks,
    [search] returns every stored chunk once: as ranked by the embedding
    [q] that [getEmbedding] returns for the query, best first, and in the
    order of the index when [getEmbedding] returns [undefined]. *)
Theorem search_returns_all (query : string) (k : Z) (w : World E)
    (result : list DocumentChunk) (w' : World E) :
  (Z.of_nat (getChunkCount w) <= k)%Z ->
  search query k w = (JS.Normal result, w') ->
  Permutation result (chunks w) /\
  List.length result = getChunkCount w /\
  (forall q w1,
      GeminiService.getEmbedding query GeminiService.defaultRetries w
        = (JS.Normal (Some q), w1) ->
      result = ranked q (chunks w) /\
      StronglySorted (fun c d => (scoreOf q d <=? scoreOf q c)%float = true)
        result) /\
  (forall w1,
      GeminiService.getEmbedding query GeminiService.defaultRetries w
        = (JS.Normal None, w1) ->
      result = chunks w).
Proof.
  unfold getChunkCount. intros Hk Hres.
  destruct (chunks w) as [| c cs] eqn:Hcs.
  - assert (Hrun : search query k w = (JS.Normal [], w)).
    { unfold search, bind, getChunks. rewrite Hcs. reflexivity. }
    rewrite Hrun in Hres. injection Hres as <- <-.
    split; [constructor |]. split; [reflexivity |].
    split; [intros q w1 _; split; [reflexivity | constructor] |].
    intros w1 _. reflexivity.
  - assert (Hne : chunks w <> []) by (rewrite Hcs; discriminate).
    pose proof (search_run query k w ltac:(lia) Hne) as Hrun.
    rewrite Hrun in Hres. clear Hrun. rewrite Hcs in Hres.
    destruct (GeminiService.getEmbedding query GeminiService.defaultRetries w)
      as [[[q |] | e] w1]; [| | discriminate].
    + destruct (ranked_prefix q (Z.to_nat k) (c :: cs))
        as (Hlen & Hs & _ & Hperm & _).
      assert (Hn : List.length (ranked q (c :: cs)) = List.length (c :: cs)).
      { apply Permutation_length.
        exact (sort_perm (scoreOf q) (scoreOf_not_nan q) (c :: cs)). }
      assert (Hall : firstn (Z.to_nat k) (ranked q (c :: cs)) = ranked q (c :: cs)).
      { apply firstn_all2. rewrite Hn. lia. }
      rewrite Hall in Hs.
      assert (Hr : result = ranked q (c :: cs)).
      { rewrite <- Hall. injection Hres as Hres _. symmetry. exact Hres. }
      rewrite Hr.
      split; [exact (sort_perm (scoreOf q) (scoreOf_not_nan q) (c :: cs)) |].
      split; [exact Hn |].
      split; [| intros w2 Habs; discriminate].
      intros q' w2 Hq. injection Hq as <- _. split; [reflexivity | exact Hs].
    + destruct (existsb hasEmbedding (c :: cs)); [discriminate |].
      assert (Hall : firstn (Z.to_nat k) (c :: cs) = c :: cs).
      { apply firstn_all2. lia. }
      assert (Hr : result = c :: cs).
      { rewrite <- Hall. injection Hres as Hres _. symmetry. exact Hres. }
      rewrite Hr.
      split; [apply Permutation_refl |]. split; [reflexivity |].
      split; [intros q w2 Habs; discriminate | intros w2 _; reflexivity].
Qed.

(** X8: for a negative [k], [slice(0, k)] counts from the end, and
    [search] returns the ranking without its last [-k] entries: one entry
    per stored chunk but [-k], none when there are [-k] stored chunks or
    fewer.  The ranking is that by the embedding [q] that [getEmbedding]
    returns for the query, and the order of the index when [getEmbedding]
    returns [undefined]. *)
Theorem search_negative_k (query : string) (k : Z) (w : World E)
    (result : list DocumentChunk) (w' : World E) :
  (k < 0)%Z ->
  search query k w = (JS.Normal result, w') ->
  List.length result = getChunkCount w - Z.to_nat (- k) /\
  (getChunkCount w <= Z.to_nat (- k) -> result = []) /\
  (forall q w1,
      GeminiService.getEmbedding query GeminiService.defaultRetries w
        = (JS.Normal (Some q), w1) ->
      result = firstn (getChunkCount w - Z.to_nat (- k)) (ranked q (chunks w))) /\
  (forall w1,
      GeminiService.getEmbedding query GeminiService.defaultRetries w
        = (JS.Normal None, w1) ->
      result = firstn (getChunkCount w - Z.to_nat (- k)) (chunks w)).
Proof.
  unfold getChunkCount. intros Hk Hres.
  assert (Hnone : forall l : list DocumentChunk,
             List.length l <= Z.to_nat (- k) ->
             List.length result = List.length l - Z.to_nat (- k) ->
             result = []).
  { intros l Hle Hlen. destruct result; [reflexivity | cbn in Hlen; lia]. }
  destruct (chunks w) as [| c cs] eqn:Hcs.
  - assert (Hrun : search query k w = (JS.Normal [], w)).
    { unfold search, bind, getChunks. rewrite Hcs. reflexivity. }
    rewrite Hrun in Hres. injection Hres as <- <-.
    split; [reflexivity |]. split; [reflexivity |].
    split; [intros q w1 _; reflexivity | intros w1 _; reflexivity].
  - assert (Hne : chunks w <> []) by (rewrite Hcs; discriminate).
    pose proof (search_run_any query k w Hne) as Hrun.
    rewrite Hrun in Hres. clear Hrun. rewrite Hcs in Hres.
    destruct (GeminiService.getEmbedding query GeminiService.defaultRetries w)
      as [[[q |] | e] w1]; [| | discriminate].
    + assert (Hn : List.length (ranked q (c :: cs)) = List.length (c :: cs)).
      { apply Permutation_length.
        exact (sort_perm (scoreOf q) (scoreOf_not_nan q) (c :: cs)). }
      rewrite slice_negative_end in Hres by exact Hk. rewrite Hn in Hres.
      assert (Hr : firstn (List.length (c :: cs) - Z.to_nat (- k))
                     (ranked q (c :: cs)) = result).
      { injection Hres as Hres _. exact Hres. }
      clear Hres. rename Hr into Hres.
      assert (Hlen : List.length result = List.length (c :: cs) - Z.to_nat (- k)).
      { rewrite <- Hres, length_firstn, Hn. lia. }
      split; [exact Hlen |].
      split; [intros Hle; apply (Hnone (c :: cs) Hle Hlen) |].
      split; [| intros w2 Habs; discriminate].
      intros q' w2 Hq. injection Hq as <- _. symmetry. exact Hres.
    + destruct (existsb hasEmbedding (c :: cs)); [discriminate |].
      rewrite slice_negative_end in Hres by exact Hk.
      assert (Hr : firstn (List.length (c :: cs) - Z.to_nat (- k)) (c :: cs)
                   = result).
      { injection Hres as Hres _. exact Hres. }
      clear Hres. rename Hr into Hres.
      assert (Hlen : List.length result = List.length (c :: cs) - Z.to_nat (- k)).
      { rewrite <- Hres, length_firstn. lia. }
      split; [exact Hlen |].
      split; [intros Hle; apply (Hnone (c :: cs) Hle Hlen) |].
      split; [intros q w2 Habs; discriminate |].
      intros w2 _. symmetry. exact Hres.
Qed.

End RetrievalEdges.

(** Three stored chunks and [k = 10]: all three come back, the best
    first. *)
Lemma search_returns_all_witness :
  let w := Scripted.world [Scripted.ok [1; 0]%float] threeStored in
  exists result,
    fst (VectorStore.search "which way" 10 w) = JS.Normal result /\
    Permutation result threeStored /\
    result = ranked [1; 0]%float threeStored /\
    map text result = ["east"; "north-east"; "north"].
Proof.
  intros w.
  set (result := firstn 10 (ranked [1; 0]%float threeStored)).
  destruct (search_returns_all "which way" 10 w result
              (mkWorld (Scripted.mkState [] 0) threeStored
                 [EvEmbedContent "which way"]))
    as (Hperm & _ & Hranked & _); [cbn; lia | reflexivity |].
  destruct (Hranked [1; 0]%float
              (mkWorld (Scripted.mkState [] 0) threeStored
                 [EvEmbedContent "which way"]) eq_refl) as [Hres _].
  exists result. split; [reflexivity |]. split; [exact Hperm |].
  split; [exact Hres | reflexivity].
Defined.

(** Three stored chunks and [k = -1]: the two best come back; and
    [k = -3]: none. *)
Lemma search_negative_k_witness :
  let w := Scripted.world [Scripted.ok [1; 0]%float] threeStored in
  (exists result,
      fst (VectorStore.search "which way" (-1) w) = JS.Normal result /\
      List.length result = 2 /\
      map text result = ["east"; "north-east"]) /\
  fst (VectorStore.search "which way" (-3) w) = JS.Normal [].
Proof.
  intros w. split.
  - set (result := firstn 2 (ranked [1; 0]%float threeStored)).
    destruct (search_negative_k "which way" (-1) w result
                (mkWorld (Scripted.mkState [] 0) threeStored
                   [EvEmbedContent "which way"]))
      as (Hlen & _); [lia | reflexivity |].
    exists result. split; [reflexivity |]. split; [exact Hlen | reflexivity].
  - reflexivity.
Defined.
(** ** The vector store: cosine similarity of arrays of different lengths *)

Section CosineLengths.

Import VectorStore.
Local Open Scope float_scope.

Lemma is_nan_mul_r (x y : float) : is_nan y = true -> is_nan (x * y) = true.
Proof.
  rewrite !is_nan_spec, mul_spec. intros ->.
  destruct (Prim2SF x); reflexivity.
Qed.

Lemma is_nan_add_l (x y : float) : is_nan x = true -> is_nan (x + y) = true.
Proof. rewrite !is_nan_spec, add_spec. intros ->. reflexivity. Qed.

Lemma is_nan_add_r (x y : float) : is_nan y = true -> is_nan (x + y) = true.
Proof.
  rewrite !is_nan_spec, add_spec. intros ->.
  destruct (Prim2SF x); reflexivity.
Qed.

Lemma is_nan_div_l (x y : float) : is_nan x = true -> is_nan (x / y) = true.
Proof. rewrite !is_nan_spec, div_spec. intros ->. reflexivity. Qed.

(** Once the dot product is NaN it stays NaN, and it becomes NaN when the
    loop reads [vecB] past its end. *)
Lemma cosineLoop_nan (a b : list float) (n i : nat)
    (acc : float * float * float) :
  is_nan (fst (fst acc)) = true \/ List.length b < i + n ->
  (List.length b < i + n -> i <= List.length b \/ is_nan (fst (fst acc)) = true) ->
  is_nan (fst (fst (cosineLoop a b i n acc))) = true.
Proof.
  revert i acc. induction n as [| n IH]; intros i [[d na] nb] Hor Hin.
  - cbn [cosineLoop fst] in *. destruct Hor as [Hd | Hlt]; [exact Hd |].
    destruct (Hin Hlt) as [Hle | Hd]; [lia | exact Hd].
  - cbn [cosineLoop]. apply IH; cbn [fst].
    + destruct Hor as [Hd | Hlt]; [left; apply is_nan_add_l; exact Hd |].
      cbn [fst] in Hin. destruct (Hin Hlt) as [Hle | Hd];
        [| left; apply is_nan_add_l; exact Hd].
      destruct (Nat.eq_dec i (List.length b)) as [-> | Hne].
      * left. apply is_nan_add_r, is_nan_mul_r.
        unfold JS.numAt. rewrite nth_overflow by lia. reflexivity.
      * right. lia.
    + intros Hlt. cbn [fst] in Hin.
      destruct (Nat.le_gt_cases (S i) (List.length b)) as [Hle | Hgt];
        [left; exact Hle | right].
      destruct Hor as [Hd | Hlt']; [apply is_nan_add_l; exact Hd |].
      destruct (Hin Hlt') as [Hle | Hd]; [| apply is_nan_add_l; exact Hd].
      apply is_nan_add_r, is_nan_mul_r.
      unfold JS.numAt. rewrite nth_overflow by lia. reflexivity.
Qed.

(** The loop reads [vecB] at the positions of [vecA] only. *)
Lemma cosineLoop_reads (a b b' : list float) (n i : nat)
    (acc : float * float * float) :
  (forall j, i <= j < i + n -> JS.numAt b j = JS.numAt b' j) ->
  cosineLoop a b i n acc = cosineLoop a b' i n acc.
Proof.
  revert i acc. induction n as [| n IH]; intros i [[d na] nb] Hsame;
    [reflexivity |].
  cbn [cosineLoop]. rewrite (Hsame i) by lia. apply IH.
  intros j Hj. apply Hsame. lia.
Qed.

(** X9: the similarity of an array with a shorter one is [0] (the loop
    reads [undefined] past the end of the shorter array, which makes the
    quotient NaN), and the components of the second array past the length
    of the first are not read. *)
Theorem cosineSimilarity_lengths (a b : list float) :
  (List.length b < List.length a -> cosineSimilarity a b = 0) /\
  (List.length a <= List.length b ->
   cosineSimilarity a b = cosineSimilarity a (firstn (List.length a) b)).
Proof.
  split.
  - intros Hlt. unfold cosineSimilarity.
    pose proof (cosineLoop_nan a b (List.length a) 0 (0, 0, 0)) as Hnan.
    destruct (cosineLoop a b 0 (List.length a) (0, 0, 0)) as [[d na] nb].
    cbn [fst] in Hnan. unfold JS.isNaN.
    rewrite is_nan_div_l; [reflexivity |].
    apply Hnan; [right; exact Hlt | intros _; left; lia].
  - intros Hle. unfold cosineSimilarity.
    rewrite (cosineLoop_reads a b (firstn (List.length a) b)); [reflexivity |].
    intros j Hj. unfold JS.numAt. rewrite nth_firstn.
    destruct (Nat.ltb_spec j (List.length a)) as [_ | Hge]; [reflexivity | lia].
Qed.

End CosineLengths.

(** A query embedding of three components against stored embeddings of
    two and of four components. *)
Lemma cosineSimilarity_lengths_witness :
  VectorStore.cosineSimilarity [1; 2; 3]%float [1; 2]%float = 0%float /\
  VectorStore.cosineSimilarity [1; 2; 3]%float [1; 2; 3; 4]%float
  = VectorStore.cosineSimilarity [1; 2; 3]%float [1; 2; 3]%float.
Proof.
  destruct (cosineSimilarity_lengths [1; 2; 3]%float [1; 2]%float) as [Hshort _].
  destruct (cosineSimilarity_lengths [1; 2; 3]%float [1; 2; 3; 4]%float)
    as [_ Hlong].
  split; [apply Hshort; cbn; lia | apply Hlong; cbn; lia].
Defined.

(** ** The chunker: count, reconstruction, and its edges *)

Section ChunkerEdges.

Import DocumentProcessor.

Lemma string_of_list_app (a b : list ascii) :
  string_of_list_ascii (a ++ b)
  = String.append (string_of_list_ascii a) (string_of_list_ascii b).
Proof. induction a as [| c a IH]; [reflexivity |]. cbn. rewrite IH. reflexivity. Qed.

Lemma string_length_list (s : string) :
  String.length s = List.length (list_ascii_of_string s).
Proof. induction s as [| c s IH]; [reflexivity |]. cbn. rewrite IH. reflexivity. Qed.

Lemma concat_empty_sep (l : list string) :
  String.concat "" l = fold_right String.append "" l.
Proof.
  induction l as [| x l IH]; [reflexivity |].
  destruct l as [| y l].
  - cbn. clear. induction x as [| c x IH]; [reflexivity |]. cbn. rewrite <- IH.
    reflexivity.
  - change (String.concat "" (x :: y :: l))
      with (String.append x (String.append "" (String.concat "" (y :: l)))).
    rewrite IH. reflexivity.
Qed.

Lemma fold_append_list (ls : list (list ascii)) :
  fold_right String.append "" (map string_of_list_ascii ls)
  = string_of_list_ascii (List.concat ls).
Proof.
  induction ls as [| l ls IH]; [reflexivity |].
  cbn [map fold_right List.concat]. rewrite IH, string_of_list_app. reflexivity.
Qed.

(** The number of chunks and the chunks themselves, for valid
    parameters. *)
Lemma chunkText_run (fuel : nat) (t : string) (sz ov step : nat) :
  0 < step -> sz = step + ov ->
  0 < String.length t -> String.length t <= fuel ->
  exists m,
    chunkText fuel t (Z.of_nat sz) (Z.of_nat ov)
    = Some (map (fun q => substring (q * step) sz t) (seq 0 (S m))) /\
    String.length t <= m * step + sz /\
    (forall q, q < m -> q * step + sz < String.length t).
Proof.
  intros Hstep Hsz Hpos Hfuel. unfold chunkText.
  destruct (Nat.eqb_spec (String.length t) 0) as [Hz | _]; [lia |].
  destruct (chunkLoop_run t sz ov step Hstep Hsz fuel 0 [])
    as (m & Hrun & Hlast & Hfull); [simpl; lia | simpl; lia |].
  exists m. split; [exact Hrun |]. split; [exact Hlast |].
  intros q Hq. apply Hfull. lia.
Qed.

(** X10: for [chunkSize > overlap >= 0] the number of chunks is [0] for
    the empty text, [1] for a text of at most [chunkSize] characters, and
    otherwise one more than the number of steps of
    [chunkSize - overlap] that cover the characters after the first
    chunk. *)
Theorem chunkText_count (fuel : nat) (t : string) (chunkSize overlap : Z) :
  (0 <= overlap < chunkSize)%Z ->
  String.length t <= fuel ->
  let step := Z.to_nat (chunkSize - overlap) in
  let sz := Z.to_nat chunkSize in
  let len := String.length t in
  exists cs,
    chunkText fuel t chunkSize overlap = Some cs /\
    List.length cs =
      if len =? 0 then 0
      else if len <=? sz then 1
      else 1 + (len - sz + step - 1) / step.
Proof.
  intros Hparams Hfuel step sz len.
  assert (Hstep : 0 < step) by (unfold step; lia).
  assert (Hsz : sz = step + Z.to_nat overlap) by (unfold sz, step; lia).
  destruct (Nat.eqb_spec len 0) as [Hzero | Hpos].
  - exists []. unfold chunkText. fold len. rewrite Hzero. split; reflexivity.
  - destruct (chunkText_run fuel t sz (Z.to_nat overlap) step Hstep Hsz)
      as (m & Hrun & Hlast & Hfull); [fold len; lia | exact Hfuel |].
    fold len in Hlast, Hfull.
    replace (Z.of_nat sz) with chunkSize in Hrun by (unfold sz; lia).
    replace (Z.of_nat (Z.to_nat overlap)) with overlap in Hrun by lia.
    eexists. split; [exact Hrun |].
    rewrite length_map, length_seq.
    destruct (Nat.leb_spec len sz) as [Hfits | Hlong].
    + destruct m as [| m]; [reflexivity |].
      specialize (Hfull 0 ltac:(lia)). simpl in Hfull. lia.
    + cbn [Nat.add]. f_equal. destruct m as [| m]; [simpl in Hlast; lia |].
      specialize (Hfull m ltac:(lia)).
      apply (Nat.div_unique _ _ _ (len - sz + step - 1 - S m * step)); nia.
Qed.

Lemma window_pieces (L : list ascii) (sz ov step j : nat) :
  sz = step + ov ->
  skipn ov (firstn sz (skipn (S j * step) L))
  = firstn step (skipn (j * step) (skipn sz L)).
Proof.
  intros ->. rewrite skipn_firstn_comm, !skipn_skipn.
  replace (step + ov - ov) with step by lia.
  do 2 f_equal. simpl. lia.
Qed.

Lemma dropChars_window (t : string) (sz ov step j : nat) :
  sz = step + ov ->
  dropChars ov (substring (S j * step) sz t)
  = string_of_list_ascii
      (firstn step (skipn (j * step) (skipn sz (list_ascii_of_string t)))).
Proof.
  intros Hsz. unfold dropChars.
  rewrite <- (substring_of_list t (S j * step) sz).
  rewrite <- substring_of_list, list_ascii_of_string_of_list_ascii.
  rewrite string_length_list, list_ascii_of_string_of_list_ascii.
  rewrite <- (window_pieces _ sz ov step j Hsz). f_equal.
  apply firstn_all2. rewrite length_skipn. lia.
Qed.

(** X11: for [chunkSize > overlap >= 0] the text is the first chunk
    followed by the other chunks without their first [overlap]
    characters: chunking loses nothing and repeats nothing else. *)
Theorem chunkText_rebuilds (fuel : nat) (t : string) (chunkSize overlap : Z) :
  (0 <= overlap < chunkSize)%Z ->
  String.length t <= fuel ->
  exists cs,
    chunkText fuel t chunkSize overlap = Some cs /\
    rebuild (Z.to_nat overlap) cs = t.
Proof.
  intros Hparams Hfuel.
  set (step := Z.to_nat (chunkSize - overlap)).
  set (sz := Z.to_nat chunkSize). set (ov := Z.to_nat overlap).
  assert (Hstep : 0 < step) by (unfold step; lia).
  assert (Hsz : sz = step + ov) by (unfold sz, step, ov; lia).
  destruct (Nat.eq_dec (String.length t) 0) as [Hzero | Hpos].
  - exists []. unfold chunkText. rewrite Hzero. split; [reflexivity |].
    destruct t; [reflexivity | discriminate].
  - destruct (chunkText_run fuel t sz ov step Hstep Hsz)
      as (m & Hrun & Hlast & Hfull); [lia | exact Hfuel |].
    replace (Z.of_nat sz) with chunkSize in Hrun by (unfold sz; lia).
    replace (Z.of_nat ov) with overlap in Hrun by (unfold ov; lia).
    eexists. split; [exact Hrun |].
    cbn [seq map rebuild]. rewrite <- seq_shift, !map_map.
    rewrite concat_empty_sep.
    rewrite (map_ext_in _
               (fun j => string_of_list_ascii
                           (firstn step (skipn (j * step)
                              (skipn sz (list_ascii_of_string t)))))).
    + rewrite <- (map_map (fun j => firstn step (skipn (j * step)
                                       (skipn sz (list_ascii_of_string t))))
                          string_of_list_ascii).
      rewrite fold_append_list, blocks_concat
        by (rewrite length_skipn, <- string_length_list; lia).
      rewrite <- (substring_of_list t (0 * step) sz). cbn [Nat.mul skipn].
      rewrite <- string_of_list_app, firstn_skipn.
      apply string_of_list_ascii_of_string.
    + intros j _. apply (dropChars_window t sz ov step j Hsz).
Qed.

(** The loop on an engine whose arrays are bounded is the loop, as long
    as the chunks fit. *)
Lemma chunkLoopWithin_fits (maxLength fuel : nat) (t : string)
    (chunkSize overlap i : Z) (acc cs : list string) :
  chunkLoop fuel t chunkSize overlap i acc = Some cs ->
  List.length acc <= List.length cs /\
  (List.length cs <= maxLength ->
   chunkLoopWithin maxLength fuel t chunkSize overlap i acc
   = Some (JS.Normal cs)).
Proof.
  revert i acc. induction fuel as [| fuel IH]; intros i acc Hrun;
    [discriminate |].
  cbn [chunkLoop chunkLoopWithin] in *.
  destruct (i <? Z.of_nat (String.length t))%Z.
  - destruct (i + chunkSize >=? Z.of_nat (String.length t))%Z.
    + injection Hrun as <-. rewrite length_app. cbn [List.length].
      split; [lia |]. intros Hfits.
      destruct (Nat.leb_spec maxLength (List.length acc)); [lia | reflexivity].
    + destruct (IH _ _ Hrun) as [Hlen Hsame].
      rewrite length_app in Hlen. cbn [List.length] in Hlen.
      split; [lia |]. intros Hfits.
      destruct (Nat.leb_spec maxLength (List.length acc)); [lia |].
      apply Hsame. exact Hfits.
  - injection Hrun as <-. split; [lia | reflexivity].
Qed.

Lemma chunkTextWithin_fits (maxLength fuel : nat) (t : string)
    (chunkSize overlap : Z) (cs : list string) :
  chunkText fuel t chunkSize overlap = Some cs ->
  List.length cs <= maxLength ->
  chunkTextWithin maxLength fuel t chunkSize overlap = Some (JS.Normal cs).
Proof.
  unfold chunkText, chunkTextWithin.
  destruct (String.length t =? 0); [intros Hrun _; congruence |].
  intros Hrun Hfits.
  apply (chunkLoopWithin_fits maxLength fuel t chunkSize overlap 0 [] cs Hrun).
  exact Hfits.
Qed.

(** X12: with [overlap >= chunkSize] the index does not advance, and on a
    text that is not empty and is longer than [chunkSize] the loop does
    not end by itself: it has no result whatever the fuel, never returns,
    and its array growing by a chunk at every turn, it ends when
    [chunks.push] throws the RangeError of a full array. *)
Theorem chunkText_never_returns (t : string) (chunkSize overlap : Z) :
  (chunkSize <= overlap)%Z ->
  0 < String.length t ->
  (chunkSize < Z.of_nat (String.length t))%Z ->
  (forall fuel, chunkText fuel t chunkSize overlap = None) /\
  (forall maxLength fuel cs,
      chunkTextWithin maxLength fuel t chunkSize overlap
      <> Some (JS.Normal cs)) /\
  (forall maxLength fuel,
      maxLength < fuel ->
      chunkTextWithin maxLength fuel t chunkSize overlap
      = Some (JS.Throw invalidArrayLength)).
Proof.
  intros Hstep Hpos Hlong. unfold chunkText, chunkTextWithin.
  destruct (Nat.eqb_spec (String.length t) 0) as [Hz | _]; [lia |].
  split; [| split].
  - intros fuel.
    assert (Hloop : forall i acc, (i <= 0)%Z ->
                      chunkLoop fuel t chunkSize overlap i acc = None).
    { induction fuel as [| fuel IH]; intros i acc Hi; [reflexivity |].
      cbn [chunkLoop].
      destruct (Z.ltb_spec i (Z.of_nat (String.length t))) as [_ | Hge]; [| lia].
      destruct (Z.geb_spec (i + chunkSize) (Z.of_nat (String.length t)))
        as [Hend | _]; [lia |].
      apply IH. lia. }
    apply Hloop. lia.
  - intros maxLength fuel cs.
    assert (Hloop : forall i acc, (i <= 0)%Z ->
                      chunkLoopWithin maxLength fuel t chunkSize overlap i acc
                      <> Some (JS.Normal cs)).
    { induction fuel as [| fuel IH]; intros i acc Hi; [discriminate |].
      cbn [chunkLoopWithin].
      destruct (Z.ltb_spec i (Z.of_nat (String.length t))) as [_ | Hge]; [| lia].
      destruct (maxLength <=? List.length acc); [discriminate |].
      destruct (Z.geb_spec (i + chunkSize) (Z.of_nat (String.length t)))
        as [Hend | _]; [lia |].
      apply IH. lia. }
    apply Hloop. lia.
  - intros maxLength fuel Hfuel.
    assert (Hloop : forall i acc, (i <= 0)%Z ->
                      List.length acc <= maxLength ->
                      maxLength - List.length acc < fuel ->
                      chunkLoopWithin maxLength fuel t chunkSize overlap i acc
                      = Some (JS.Throw invalidArrayLength)).
    { clear Hfuel. induction fuel as [| fuel IH]; intros i acc Hi Hacc Hfuel;
        [lia |].
      cbn [chunkLoopWithin].
      destruct (Z.ltb_spec i (Z.of_nat (String.length t))) as [_ | Hge]; [| lia].
      destruct (Nat.leb_spec maxLength (List.length acc)) as [_ | Hroom];
        [reflexivity |].
      destruct (Z.geb_spec (i + chunkSize) (Z.of_nat (String.length t)))
        as [Hend | _]; [lia |].
      apply IH; [lia | |]; rewrite length_app; cbn [List.length]; lia. }
    apply Hloop; cbn [List.length]; lia.
Qed.

(** X13: a text that is not empty and has at most [chunkSize] characters
    is returned whole, as its only chunk, whatever the overlap. *)
Theorem chunkText_single (fuel : nat) (t : string) (chunkSize overlap : Z) :
  0 < String.length t ->
  (Z.of_nat (String.length t) <= chunkSize)%Z ->
  chunkText (S fuel) t chunkSize overlap = Some [t].
Proof.
  intros Hpos Hfits. unfold chunkText.
  destruct (Nat.eqb_spec (String.length t) 0) as [Hz | _]; [lia |].
  cbn [chunkLoop].
  destruct (Z.ltb_spec 0 (Z.of_nat (String.length t))) as [_ | Hge]; [| lia].
  destruct (Z.geb_spec (0 + chunkSize) (Z.of_nat (String.length t)))
    as [_ | Hlt]; [| lia].
  cbn [app]. do 2 f_equal.
  replace (0 + chunkSize)%Z with (Z.of_nat (Z.to_nat chunkSize)) by lia.
  change 0%Z with (Z.of_nat 0). rewrite sliceString_nat, Nat.sub_0_r.
  rewrite <- substring_of_list. cbn [skipn].
  rewrite firstn_all2 by (rewrite <- string_length_list; lia).
  apply string_of_list_ascii_of_string.
Qed.

End ChunkerEdges.

(** Eleven characters, chunks of 5 with an overlap of 2. *)
Lemma chunkText_count_witness :
  exists cs,
    DocumentProcessor.chunkText 11 "hello world" 5 2 = Some cs /\
    List.length cs = 3.
Proof.
  exact (chunkText_count 11 "hello world" 5 2 ltac:(lia) ltac:(simpl; lia)).
Defined.

Lemma chunkText_rebuilds_witness :
  exists cs,
    DocumentProcessor.chunkText 11 "hello world" 5 2 = Some cs /\
    rebuild 2 cs = "hello world".
Proof.
  exact (chunkText_rebuilds 11 "hello world" 5 2 ltac:(lia) ltac:(simpl; lia)).
Defined.

(** Chunks of 3 with an overlap of 3 on a text of eleven characters:
    no result after a thousand turns, and on an engine whose arrays hold
    a hundred elements the call throws. *)
Lemma chunkText_never_returns_witness :
  DocumentProcessor.chunkText 1000 "hello world" 3 3 = None /\
  DocumentProcessor.chunkTextWithin 100 101 "hello world" 3 3
  = Some (JS.Throw DocumentProcessor.invalidArrayLength).
Proof.
  destruct (chunkText_never_returns "hello world" 3 3 ltac:(lia)
              ltac:(simpl; lia) ltac:(simpl; lia)) as (Hnone & _ & Hthrows).
  split; [apply Hnone | apply Hthrows; lia].
Defined.

(** Chunks of 1000 with an overlap of 100, as [processFile] asks for, on a
    short text. *)
Lemma chunkText_single_witness :
  DocumentProcessor.chunkText 1 "hello world" 1000 100 = Some ["hello world"].
Proof.
  exact (chunkText_single 0 "hello world" 1000 100 ltac:(simpl; lia)
           ltac:(simpl; lia)).
Defined.

(** ** Processing a file: [processFile] *)

Section FileChunks.

Lemma chunkTexts_run (content : string) :
  0 < String.length content ->
  exists m,
    chunkTexts content
    = map (fun q => substring (q * 900) 1000 content) (seq 0 (S m)) /\
    String.length content <= m * 900 + 1000 /\
    (forall q, q < m -> q * 900 + 1000 < String.length content).
Proof.
  intros Hpos.
  destruct (chunkText_run (String.length content) content 1000 100 900)
    as (m & Hrun & Hlast & Hfull); try lia.
  exists m. unfold chunkTexts.
  change 1000%Z with (Z.of_nat 1000). change 100%Z with (Z.of_nat 100).
  rewrite Hrun. split; [reflexivity |]. split; assumption.
Qed.

Lemma chunkTexts_empty (content : string) :
  String.length content = 0 -> chunkTexts content = [].
Proof.
  intros Hlen. unfold chunkTexts, DocumentProcessor.chunkText.
  rewrite Hlen. reflexivity.
Qed.

Lemma chunkTexts_length (content : string) :
  List.length (chunkTexts content) = chunkCount (String.length content).
Proof.
  unfold chunkCount.
  destruct (Nat.eqb_spec (String.length content) 0) as [Hzero | Hpos].
  - rewrite chunkTexts_empty by exact Hzero. reflexivity.
  - destruct (chunkTexts_run content) as (m & Hrun & Hlast & Hfull); [lia |].
    rewrite Hrun, length_map, length_seq.
    destruct (Nat.leb_spec (String.length content) 1000) as [Hfits | Hlong].
    + destruct m as [| m]; [reflexivity |].
      specialize (Hfull 0 ltac:(lia)). simpl in Hfull. lia.
    + cbn [Nat.add]. f_equal. destruct m as [| m]; [simpl in Hlast; lia |].
      specialize (Hfull m ltac:(lia)).
      revert Hlast Hfull Hlong. generalize (String.length content).
      intros len Hlast Hfull Hlong.
      apply (Nat.div_unique _ _ _ (len - 101 - S m * 900));
        cbn [Nat.mul] in *; lia.
Qed.

Lemma chunkTexts_windows (content t : string) :
  In t (chunkTexts content) -> exists q, t = substring (q * 900) 1000 content.
Proof.
  destruct (Nat.eq_dec (String.length content) 0) as [Hzero | Hpos].
  - rewrite chunkTexts_empty by exact Hzero. intros [].
  - destruct (chunkTexts_run content) as (m & Hrun & _); [lia |].
    rewrite Hrun. intros Hin. apply in_map_iff in Hin.
    destruct Hin as (q & Hq & _). exists q. symmetry. exact Hq.
Qed.

Lemma string_length_zero (s : string) : String.length s = 0 <-> s = "".
Proof.
  destruct s; split; intros Hs; try reflexivity; discriminate.
Qed.

End FileChunks.

Section FileProcessing.

Context {E : Type} `{RT : Runtime E}.

Import VectorStore.

(** The input of [addChunks] and the document that [processFile] makes of
    a content and an identifier. *)
Let inputOf (file : File) (u content : string) : list NewChunk :=
  map (fun t => mkNewChunk u (fileName file) t None) (chunkTexts content).

Let docOf (file : File) (u content : string) : DocumentSource :=
  mkDocumentSource u (fileName file)
    (if String.eqb (fileType file) "" then "text/plain" else fileType file)
    (fileSize file) content.

Let afterUUID (w : World E) : World E :=
  mkWorld (snd (randomUUID (env w))) (chunks w) (trace w).

Lemma processFile_unfold (file : File) (onProgress : bool) (w : World E) :
  processFile file onProgress w =
  match fileText file with
  | JS.Throw e => (JS.Throw e, w)
  | JS.Normal content =>
      let u := fst (randomUUID (env w)) in
      match addChunks (inputOf file u content) onProgress (afterUUID w) with
      | (JS.Normal _, w2) => (JS.Normal (docOf file u content), w2)
      | (JS.Throw e, w2) => (JS.Throw e, w2)
      end
  end.
Proof.
  unfold processFile, bind, await, cryptoRandomUUID, inputOf, docOf, afterUUID.
  destruct (fileText file) as [content | e]; [| reflexivity].
  destruct (randomUUID (env w)) as [u e1]. cbn [fst snd].
  destruct (addChunks _ onProgress _) as [[[] | e] w2]; reflexivity.
Qed.

(** The three ways [processFile] ends: the read fails; the document is
    returned and its chunks are stored; [addChunks] throws. *)
Lemma processFile_cases (file : File) (onProgress : bool) (w : World E) :
  (exists e, fileText file = JS.Throw e /\
             processFile file onProgress w = (JS.Throw e, w)) \/
  (exists content new w',
      fileText file = JS.Normal content /\
      processFile file onProgress w
      = (JS.Normal (docOf file (fst (randomUUID (env w))) content), w') /\
      chunks w' = chunks w ++ new /\
      Forall (fun c => chunkOfFile file c /\
                       documentId c = fst (randomUUID (env w))) new /\
      List.length new <= chunkCount (String.length content) /\
      (content <> "" -> new <> [])) \/
  (exists content w',
      fileText file = JS.Normal content /\ content <> "" /\
      processFile file onProgress w
      = (JS.Throw (JS.mkError (Some failedMessage)), w') /\
      chunks w' = chunks w).
Proof.
  rewrite processFile_unfold.
  destruct (fileText file) as [content | e] eqn:Hread;
    [| left; exists e; split; reflexivity].
  right. cbv zeta. set (u := fst (randomUUID (env w))).
  destruct (addChunks_outcomes (inputOf file u content) onProgress
              (afterUUID w)) as [Hall (w' & Hch & Hrun)].
  rewrite Hrun. clear Hrun.
  set (outs := embedOutcomes (inputOf file u content) onProgress (afterUUID w))
    in *.
  assert (Hinput : List.length (inputOf file u content)
                   = chunkCount (String.length content)).
  { unfold inputOf. rewrite length_map. apply chunkTexts_length. }
  destruct ((List.length (validResults outs) =? 0)
            && (0 <? List.length (inputOf file u content))) eqn:Hcond.
  - right. exists content, w'. split; [reflexivity |].
    apply andb_prop in Hcond. destruct Hcond as [_ Hpos].
    apply Nat.ltb_lt in Hpos. rewrite Hinput in Hpos.
    repeat split; [| exact Hch].
    intros ->. unfold chunkCount in Hpos. simpl in Hpos. lia.
  - left. exists content, (validResults outs). eexists.
    split; [reflexivity |]. split; [reflexivity |]. cbn [chunks].
    split; [reflexivity |]. split; [| split].
    + apply (validResults_outcomes (inputOf file u content) outs _ Hall).
      intros c d Hin (Hid & Hname & Htext).
      apply in_map_iff in Hin. destruct Hin as (t & <- & Ht).
      cbn in Hid, Hname, Htext. split; [| exact Hid].
      split; [exact Hname |].
      destruct (chunkTexts_windows content t Ht) as [q Hq].
      exists content, q. split; [exact Hread | congruence].
    + rewrite validResults_length, <- Hinput.
      rewrite (Forall2_length Hall). apply filter_length_le.
    + intros Hne Hnil. rewrite Hnil in Hcond. cbn [List.length Nat.eqb andb] in Hcond.
      apply Nat.ltb_ge in Hcond. rewrite Hinput in Hcond.
      unfold chunkCount in Hcond.
      destruct (Nat.eqb_spec (String.length content) 0) as [Hz | _].
      * apply string_length_zero in Hz. contradiction.
      * destruct (String.length content <=? 1000); lia.
Qed.

(** X14: what [processFile] leaves in the store.  New chunks come after
    the old ones, carry the name of the file, and are windows of 1000
    characters of the content taken every 900.  When the
    document is returned its chunks carry its identifier, they are no
    more than [chunkText] made, and at least one unless the content is
    empty.  When [processFile] throws, the store is as before, and the
    error is that of the read or, for a content that is not empty, the
    embedding failure of [addChunks]. *)
Theorem processFile_outcome (file : File) (onProgress : bool) (w : World E) :
  exists new,
    chunks (snd (processFile file onProgress w)) = chunks w ++ new /\
    Forall (chunkOfFile file) new /\
    match fst (processFile file onProgress w) with
    | JS.Normal doc =>
        fileText file = JS.Normal (sourceContent doc) /\
        sourceName doc = fileName file /\
        sourceSize doc = fileSize file /\
        Forall (fun c => documentId c = sourceId doc) new /\
        List.length new <= chunkCount (String.length (sourceContent doc)) /\
        (sourceContent doc <> "" -> new <> [])
    | JS.Throw e =>
        new = [] /\
        (fileText file = JS.Throw e \/
         e = JS.mkError (Some failedMessage) /\
         exists content, fileText file = JS.Normal content /\ content <> "")
    end.
Proof.
  destruct (processFile_cases file onProgress w)
    as [(e & Hread & Hrun)
       | [(content & new & w' & Hread & Hrun & Hch & Hnew & Hlen & Hne)
         | (content & w' & Hread & Hne & Hrun & Hch)]];
    rewrite Hrun; cbn [fst snd].
  - exists []. rewrite app_nil_r. repeat split; [constructor |].
    left. exact Hread.
  - exists new. split; [exact Hch |]. split.
    + eapply Forall_impl; [| exact Hnew]. intros c [Hc _]. exact Hc.
    + cbn. repeat split; try assumption.
      eapply Forall_impl; [| exact Hnew]. intros c [_ Hc]. exact Hc.
  - exists []. rewrite app_nil_r. repeat split; [exact Hch | constructor |].
    right. split; [reflexivity |]. exists content. split; assumption.
Qed.

(** The events of [processFile] are those of its [addChunks]. *)
Lemma processFile_added (file : File) (onProgress : bool) (w : World E) :
  exists added,
    trace (snd (processFile file onProgress w)) = trace w ++ added /\
    match fileText file with
    | JS.Throw _ => added = []
    | JS.Normal content =>
        let n := chunkCount (String.length content) in
        progressReports added
          = (if onProgress
             then map (fun j => (Nat.min ((j + 1) * 5) n, n)) (seq 0 ((n + 4) / 5))
             else []) /\
        n <= List.length (embedTexts added) <= 3 * n /\
        (forall t, In t (embedTexts added) ->
                   exists q, t = substring (q * 900) 1000 content) /\
        pauseCount 150 added = (n + 4) / 5
    end.
Proof.
  rewrite processFile_unfold.
  destruct (fileText file) as [content | e];
    [| exists []; rewrite app_nil_r; split; reflexivity].
  cbv zeta. set (u := fst (randomUUID (env w))).
  destruct (addChunks_added (inputOf file u content) onProgress (afterUUID w))
    as (ks & added & Hlen & Hks & Ht & Hc & Hp & Hz & _).
  destruct (callsOf_bounds (inputOf file u content) ks Hlen Hks) as [Hb Hin].
  assert (Hinput : List.length (inputOf file u content)
                   = chunkCount (String.length content)).
  { unfold inputOf. rewrite length_map. apply chunkTexts_length. }
  exists added. split.
  { destruct (addChunks (inputOf file u content) onProgress (afterUUID w))
      as [[[] | e] w2]; exact Ht. }
  rewrite forIndices_batches in Hp, Hz. rewrite length_map, length_seq in Hz.
  rewrite Hinput in *. rewrite (Permutation_length Hc).
  split; [| split; [exact Hb | split; [| exact Hz]]].
  - rewrite Hp. destruct onProgress; [| reflexivity].
    rewrite map_map. apply map_ext. intros j. unfold BATCH_SIZE.
    f_equal. f_equal. lia.
  - intros t Ht'. apply (Permutation_in t Hc) in Ht'.
    apply Hin in Ht'. unfold inputOf in Ht'.
    rewrite map_map in Ht'. cbn [newText] in Ht'. rewrite map_id in Ht'.
    apply chunkTexts_windows. exact Ht'.
Qed.

(** X15: the provider calls and progress reports of [processFile] on a
    content of [len] characters.  With [n] the number of chunks ([0] for
    the empty content, [1] up to 1000 characters, one more for every 900
    characters begun after that), the provider is asked between [n] and
    [3 n] times, each time for a window of the content; progress is
    reported once per batch of five with total [n]; and the run pauses
    150 ms once per batch. *)
Theorem processFile_reports (file : File) (content : string) (w : World E) :
  fileText file = JS.Normal content ->
  let n := chunkCount (String.length content) in
  exists added,
    trace (snd (processFile file true w)) = trace w ++ added /\
    progressReports added
      = map (fun j => (Nat.min ((j + 1) * 5) n, n)) (seq 0 ((n + 4) / 5)) /\
    n <= List.length (embedTexts added) <= 3 * n /\
    (forall t, In t (embedTexts added) ->
               exists q, t = substring (q * 900) 1000 content) /\
    pauseCount 150 added = (n + 4) / 5.
Proof.
  intros Hread n.
  destruct (processFile_added file true w) as (added & Ht & Hrest).
  rewrite Hread in Hrest. exists added. split; [exact Ht | exact Hrest].
Qed.

End FileProcessing.

(** The file [notes.txt] of eleven characters is one chunk: one progress
    report, one pause, and between one and three provider calls. *)
Lemma processFile_reports_witness :
  exists added,
    trace (snd (processFile notesFile true
                  (Scripted.world [Scripted.ok [1; 2]%float] [])))
    = added /\
    progressReports added = [(1, 1)] /\
    1 <= List.length (embedTexts added) <= 3 /\
    pauseCount 150 added = 1.
Proof.
  destruct (processFile_reports notesFile "hello world"
              (Scripted.world [Scripted.ok [1; 2]%float] []) eq_refl)
    as (added & Ht & Hp & Hn & _ & Hz).
  exists added. split; [exact Ht |]. split; [exact Hp |]. split; [exact Hn | exact Hz].
Defined.

(** ** Uploading files: [handleGlobalUpload] *)

Section Upload.

Context {E : Type} `{RT : Runtime E}.

(** The error message left by the files that were skipped: that of the
    last one. *)
Let skippedMessage (files : list File) (before : option string)
  : option string :=
  last (map (fun f => Some (tooLargeMessage (fileName f)))
          (filter (fun f => (sizeLimit <? fileSize f)%N) files)) before.

Lemma last_cons_default {A} (x : A) (l : list A) (d : A) :
  last (x :: l) d = last l x.
Proof.
  revert x d. induction l as [| y l IH]; intros x d; [reflexivity |].
  change (last (x :: y :: l) d) with (last (y :: l) d).
  rewrite !IH. reflexivity.
Qed.

Ltac state_fields :=
  unfold setDocuments, setIsProcessing, setProcessingProgress, setUploadError,
    setLastSuccess in *;
  cbn [documents isProcessing processingProgress uploadError lastSuccess
       fst snd] in *.

(** The loop over the files.  It writes [uploadError] and
    [processingProgress] only; the store grows by chunks of the files it
    did not skip; when it completes, [newDocs] has one document per such
    file, in order. *)
Lemma uploadLoop_run (files : list File) (newDocs : list DocumentSource)
    (st : AppState) (w : World E) :
  exists r st1 w1 new,
    uploadLoop files newDocs st w = (r, st1, w1) /\
    documents st1 = documents st /\
    isProcessing st1 = isProcessing st /\
    lastSuccess st1 = lastSuccess st /\
    chunks w1 = chunks w ++ new /\
    Forall (fun c => exists f, In f (accepted files) /\ chunkOfFile f c) new /\
    match r with
    | JS.Normal docs =>
        exists more,
          docs = newDocs ++ more /\
          map sourceName more = map fileName (accepted files) /\
          map sourceSize more = map fileSize (accepted files) /\
          Forall (fun c => In (documentId c) (map sourceId more)) new /\
          uploadError st1 = skippedMessage files (uploadError st)
    | JS.Throw e =>
        exists f, In f (accepted files) /\
          (fileText f = JS.Throw e \/
           e = JS.mkError (Some VectorStore.failedMessage))
    end.
Proof.
  revert newDocs st w.
  induction files as [| file rest IH]; intros newDocs st w.
  - exists (JS.Normal newDocs), st, w, []. rewrite app_nil_r.
    repeat split; [constructor |].
    exists []. rewrite app_nil_r. repeat split. constructor.
  - cbn [uploadLoop]. unfold accepted, skippedMessage in *. cbn [filter].
    destruct (sizeLimit <? fileSize file)%N eqn:Hsize; cbn [negb].
    + destruct (IH newDocs
                  (setUploadError (Some (tooLargeMessage (fileName file))) st) w)
        as (r & st1 & w1 & new & Hrun & Hd & Hp & Hs & Hch & Hnew & Hr).
      exists r, st1, w1, new. rewrite Hrun.
      repeat split; try assumption.
      destruct r as [docs | e]; [| exact Hr].
      destruct Hr as (more & Hdocs & Hnames & Hsizes & Hids & Herr).
      exists more. repeat split; try assumption.
      rewrite Herr. cbn [map uploadError setUploadError].
      symmetry. apply last_cons_default.
    + destruct (processFile_cases file true w)
        as [(e & Hread & Hrun)
           | [(content & new & w' & Hread & Hrun & Hch & Hnew & _ & _)
             | (content & w' & Hread & Hne & Hrun & Hch)]];
        rewrite Hrun.
      * exists (JS.Throw e), st, w, []. rewrite app_nil_r.
        repeat split; [constructor |].
        exists file. split; [left; reflexivity | left; exact Hread].
      * destruct (IH (newDocs ++ [mkDocumentSource (fst (randomUUID (env w)))
                                     (fileName file)
                                     (if String.eqb (fileType file) ""
                                      then "text/plain" else fileType file)
                                     (fileSize file) content])
                    (setProcessingProgress None st) w')
          as (r & st1 & w1 & new' & Hrun' & Hd & Hp & Hs & Hch' & Hnew' & Hr).
        exists r, st1, w1, (new ++ new'). rewrite Hrun'.
        split; [reflexivity |]. split; [exact Hd |]. split; [exact Hp |].
        split; [exact Hs |].
        split; [rewrite Hch', Hch, app_assoc; reflexivity |].
        split.
        { apply Forall_app. split.
          - eapply Forall_impl; [| exact Hnew]. intros c [Hc _].
            exists file. split; [left; reflexivity | exact Hc].
          - eapply Forall_impl; [| exact Hnew']. intros c (f & Hf & Hc).
            exists f. split; [right; exact Hf | exact Hc]. }
        destruct r as [docs | e].
        -- destruct Hr as (more & Hdocs & Hnames & Hsizes & Hids & Herr).
           eexists (_ :: more). rewrite Hdocs, <- app_assoc. cbn [app map].
           split; [reflexivity |]. cbn [sourceName sourceSize sourceId].
           split; [f_equal; exact Hnames |]. split; [f_equal; exact Hsizes |].
           split; [| exact Herr].
           apply Forall_app. split.
           ++ eapply Forall_impl; [| exact Hnew]. intros c [_ Hc].
              left. symmetry. exact Hc.
           ++ eapply Forall_impl; [| exact Hids]. intros c Hc. right. exact Hc.
        -- destruct Hr as (f & Hf & He). exists f. split; [right; exact Hf | exact He].
      * exists (JS.Throw (JS.mkError (Some VectorStore.failedMessage))), st, w', [].
        rewrite app_nil_r. repeat split; [exact Hch | constructor |].
        exists file. split; [left; reflexivity | right; reflexivity].
Qed.

(** X16: what [handleGlobalUpload] leaves behind, for at least one file.
    Processing is over and no progress is shown; the store has grown by
    chunks of files within the size limit, and by nothing else.  Either
    the loop completed: one document per file within the limit is added
    to the list, in the order of the files, each stored chunk belongs to
    one of them, the success message counts them, and the error message
    is that of the last file over the limit, if any.  Or a file failed:
    the list of documents is as before, also for the files processed
    before the failure, whose chunks stay in the store; the error is
    logged and shown, and no success message is. *)
Theorem handleGlobalUpload_outcome (file : File) (rest : list File)
    (st : AppState) (w : World E) :
  let files := file :: rest in
  let st' := fst (handleGlobalUpload (Some files) st w) in
  let w' := snd (handleGlobalUpload (Some files) st w) in
  isProcessing st' = false /\
  processingProgress st' = None /\
  exists new,
    chunks w' = chunks w ++ new /\
    Forall (fun c => exists f, In f (accepted files) /\ chunkOfFile f c) new /\
    ((exists newDocs,
         documents st' = documents st ++ newDocs /\
         map sourceName newDocs = map fileName (accepted files) /\
         map sourceSize newDocs = map fileSize (accepted files) /\
         Forall (fun c => In (documentId c) (map sourceId newDocs)) new /\
         lastSuccess st'
         = (if 0 <? List.length newDocs
            then Some (indexedMessage (List.length newDocs)) else None) /\
         uploadError st' = skippedMessage files None)
     \/
     (exists e f,
         In f (accepted files) /\
         (fileText f = JS.Throw e \/
          e = JS.mkError (Some VectorStore.failedMessage)) /\
         documents st' = documents st /\
         lastSuccess st' = None /\
         uploadError st' = Some (uploadErrorText e) /\
         last (trace w') (EvTimeout 0)
         = EvConsoleError "Global upload error:" e)).
Proof.
  intros files st' w'. subst st' w'. unfold handleGlobalUpload.
  change (match files with
          | [] => (st, w)
          | _ :: _ => ?x
          end) with x.
  destruct (uploadLoop_run files []
              (setLastSuccess None (setUploadError None (setIsProcessing true st))) w)
    as (r & st1 & w1 & new & Hrun & Hd & Hp & Hs & Hch & Hnew & Hr).
  rewrite Hrun. 
  destruct r as [docs | e].
  - destruct Hr as (more & Hdocs & Hnames & Hsizes & Hids & Herr).
    cbn [app] in Hdocs. subst docs.
    destruct (0 <? List.length more) eqn:Hpos; cbv beta iota zeta; state_fields;
      (split; [reflexivity |]; split; [reflexivity |]; exists new;
       split; [exact Hch |]; split; [exact Hnew |]; left; exists more;
       rewrite Hd, Hpos; repeat split; try assumption; try reflexivity).
  - destruct Hr as (f & Hf & He). cbv beta iota zeta. state_fields.
    split; [reflexivity |]. split; [reflexivity |]. exists new.
    split; [exact Hch |]. split; [exact Hnew |]. right. exists e, f.
    rewrite Hd, Hs. repeat split; try assumption.
    unfold consoleError, emit. cbn [snd trace]. apply last_last.
Qed.

(** X17: a failure after a file was processed leaves that file's chunks
    in the store, although its document is not added to the list. *)
Theorem handleGlobalUpload_orphans (file1 file2 : File) (rest : list File)
    (st : AppState) (w w1 : World E) (doc : DocumentSource) (e : JS.Error) :
  (fileSize file1 <= sizeLimit)%N ->
  (fileSize file2 <= sizeLimit)%N ->
  processFile file1 true w = (JS.Normal doc, w1) ->
  fst (processFile file2 true w1) = JS.Throw e ->
  let st' := fst (handleGlobalUpload (Some (file1 :: file2 :: rest)) st w) in
  let w' := snd (handleGlobalUpload (Some (file1 :: file2 :: rest)) st w) in
  documents st' = documents st /\
  uploadError st' = Some (uploadErrorText e) /\
  chunks w' = chunks w1 /\
  (sourceContent doc <> "" ->
   exists c, In c (chunks w') /\ documentId c = sourceId doc /\
             documentName c = fileName file1).
Proof.
  intros Hsize1 Hsize2 Hrun1 Hrun2 st' w'.
  apply N.ltb_ge in Hsize1, Hsize2.
  assert (Hch2 : chunks (snd (processFile file2 true w1)) = chunks w1).
  { destruct (processFile_cases file2 true w1)
      as [(e' & _ & Hrun) | [(content & new & w2 & _ & Hrun & _)
                            | (content & w2 & _ & _ & Hrun & Hch)]];
      rewrite Hrun in *; cbn [fst snd] in *;
      [reflexivity | discriminate | exact Hch]. }
  unfold st', w', handleGlobalUpload. cbn [uploadLoop].
  rewrite Hsize1, Hrun1, Hsize2.
  destruct (processFile file2 true w1) as [[doc2 | e2] w2];
    cbn [fst snd] in *; [discriminate |].
  injection Hrun2 as ->. cbn.
  split; [reflexivity |]. split; [reflexivity |]. split; [exact Hch2 |].
  intros Hne. rewrite Hch2.
  destruct (processFile_cases file1 true w)
    as [(e' & _ & Hrun) | [(content & new & w2' & _ & Hrun & Hch & Hnew & _ & Hsome)
                          | (content & w2' & _ & _ & Hrun & _)]];
    rewrite Hrun in Hrun1; try discriminate.
  injection Hrun1 as <- <-. cbn [sourceContent sourceId] in *.
  destruct new as [| c new]; [exfalso; apply (Hsome Hne); reflexivity |].
  apply Forall_cons_iff in Hnew. destruct Hnew as [[(Hname & _) Hid] _].
  exists c. rewrite Hch. split; [apply in_or_app; right; left; reflexivity |].
  split; assumption.
Qed.

End Upload.

(** [notes.txt] is embedded and stored; the provider then fails on
    [memo.txt]: the list of documents stays empty, and the chunk of
    [notes.txt] stays in the store. *)
Lemma handleGlobalUpload_orphans_witness :
  let w := Scripted.world [Scripted.ok [1; 2]%float; Scripted.failure] [] in
  let st' := fst (handleGlobalUpload (Some [notesFile; memoFile]) initialState w) in
  let w' := snd (handleGlobalUpload (Some [notesFile; memoFile]) initialState w) in
  documents st' = [] /\
  uploadError st' = Some VectorStore.failedMessage /\
  map documentName (chunks w') = ["notes.txt"].
Proof.
  intros w st' w'.
  destruct (handleGlobalUpload_orphans notesFile memoFile [] initialState w
              (snd (processFile notesFile true w))
              (mkDocumentSource "uuid-0" "notes.txt" "text/plain" 11 "hello world")
              (JS.mkError (Some VectorStore.failedMessage)))
    as (Hd & He & Hch & _);
    [vm_compute; discriminate | vm_compute; discriminate
    | reflexivity | reflexivity |].
  split; [exact Hd |]. split; [exact He |]. reflexivity.
Defined.

(** ** The chat: [generateRagResponse] and [handleSend] *)

Section StreamedAnswer.

Lemma string_append_nil_r (s : string) : String.append s "" = s.
Proof. induction s as [| c s IH]; [reflexivity |]. cbn. rewrite IH. reflexivity. Qed.

Lemma string_append_assoc (a b c : string) :
  String.append (String.append a b) c = String.append a (String.append b c).
Proof. induction a as [| x a IH]; [reflexivity |]. cbn. rewrite IH. reflexivity. Qed.

Lemma concat_cons (t : string) (texts : list string) :
  String.concat "" (t :: texts) = String.append t (String.concat "" texts).
Proof. rewrite !concat_empty_sep. reflexivity. Qed.

Lemma concat_app (a b : list string) :
  String.concat "" (a ++ b)
  = String.append (String.concat "" a) (String.concat "" b).
Proof.
  induction a as [| t a IH]; [reflexivity |].
  cbn [app]. rewrite !concat_cons, IH, string_append_assoc. reflexivity.
Qed.

Lemma showContent_twice (id a b : string) (m : ChatMessage) :
  showContent id b (showContent id a m) = showContent id b m.
Proof.
  unfold showContent. destruct (String.eqb (messageId m) id) eqn:Hid.
  - cbn [messageId messageRole messageSources]. rewrite Hid. reflexivity.
  - rewrite Hid. reflexivity.
Qed.

Lemma showContent_same (id c : string) (m : ChatMessage) :
  sameButContent m (showContent id c m).
Proof.
  unfold showContent, sameButContent.
  destruct (String.eqb (messageId m) id); repeat split.
Qed.

Lemma showContent_other (id c : string) (m : ChatMessage) :
  messageId m <> id -> showContent id c m = m.
Proof.
  intros Hne. unfold showContent. apply String.eqb_neq in Hne.
  rewrite Hne. reflexivity.
Qed.

(** The loop as a whole: the updates of the earlier values leave
    nothing behind. *)
Lemma streamLoop_run (id : string) (texts : list string) (c : string)
    (msgs : list ChatMessage) :
  streamLoop id texts c msgs
  = (String.append c (String.concat "" texts),
     match texts with
     | [] => msgs
     | _ :: _ =>
         map (showContent id (String.append c (String.concat "" texts))) msgs
     end).
Proof.
  revert c msgs. induction texts as [| t rest IH]; intros c msgs.
  - cbn. rewrite string_append_nil_r. reflexivity.
  - cbn [streamLoop]. rewrite IH, concat_cons, string_append_assoc.
    f_equal. destruct rest as [| t' rest]; [| rewrite map_map].
    + cbn. rewrite !string_append_nil_r. reflexivity.
    + apply map_ext. intros m. apply showContent_twice.
Qed.

Lemma streamLoop_same (id : string) (texts : list string) (c : string)
    (msgs : list ChatMessage) :
  Forall2 sameButContent msgs (snd (streamLoop id texts c msgs)).
Proof.
  rewrite streamLoop_run. cbn [snd].
  assert (Hrefl : Forall2 sameButContent msgs msgs).
  { induction msgs as [| m msgs IH]; constructor; [repeat split | exact IH]. }
  destruct texts as [| t rest]; [exact Hrefl |].
  clear Hrefl. induction msgs as [| m msgs IH]; constructor;
    [apply showContent_same | exact IH].
Qed.

Lemma yielded_concat (texts : list (option string)) :
  String.concat "" (yielded texts) = String.concat "" (map textOf texts).
Proof.
  induction texts as [| t texts IH]; [reflexivity |].
  cbn [map]. rewrite concat_cons. unfold yielded in *. cbn [flat_map].
  rewrite concat_app, IH. f_equal.
  destruct t as [s |]; [| reflexivity].
  destruct (String.eqb_spec s "") as [-> | _]; [reflexivity |].
  cbn. reflexivity.
Qed.

(** X18: the stream loop of [handleSend].  After it [aiContent] is the
    concatenation of the values received, and so is the content of every
    message with the identifier of the assistant's message; the other
    messages are as before, and so are all of them when nothing was
    received. *)
Theorem handleSend_stream_loop (aiMessageId : string) (texts : list string)
    (msgs : list ChatMessage) :
  let aiContent := fst (streamLoop aiMessageId texts "" msgs) in
  let shown := snd (streamLoop aiMessageId texts "" msgs) in
  aiContent = String.concat "" texts /\
  Forall2 sameButContent msgs shown /\
  (texts = [] -> shown = msgs) /\
  (forall m, In m msgs -> messageId m <> aiMessageId -> In m shown) /\
  (forall t rest, texts = t :: rest ->
     shown = map (showContent aiMessageId aiContent) msgs).
Proof.
  intros aiContent shown. subst aiContent shown.
  split; [rewrite streamLoop_run; reflexivity |].
  split; [apply streamLoop_same |].
  rewrite streamLoop_run. cbn [fst snd String.append].
  split; [intros ->; reflexivity |]. split.
  - intros m Hin Hne. destruct texts as [| t rest]; [exact Hin |].
    apply in_map_iff. exists m. split; [| exact Hin].
    apply showContent_other. exact Hne.
  - intros t rest ->. reflexivity.
Qed.

End StreamedAnswer.

Section Chat.

Context {E : Type} `{RT : Runtime E} `{GN : Generation E}.

Import VectorStore.

Lemma drawUUID_world (w : World E) :
  chunks (snd (drawUUID w)) = chunks w /\ trace (snd (drawUUID w)) = trace w.
Proof. unfold drawUUID. destruct (randomUUID (env w)); split; reflexivity. Qed.

Lemma In_firstn {A} (n : nat) (l : list A) (x : A) :
  In x (firstn n l) -> In x l.
Proof.
  intros Hin. rewrite <- (firstn_skipn n l). apply in_or_app. left. exact Hin.
Qed.

(** The generator reads nothing of the store and asks for no embedding;
    it logs the error it throws. *)
Lemma generateRagResponse_world (query context : string) (w : World E) :
  chunks (snd (generateRagResponse query context w)) = chunks w /\
  trace (snd (generateRagResponse query context w))
  = trace w ++ match snd (fst (generateRagResponse query context w)) with
               | None => []
               | Some e => [EvConsoleError "Error generating text:" e]
               end.
Proof.
  unfold generateRagResponse.
  destruct (generateContentStream query context (env w)) as [[s | e] e'].
  - destruct (streamError s) as [e |]; cbn; [| rewrite app_nil_r];
      split; reflexivity.
  - cbn. split; reflexivity.
Qed.

(** [search] with [k = 5]. *)
Lemma search_five (query : string) (w : World E) :
  chunks (snd (search query 5 w)) = chunks w /\
  (exists events,
     trace (snd (search query 5 w)) = trace w ++ events /\
     (forall t, In t (embedTexts events) -> t = query) /\
     List.length (embedTexts events) <= 3 /\
     progressReports events = [] /\
     (chunks w = [] -> events = [])) /\
  match fst (search query 5 w) with
  | JS.Normal rs => List.length rs <= 5 /\ incl rs (chunks w)
  | JS.Throw _ => True
  end.
Proof.
  destruct (chunks w) as [| c cs] eqn:Hcs.
  - assert (Hrun : search query 5 w = (JS.Normal [], w)).
    { unfold search, bind, getChunks. rewrite Hcs. reflexivity. }
    rewrite Hrun. cbn [fst snd]. split; [exact Hcs |]. split.
    + exists []. rewrite app_nil_r. cbn.
      split; [reflexivity |]. split; [intros t [] |]. split; [lia |].
      split; reflexivity.
    + split; [cbn; lia | intros x []].
  - assert (Hne : chunks w <> []) by (rewrite Hcs; discriminate).
    pose proof (search_run query 5 w ltac:(lia) Hne) as Hrun.
    pose proof (getEmbedding_chunks query GeminiService.defaultRetries w) as Hch.
    destruct (getEmbedding_added query GeminiService.defaultRetries w)
      as (n & added & Hn & Ht & Hc & Hp & _).
    rewrite (search_world query 5 w Hne), Hch.
    split; [exact Hcs |]. split.
    { exists added. split; [exact Ht |]. rewrite Hc, repeat_length.
      split; [intros t Hin; apply repeat_spec in Hin; exact Hin |].
      split; [unfold GeminiService.defaultRetries in Hn; lia |].
      split; [exact Hp | discriminate]. }
    rewrite Hrun.
    destruct (GeminiService.getEmbedding query GeminiService.defaultRetries w)
      as [[[q |] | e] w1]; cbn [fst snd]; [| | exact I].
    + split; [rewrite length_firstn; cbn; lia |].
      intros x Hx. apply In_firstn in Hx. rewrite <- Hcs.
      apply (Permutation_in x
               (sort_perm (scoreOf q) (scoreOf_not_nan q) (chunks w))).
      exact Hx.
    + destruct (existsb hasEmbedding (chunks w)); cbn [fst]; [exact I |].
      split; [rewrite length_firstn; cbn; lia |].
      intros x Hx. apply In_firstn in Hx. rewrite <- Hcs. exact Hx.
Qed.

(** The sources shown with an answer. *)
Lemma sources_shown (rs stored : list DocumentChunk) (id content : string) :
  List.length rs <= 5 -> incl rs stored ->
  sourcesFrom stored
    (mkChatMessage id assistant content
       (if 0 <? List.length (ChatInterface.sources rs)
        then Some (ChatInterface.sources rs) else None)).
Proof.
  intros Hlen Hincl. unfold sourcesFrom. cbn [messageSources].
  destruct (Nat.ltb_spec 0 (List.length (ChatInterface.sources rs)))
    as [Hpos | _]; [| exact I].
  unfold ChatInterface.sources, JS.StringSet.toArray in *.
  rewrite ofArray_keepFirst in *.
  assert (Hin : incl (keepFirst (map documentName rs)) (map documentName rs)).
  { intros x Hx. apply keepFirst_In. exact Hx. }
  split; [intros Hnil; rewrite Hnil in Hpos; cbn in Hpos; lia |].
  split; [apply keepFirst_NoDup |]. split.
  - pose proof (NoDup_incl_length (keepFirst_NoDup _) Hin) as Hle.
    rewrite length_map in Hle. lia.
  - intros x Hx. apply Hin in Hx. apply in_map_iff in Hx.
    destruct Hx as (c & <- & Hc). apply in_map. apply Hincl. exact Hc.
Qed.

Lemma sameButContent_sources (stored : list DocumentChunk)
    (a b : ChatMessage) :
  sameButContent a b -> sourcesFrom stored a -> sourcesFrom stored b.
Proof.
  intros (_ & _ & Hs). unfold sourcesFrom. rewrite Hs. exact (fun H => H).
Qed.

(** The [try] block: the store is only read; the messages it was given
    keep all but their contents; at most one message follows them, the
    assistant's, and one does when nothing is thrown. *)
Lemma handleSendTry_run (content : string) (msgs : list ChatMessage)
    (w : World E) :
  chunks (snd (handleSendTry content msgs w)) = chunks w /\
  (exists events,
     trace (snd (handleSendTry content msgs w)) = trace w ++ events /\
     (forall t, In t (embedTexts events) -> t = content) /\
     List.length (embedTexts events) <= 3 /\
     progressReports events = [] /\
     (chunks w = [] -> embedTexts events = [])) /\
  exists prior answer,
    fst (fst (handleSendTry content msgs w)) = prior ++ answer /\
    Forall2 sameButContent msgs prior /\
    Forall (fun m => messageRole m = assistant /\ sourcesFrom (chunks w) m)
      answer /\
    List.length answer <= 1 /\
    (snd (fst (handleSendTry content msgs w)) = None -> List.length answer = 1).
Proof.
  assert (Hrefl : Forall2 sameButContent msgs msgs).
  { induction msgs as [| m l IH]; constructor; [repeat split | exact IH]. }
  unfold handleSendTry.
  destruct (search_five content w)
    as (Hch & (events & Ht & Hq & Hn & Hp & Hempty) & Hres).
  destruct (search content 5 w) as [[rs | e] w1]; cbn [fst snd] in *.
  - destruct Hres as [Hlen Hincl].
    pose proof (drawUUID_world w1) as [Hch2 Ht2].
    destruct (drawUUID w1) as [aiId w2]. cbn [snd] in Hch2, Ht2.
    pose proof (generateRagResponse_world content (contextOf rs) w2)
      as [Hch3 Ht3].
    destruct (generateRagResponse content (contextOf rs) w2)
      as [[texts err] w3]. cbn [fst snd] in *.
    split; [congruence |]. split.
    + exists (events ++ match err with
                        | None => []
                        | Some e => [EvConsoleError "Error generating text:" e]
                        end).
      rewrite Ht3, Ht2, Ht, <- app_assoc. split; [reflexivity |].
      rewrite embedTexts_app, progressReports_app.
      replace (embedTexts match err with
                          | None => []
                          | Some e => [EvConsoleError "Error generating text:" e]
                          end) with (@nil string) by (destruct err; reflexivity).
      replace (progressReports match err with
                               | None => []
                               | Some e =>
                                   [EvConsoleError "Error generating text:" e]
                               end)
        with (@nil (nat * nat)) by (destruct err; reflexivity).
      rewrite !app_nil_r. repeat split; try assumption.
      intros Hnil. rewrite (Hempty Hnil). reflexivity.
    + pose proof (streamLoop_same aiId texts ""
                    (msgs ++ [mkChatMessage aiId assistant ""
                                (if 0 <? List.length (ChatInterface.sources rs)
                                 then Some (ChatInterface.sources rs)
                                 else None)])) as Hsame.
      apply Forall2_app_inv_l in Hsame.
      destruct Hsame as (prior & answer & Hprior & Hanswer & Heq).
      exists prior, answer. split; [exact Heq |]. split; [exact Hprior |].
      inversion Hanswer as [| ph a l l' Hpa Hnil]; subst.
      inversion Hnil; subst.
      split; [| split; [cbn; lia | reflexivity]].
      constructor; [| constructor]. split.
      * destruct Hpa as (_ & Hrole & _). exact Hrole.
      * apply (sameButContent_sources _ _ _ Hpa).
        apply sources_shown; assumption.
  - split; [exact Hch |]. split.
    + exists events. repeat split; try assumption.
      intros Hnil. rewrite (Hempty Hnil). reflexivity.
    + exists msgs, []. rewrite app_nil_r. split; [reflexivity |].
      split; [exact Hrefl |]. split; [constructor |].
      split; [cbn; lia | discriminate].
Qed.

(** X19: what [handleSend] leaves behind, for an input that is not blank
    while no answer is being typed.  The input is cleared and typing is
    over; the store is as before; the provider was asked to embed the
    input alone, three times at most, and not at all when the store is
    empty.  The earlier messages keep their identifiers, roles and
    sources; the user's message follows them; then either the assistant's
    message, or the apology after a logged error, or both.  The sources
    of the assistant's message are absent, or up to five different names
    of stored documents. *)
Theorem handleSend_outcome (st : ChatState) (w : World E) :
  blank (input st) = false ->
  isTyping st = false ->
  let st' := fst (handleSend st w) in
  let w' := snd (handleSend st w) in
  input st' = "" /\ isTyping st' = false /\
  chunks w' = chunks w /\
  exists events,
    trace w' = trace w ++ events /\
    (forall t, In t (embedTexts events) -> t = input st) /\
    List.length (embedTexts events) <= 3 /\
    (chunks w = [] -> embedTexts events = []) /\
    exists prior question rest,
      messages st' = prior ++ question :: rest /\
      Forall2 sameButContent (messages st) prior /\
      messageRole question = user /\
      messageSources question = None /\
      ((exists answer,
           rest = [answer] /\ messageRole answer = assistant /\
           sourcesFrom (chunks w) answer)
       \/
       (exists e apology,
           last events (EvTimeout 0) = EvConsoleError "Chat error:" e /\
           isApology apology /\
           (rest = [apology] \/
            exists partial,
              rest = [partial; apology] /\ messageRole partial = assistant /\
              sourcesFrom (chunks w) partial))).
Proof.
  intros Hblank Htyping st' w'. subst st' w'. unfold handleSend.
  rewrite Hblank, Htyping. cbn [orb].
  pose proof (drawUUID_world w) as [Hch1 Ht1].
  destruct (drawUUID w) as [userId w1]. cbn [snd] in Hch1, Ht1.
  destruct (handleSendTry_run (input st)
              (messages st ++ [mkChatMessage userId user (input st) None]) w1)
    as (Hch2 & (events & Ht2 & Hq & Hn & _ & Hempty) & prior & answer
        & Hmsgs & Hprior & Hanswer & Hlen & Hone).
  rewrite Hch1 in *.
  apply Forall2_app_inv_l in Hprior.
  destruct Hprior as (prior0 & q & Hprior0 & Hquestion & ->).
  inversion Hquestion as [| um question l l' Huq Hnil]; subst.
  inversion Hnil; subst. destruct Huq as (_ & Hrole & Hsrc).
  cbn [messageRole messageSources] in Hrole, Hsrc.
  destruct (handleSendTry (input st)
              (messages st ++ [mkChatMessage userId user (input st) None]) w1)
    as [[msgs thrown] w2]. cbn [fst snd] in *.
  destruct thrown as [e |].
  - pose proof (drawUUID_world (snd (consoleError "Chat error:" e w2)))
      as [Hch3 Ht3].
    destruct (drawUUID (snd (consoleError "Chat error:" e w2))) as [id w4].
    unfold consoleError, emit in Hch3, Ht3.
    cbn [fst snd messages input isTyping trace chunks] in *.
    split; [reflexivity |]. split; [reflexivity |].
    split; [rewrite Hch3; exact Hch2 |].
    exists (events ++ [EvConsoleError "Chat error:" e]).
    rewrite Ht3, Ht2, Ht1, <- app_assoc. split; [reflexivity |].
    rewrite embedTexts_app. cbn [embedTexts]. rewrite app_nil_r.
    split; [exact Hq |]. split; [exact Hn |]. split; [exact Hempty |].
    exists prior0, question, (answer ++ [mkChatMessage id assistant apologyText None]).
    rewrite Hmsgs, <- !app_assoc. split; [reflexivity |].
    split; [exact Hprior0 |]. split; [exact Hrole |]. split; [exact Hsrc |].
    right. exists e, (mkChatMessage id assistant apologyText None).
    split; [apply last_last |]. split; [repeat split |].
    destruct answer as [| a [| b answer]]; [left; reflexivity | | cbn in Hlen; lia].
    right. exists a. apply Forall_cons_iff in Hanswer.
    destruct Hanswer as [[Hra Hsa] _]. repeat split; assumption.
  - cbn [fst snd messages input isTyping] in *.
    split; [reflexivity |]. split; [reflexivity |]. split; [exact Hch2 |].
    exists events. rewrite Ht2, Ht1. split; [reflexivity |].
    split; [exact Hq |]. split; [exact Hn |]. split; [exact Hempty |].
    exists prior0, question, answer.
    rewrite Hmsgs, <- app_assoc. split; [reflexivity |].
    split; [exact Hprior0 |]. split; [exact Hrole |]. split; [exact Hsrc |].
    left. specialize (Hone eq_refl).
    destruct answer as [| a [| b answer]]; try discriminate.
    exists a. apply Forall_cons_iff in Hanswer.
    destruct Hanswer as [[Hra Hsa] _]. repeat split; assumption.
Qed.

Lemma shown_fresh (id : string) (texts : list string)
    (msgs : list ChatMessage) (names : option (list string)) :
  ~ In id (map messageId msgs) ->
  snd (streamLoop id texts "" (msgs ++ [mkChatMessage id assistant "" names]))
  = msgs ++ [mkChatMessage id assistant (String.concat "" texts) names].
Proof.
  intros Hfresh. rewrite streamLoop_run. cbn [snd String.append].
  destruct texts as [| t rest]; [reflexivity |].
  rewrite map_app. cbn [map]. f_equal.
  - rewrite <- (map_id msgs) at 2. apply map_ext_in. intros m Hm.
    apply showContent_other. intros Heq. apply Hfresh. rewrite <- Heq.
    apply in_map. exact Hm.
  - unfold showContent. cbn [messageId messageRole messageSources].
    rewrite String.eqb_refl. reflexivity.
Qed.

(** X20: a question that is answered.  When the search returns and the
    stream is opened, and the identifier drawn for the assistant's
    message is not that of another message, [handleSend] appends the
    user's message and the assistant's, whose content is the text of all
    the chunks of the stream, [undefined] and empty ones included, and
    whose sources are the names of the documents found, each once; the
    apology follows when the stream ends with an error, and what was
    received before stays. *)
Theorem handleSend_answer (st : ChatState) (w w2 : World E)
    (rs : list DocumentChunk) (s : ResponseStream) (env' : E) :
  blank (input st) = false ->
  isTyping st = false ->
  search (input st) 5 (snd (drawUUID w)) = (JS.Normal rs, w2) ->
  generateContentStream (input st) (contextOf rs) (env (snd (drawUUID w2)))
  = (StreamResolved s, env') ->
  ~ In (fst (drawUUID w2)) (fst (drawUUID w) :: map messageId (messages st)) ->
  exists tail,
    messages (fst (handleSend st w))
    = messages st
      ++ mkChatMessage (fst (drawUUID w)) user (input st) None
      :: mkChatMessage (fst (drawUUID w2)) assistant
           (String.concat "" (map textOf (streamTexts s)))
           (if 0 <? List.length (ChatInterface.sources rs)
            then Some (ChatInterface.sources rs) else None)
      :: tail /\
    match streamError s with
    | None => tail = []
    | Some _ => exists m, tail = [m] /\ isApology m
    end.
Proof.
  intros Hblank Htyping Hsearch Hgen Hfresh. unfold handleSend.
  rewrite Hblank, Htyping. cbn [orb].
  destruct (drawUUID w) as [userId w1]. cbn [fst snd] in *.
  unfold handleSendTry. rewrite Hsearch.
  destruct (drawUUID w2) as [aiId w3]. cbn [fst snd] in *.
  unfold generateRagResponse. rewrite Hgen.
  assert (Hshown :
    snd (streamLoop aiId (yielded (streamTexts s)) ""
           ((messages st ++ [mkChatMessage userId user (input st) None])
            ++ [mkChatMessage aiId assistant ""
                  (if 0 <? List.length (ChatInterface.sources rs)
                   then Some (ChatInterface.sources rs) else None)]))
    = (messages st ++ [mkChatMessage userId user (input st) None])
      ++ [mkChatMessage aiId assistant
            (String.concat "" (map textOf (streamTexts s)))
            (if 0 <? List.length (ChatInterface.sources rs)
             then Some (ChatInterface.sources rs) else None)]).
  { rewrite shown_fresh, yielded_concat; [reflexivity |].
    rewrite map_app. cbn [map messageId]. intros Hin. apply Hfresh.
    apply in_app_or in Hin. destruct Hin as [Hin | [Heq | []]];
      [right; exact Hin | left; exact Heq]. }
  destruct (streamError s) as [e |].
  - destruct (drawUUID _) as [id w5]. cbn [fst messages].
    rewrite Hshown, <- !app_assoc. cbn [app].
    eexists. split; [reflexivity |].
    eexists. split; [reflexivity | repeat split].
  - cbn [fst messages]. rewrite Hshown, <- !app_assoc. cbn [app].
    exists []. split; reflexivity.
Qed.

End Chat.

(** The question [hi] with three chunks of one document in the store:
    the input is cleared and the store is as before. *)
Lemma handleSend_outcome_witness :
  let st := mkChatState [] "hi" false in
  let w := Scripted.world [Scripted.ok [1; 0]%float] threeStored in
  input (fst (handleSend st w)) = "" /\
  isTyping (fst (handleSend st w)) = false /\
  chunks (snd (handleSend st w)) = threeStored.
Proof.
  intros st w.
  destruct (handleSend_outcome st w eq_refl eq_refl) as (Hi & Ht & Hc & _).
  split; [exact Hi |]. split; [exact Ht | exact Hc].
Defined.

(** The same question: the answer shown is the text of the four chunks
    of the stream, two of which have none. *)
Lemma handleSend_answer_witness :
  let st := mkChatState [] "hi" false in
  let w := Scripted.world [Scripted.ok [1; 0]%float] threeStored in
  exists sources,
    messages (fst (handleSend st w))
    = [mkChatMessage "uuid-0" user "hi" None;
       mkChatMessage "uuid-1" assistant "Hello world" sources].
Proof.
  intros st w.
  destruct (handleSend_answer st w
              (snd (VectorStore.search "hi" 5 (snd (drawUUID w))))
              (match fst (VectorStore.search "hi" 5 (snd (drawUUID w))) with
               | JS.Normal rs => rs
               | JS.Throw _ => []
               end)
              (mkResponseStream [Some "Hello"; None; Some ""; Some " world"] None)
              (Scripted.mkState [] 2))
    as (tail & Hmsgs & Htail).
  - reflexivity.
  - reflexivity.
  - vm_compute. reflexivity.
  - reflexivity.
  - vm_compute. intros [H | []]. discriminate.
  - cbn [streamError] in Htail. subst tail. eexists. exact Hmsgs.
Defined.
